(** * The system-dependency layer of GNU Emacs (src/sysdep.c)

    A shallow embedding of the retry-wrapped I/O, child-wait, terminal-mode,
    process-group and signal-delivery code of [sysdep.c], and the properties
    its specification states about them.

    The embedding follows the POSIX build of the file as it is preprocessed
    on GNU/Linux: not [WINDOWSNT], [MSDOS] or [DOS_NT], not [HAVE_ANDROID];
    [FORWARD_SIGNAL_TO_MAIN_THREAD], [HAVE_STACK_OVERFLOW_HANDLING],
    [SIGTTOU] and [O_PATH] defined; the system has no [posix_close], so the
    emulation in [sysdep.c] is the one in use.  [ENABLE_CHECKING], which
    decides whether [eassert] does anything, is a field of the state.

    The kernel is the environment, and the configuration above fixes which
    code is compiled, not what the kernel answers: where POSIX leaves the
    effect of a call open (a [close] that fails, say) the answer carries the
    choice.  A blocking system call is answered by
    the next entry of a finite script of answers; a wrapper that asks for
    more answers than the script holds is still waiting inside the call and
    its outcome is [Esc Blocked].  Every call made is recorded, with what it
    returned, in an [strace]-like log (newest entry first). *)

From stdpp Require Import base list gmap strings.
From Stdlib Require Import ZArith Lia Ascii.

Local Open Scope Z_scope.

(** ** Error numbers, as <errno.h> has them on GNU/Linux *)

Module Errno.
Definition EPERM : Z := 1.
Definition EINTR : Z := 4.
Definition EIO : Z := 5.
Definition EBADF : Z := 9.
Definition ECHILD : Z := 10.
Definition ENOTTY : Z := 25.
Definition EINPROGRESS : Z := 115.
End Errno.
Import Errno.

(** ** Outcomes of a C function

    A function either returns a value in a new state, or leaves through one
    of the ways [sysdep.c] has of not returning. *)

Inductive escape : Type :=
| ByQuit                    (* maybe_quit honoured a quit: non-local exit *)
| ByAbort                   (* a failed eassert *)
| Blocked                   (* still inside a system call: script exhausted *)
| ByLongjmp                 (* siglongjmp (return_to_command_loop, 1) *)
| ByTermination (sig : Z)   (* terminate_due_to_signal (sig, 40) *)
| BySuspension              (* while (1) sigsuspend (&empty_mask) *)
| ByLispSignal.             (* xsignal0 (Qarith_error) *)

Inductive outcome (S A : Type) : Type :=
| Ret (a : A) (s : S)
| Esc (e : escape) (s : S).
Arguments Ret {S A} a s.
Arguments Esc {S A} e s.

Definition bind {S A B} (o : outcome S A) (f : A -> S -> outcome S B)
  : outcome S B :=
  match o with
  | Ret a s => f a s
  | Esc e s => Esc e s
  end.

(** What a caller can see of an outcome: the value returned, or the way the
    function did not return. *)
Inductive observation (A : Type) : Type :=
| Returns (a : A)
| Escapes (e : escape).
Arguments Returns {A} a.
Arguments Escapes {A} e.

Definition observe {S A} (o : outcome S A) : observation A :=
  match o with
  | Ret a _ => Returns a
  | Esc e _ => Escapes e
  end.

Definition final {S A} (o : outcome S A) : S :=
  match o with
  | Ret _ s => s
  | Esc _ s => s
  end.

(** The answer the kernel has ready for a call: it can complete it, for a
    transfer with room for [v] bytes (for [open]: with descriptor [v]), or
    fail it with error number [e]. *)
Inductive answer : Type :=
| Done (v : N)
| Fail (e : Z).

(** What a system call returned: a nonnegative value, or -1 with [errno]. *)
Inductive result : Type :=
| Ok (v : Z)
| Error (e : Z).

Definition retval (r : result) : Z :=
  match r with
  | Ok v => v
  | Error _ => -1
  end.

(** A [ptrdiff_t] length passed where the prototype says [size_t] (LP64). *)
Definition size_t_of (n : Z) : Z := n mod 2 ^ 64.

(** ** Terminal settings *)

Record termios : Type := Termios {
  c_iflag : Z;
  c_oflag : Z;
  c_cflag : Z;
  c_lflag : Z;
  c_line : Z;
  c_cc : list Z;
  c_ispeed : Z;
  c_ospeed : Z
}.

Definition NCCS : nat := 32.

(** struct emacs_tty, on a POSIX host. *)
Record emacs_tty : Type := EmacsTty { main : termios }.

(** memset (&t, 0, sizeof t) *)
Definition zeroed : termios :=
  {| c_iflag := 0; c_oflag := 0; c_cflag := 0; c_lflag := 0; c_line := 0;
     c_cc := replicate NCCS 0; c_ispeed := 0; c_ospeed := 0 |}.

Inductive optional_actions : Type := TCSANOW | TCSADRAIN | TCSAFLUSH.

(** struct tty_display_info, as far as [sysdep.c] reads it here: the input
    stream, null while the device is suspended, else with its descriptor
    (what [fileno] returns). *)
Record tty_display_info : Type := Tty {
  input : option Z
}.

(** ** The process state the wrappers work on *)

Inductive syscall : Type :=
| SysRead (fd buf count : Z) (r : result)
| SysWrite (fd buf count : Z) (r : result)
| SysOpenat (dirfd file oflags mode : Z) (r : result)
| SysClose (fd : Z) (r : result)
| SysWaitpid (pid : Z) (want_status : bool) (options : Z) (r : result)
| SysTcgetattr (fd : Z) (r : result) (buf : termios)
| SysTcsetattr (fd : Z) (act : optional_actions) (t : termios) (r : result).

Record world : Type := World {
  errno : Z;
  quit_requested : bool;       (* a quit is pending and not inhibited *)
  pending_signals : bool;
  checking : bool;             (* ENABLE_CHECKING *)
  noninteractive : bool;
  open_fds : gset Z;           (* the descriptors that are valid *)
  input_available_clear_time : option (Z * Z);  (* null, or the timespec *)
  tty_list : list tty_display_info;
  strace : list syscall
}.

Definition set_errno (e : Z) (w : world) : world :=
  {| errno := e; quit_requested := quit_requested w;
     pending_signals := pending_signals w; checking := checking w;
     noninteractive := noninteractive w; open_fds := open_fds w;
     input_available_clear_time := input_available_clear_time w;
     tty_list := tty_list w; strace := strace w |}.

Definition raise_quit (b : bool) (w : world) : world :=
  {| errno := errno w; quit_requested := quit_requested w || b;
     pending_signals := pending_signals w; checking := checking w;
     noninteractive := noninteractive w; open_fds := open_fds w;
     input_available_clear_time := input_available_clear_time w;
     tty_list := tty_list w; strace := strace w |}.

Definition set_pending_signals (b : bool) (w : world) : world :=
  {| errno := errno w; quit_requested := quit_requested w;
     pending_signals := b; checking := checking w;
     noninteractive := noninteractive w; open_fds := open_fds w;
     input_available_clear_time := input_available_clear_time w;
     tty_list := tty_list w; strace := strace w |}.

Definition set_open_fds (fds : gset Z) (w : world) : world :=
  {| errno := errno w; quit_requested := quit_requested w;
     pending_signals := pending_signals w; checking := checking w;
     noninteractive := noninteractive w; open_fds := fds;
     input_available_clear_time := input_available_clear_time w;
     tty_list := tty_list w; strace := strace w |}.

Definition set_clear_time (t : option (Z * Z)) (w : world) : world :=
  {| errno := errno w; quit_requested := quit_requested w;
     pending_signals := pending_signals w; checking := checking w;
     noninteractive := noninteractive w; open_fds := open_fds w;
     input_available_clear_time := t;
     tty_list := tty_list w; strace := strace w |}.

Definition log (c : syscall) (w : world) : world :=
  {| errno := errno w; quit_requested := quit_requested w;
     pending_signals := pending_signals w; checking := checking w;
     noninteractive := noninteractive w; open_fds := open_fds w;
     input_available_clear_time := input_available_clear_time w;
     tty_list := tty_list w; strace := c :: strace w |}.

(** A call that returned [r]: [errno] is written only on failure, and the
    call is logged. *)
Definition returned (call : result -> syscall) (r : result) (w : world)
  : Z * world :=
  (retval r,
   log (call r) (match r with Error e => set_errno e w | Ok _ => w end)).

(** Modelled from the spec: [maybe_quit] (lisp.h, not part of sysdep.c),
    the cooperative-cancellation check, "which may abort the whole
    operation by transferring control out via a non-local exit (the
    process's user interrupt / quit mechanism) instead of returning". *)
Definition maybe_quit (w : world) : outcome world unit :=
  if quit_requested w then Esc ByQuit w else Ret tt w.

(** Modelled from the spec: [process_pending_signals] (keyboard.c, not part
    of sysdep.c), which "drains any signal-triggered deferred work between
    retries". *)
Definition process_pending_signals (w : world) : world :=
  set_pending_signals false w.

(** eassert (cond): nothing unless ENABLE_CHECKING, else abort on false. *)
Definition eassert (cond : bool) (w : world) : outcome world unit :=
  if checking w && negb cond then Esc ByAbort w else Ret tt w.

(** ** Retry-wrapped I/O: emacs_open, emacs_read, emacs_write *)

(** One scripted answer, and whether a keyboard quit arrived while the call
    was in progress (the signal handler then sets the quit flag; its
    delivery is what interrupts a call). *)
Record event : Type := Event {
  ans : answer;
  quit_arrives : bool
}.

Definition script : Type := list event.
Definition state : Type := (script * world)%type.

Definition O_TEXT : Z := 0.
Definition O_BINARY : Z := 0.
Definition O_CLOEXEC : Z := 524288.
Definition AT_FDCWD : Z := -100.

Definition transfer (a : answer) (count : Z) : result :=
  match a with
  | Done v => Ok (Z.min (Z.of_N v) count)
  | Fail e => Error e
  end.

Definition opened (a : answer) : result :=
  match a with
  | Done v => Ok (Z.of_N v)
  | Fail e => Error e
  end.

(** read (fd, buf, nbyte): at most [nbyte] bytes, as many as are there. *)
Definition sys_read (fd buf nbyte : Z) (ev : event) (w : world) : Z * world :=
  let count := size_t_of nbyte in
  returned (SysRead fd buf count) (transfer (ans ev) count)
    (raise_quit (quit_arrives ev) w).

(** write (fd, buf, count): at most [count] bytes, as many as fit. *)
Definition sys_write (fd buf nbyte : Z) (ev : event) (w : world) : Z * world :=
  let count := size_t_of nbyte in
  returned (SysWrite fd buf count) (transfer (ans ev) count)
    (raise_quit (quit_arrives ev) w).

(** sys_openat, with O_PATH defined: openat (dirfd, file, oflags, mode). *)
Definition sys_openat (dirfd file oflags mode : Z) (ev : event) (w : world)
  : Z * world :=
  returned (SysOpenat dirfd file oflags mode) (opened (ans ev))
    (raise_quit (quit_arrives ev) w).

Section WithMaxRwCount.

(** [MAX_RW_COUNT] comes from lisp.h, which is not part of the sources at
    hand; [sysdep.c] only asserts that it fits the standard types. *)
Variable MAX_RW_COUNT : Z.

(** The loop of [emacs_intr_read]:
<<
    do
      {
        if (interruptible)
          maybe_quit ();
        result = read (fd, buf, nbyte);
      }
    while (result < 0 && errno == EINTR);
    return result;
>> *)
Fixpoint intr_read_loop (fd buf nbyte : Z) (interruptible : bool)
    (k : script) (w : world) : outcome state Z :=
  match (if interruptible then maybe_quit w else Ret tt w) with
  | Esc e w0 => Esc e (k, w0)
  | Ret _ w0 =>
      match k with
      | [] => Esc Blocked (k, w0)
      | ev :: k' =>
          let '(result, w1) := sys_read fd buf nbyte ev w0 in
          if (result <? 0) && (errno w1 =? EINTR)
          then intr_read_loop fd buf nbyte interruptible k' w1
          else Ret result (k', w1)
      end
  end.

Definition emacs_intr_read (fd buf nbyte : Z) (interruptible : bool)
    (k : script) (w : world) : outcome state Z :=
  match eassert (nbyte <=? MAX_RW_COUNT) w with
  | Esc e w0 => Esc e (k, w0)
  | Ret _ w0 => intr_read_loop fd buf nbyte interruptible k w0
  end.

Definition emacs_read (fd buf nbyte : Z)
  : script -> world -> outcome state Z :=
  emacs_intr_read fd buf nbyte false.

Definition emacs_read_quit (fd buf nbyte : Z)
  : script -> world -> outcome state Z :=
  emacs_intr_read fd buf nbyte true.

(** What [emacs_full_write] does after a write failed with EINTR:
<<
    if (interruptible)
      {
        if (0 < interruptible)
          maybe_quit ();
        if (pending_signals)
          process_pending_signals ();
      }
>> *)
Definition write_interrupted (interruptible : Z) (w : world)
  : outcome world unit :=
  if interruptible =? 0 then Ret tt w
  else
    bind (if 0 <? interruptible then maybe_quit w else Ret tt w)
      (fun _ w1 =>
         Ret tt (if pending_signals w1 then process_pending_signals w1
                 else w1)).

(** The loop of [emacs_full_write], with its three variables:
<<
    while (nbyte > 0)
      {
        ssize_t n = write (fd, buf, min (nbyte, MAX_RW_COUNT));
        if (n < 0)
          {
            if (errno != EINTR)
              break;
            ... write_interrupted ...
          }
        else
          {
            buf += n;
            nbyte -= n;
            bytes_written += n;
          }
      }
    return bytes_written;
>> *)
Fixpoint full_write_loop (fd buf nbyte bytes_written interruptible : Z)
    (k : script) (w : world) : outcome state Z :=
  if 0 <? nbyte then
    match k with
    | [] => Esc Blocked (k, w)
    | ev :: k' =>
        let '(n, w1) := sys_write fd buf (Z.min nbyte MAX_RW_COUNT) ev w in
        if n <? 0 then
          if negb (errno w1 =? EINTR) then Ret bytes_written (k', w1)
          else
            match write_interrupted interruptible w1 with
            | Esc e w2 => Esc e (k', w2)
            | Ret _ w2 =>
                full_write_loop fd buf nbyte bytes_written interruptible
                  k' w2
            end
        else
          full_write_loop fd (buf + n) (nbyte - n) (bytes_written + n)
            interruptible k' w1
    end
  else Ret bytes_written (k, w).

Definition emacs_full_write (fd buf nbyte interruptible : Z)
    (k : script) (w : world) : outcome state Z :=
  full_write_loop fd buf nbyte 0 interruptible k w.

Definition emacs_write (fd buf nbyte : Z)
  : script -> world -> outcome state Z :=
  emacs_full_write fd buf nbyte 0.


Definition emacs_write_quit (fd buf nbyte : Z)
  : script -> world -> outcome state Z :=
  emacs_full_write fd buf nbyte 1.

End WithMaxRwCount.

(** The flags [emacs_openat] and [emacs_open_noquit] pass on:
<<
      if (! (oflags & O_TEXT))
        oflags |= O_BINARY;
      oflags |= O_CLOEXEC;
>> *)
Definition open_flags (oflags : Z) : Z :=
  let oflags := if Z.land oflags O_TEXT =? 0
                then Z.lor oflags O_BINARY else oflags in
  Z.lor oflags O_CLOEXEC.

(** The loop of [emacs_openat]:
<<
      while ((fd = sys_openat (dirfd, file, oflags, mode)) < 0
             && errno == EINTR)
        maybe_quit ();
      return fd;
>> *)
Fixpoint openat_loop (dirfd file oflags mode : Z) (k : script) (w : world)
  : outcome state Z :=
  match k with
  | [] => Esc Blocked (k, w)
  | ev :: k' =>
      let '(fd, w1) := sys_openat dirfd file oflags mode ev w in
      if (fd <? 0) && (errno w1 =? EINTR) then
        match maybe_quit w1 with
        | Esc e w2 => Esc e (k', w2)
        | Ret _ w2 => openat_loop dirfd file oflags mode k' w2
        end
      else Ret fd (k', w1)
  end.

Definition emacs_openat (dirfd file oflags mode : Z) (k : script) (w : world)
  : outcome state Z :=
  openat_loop dirfd file (open_flags oflags) mode k w.

Definition emacs_open (file oflags mode : Z)
  : script -> world -> outcome state Z :=
  emacs_openat AT_FDCWD file oflags mode.

(** The loop of [emacs_open_noquit], whose [open (file, ...)] is logged as
    [openat (AT_FDCWD, file, ...)]:
<<
      do
        fd = open (file, oflags, mode);
      while (fd < 0 && errno == EINTR);
      return fd;
>> *)
Fixpoint open_noquit_loop (file oflags mode : Z) (k : script) (w : world)
  : outcome state Z :=
  match k with
  | [] => Esc Blocked (k, w)
  | ev :: k' =>
      let '(fd, w1) := sys_openat AT_FDCWD file oflags mode ev w in
      if (fd <? 0) && (errno w1 =? EINTR)
      then open_noquit_loop file oflags mode k' w1
      else Ret fd (k', w1)
  end.

Definition emacs_open_noquit (file oflags mode : Z) (k : script) (w : world)
  : outcome state Z :=
  open_noquit_loop file (open_flags oflags) mode k w.

(** An interruption: the call fails with EINTR. *)
Definition interrupted (quit : bool) : event :=
  {| ans := Fail EINTR; quit_arrives := quit |}.

(** ** Closing a descriptor: posix_close, emacs_close *)

(** What the kernel does with a [close] of a valid descriptor: it closes
    it, or it fails with [e]; after a failure the descriptor is released or
    not, depending on the system and the error ("in some systems (e.g.,
    GNU/Linux, AIX) FD is closed ...  In other systems (e.g., HP/UX) FD is
    not closed.  And in still other systems (e.g., macOS, Solaris), maybe FD
    is closed, maybe not"). *)
Inductive close_answer : Type :=
| Closed
| CloseFailed (e : Z) (released : bool).

Definition close_script : Type := list close_answer.

Definition releases (a : close_answer) : bool :=
  match a with
  | Closed => true
  | CloseFailed _ released => released
  end.

(** close (fd): EBADF unless [fd] is valid. *)
Definition sys_close (fd : Z) (a : close_answer) (w : world) : Z * world :=
  if bool_decide (fd ∈ open_fds w) then
    let w1 := if releases a then set_open_fds (open_fds w ∖ {[fd]}) w else w in
    returned (SysClose fd)
      (match a with Closed => Ok 0 | CloseFailed e _ => Error e end) w1
  else returned (SysClose fd) (Error EBADF) w.

Definition POSIX_CLOSE_RESTART : Z := 1.

(** [posix_close], as emulated:
<<
      eassert (flag == POSIX_CLOSE_RESTART);
      return close (fd) == 0 || errno == EINTR ? 0 : -1;
>> *)
Definition posix_close (fd flag : Z) (a : close_answer) (w : world)
  : outcome world Z :=
  bind (eassert (flag =? POSIX_CLOSE_RESTART) w)
    (fun _ w0 =>
       let '(r, w1) := sys_close fd a w0 in
       Ret (if (r =? 0) || (errno w1 =? EINTR) then 0 else -1) w1).

(** [emacs_close]:
<<
      while (1)
        {
          r = posix_close (fd, POSIX_CLOSE_RESTART);
          if (r == 0)
            return r;
          if (!POSIX_CLOSE_RESTART || errno != EINTR)
            {
              eassert (errno != EBADF || fd < 0);
              return errno == EINPROGRESS ? 0 : r;
            }
        }
>> *)
Fixpoint emacs_close (fd : Z) (k : close_script) (w : world)
  : outcome (close_script * world) Z :=
  match k with
  | [] => Esc Blocked (k, w)
  | a :: k' =>
      match posix_close fd POSIX_CLOSE_RESTART a w with
      | Esc e w1 => Esc e (k', w1)
      | Ret r w1 =>
          if r =? 0 then Ret r (k', w1)
          else if (POSIX_CLOSE_RESTART =? 0) || negb (errno w1 =? EINTR) then
            match eassert (negb (errno w1 =? EBADF) || (fd <? 0)) w1 with
            | Esc e w2 => Esc e (k', w2)
            | Ret _ w2 =>
                Ret (if errno w2 =? EINPROGRESS then 0 else r) (k', w2)
            end
          else emacs_close fd k' w1
      end
  end.

(** ** Waiting for a child: get_child_status and its two callers *)

(** What [waitpid] finds: the child changed status (and this is its status
    word), nothing has changed yet, or the call fails with [e]. *)
Inductive wait_answer : Type :=
| Changed (status : Z)
| Unchanged
| WaitFailed (e : Z).

Record wait_event : Type := WaitEvent {
  found : wait_answer;
  quit_during_wait : bool
}.

Definition wait_script : Type := list wait_event.

Definition WNOHANG : Z := 1.

(** waitpid (child, status, options), for the positive [child] it is given:
    the value returned, and what it stored through a non-null [status]. *)
Definition sys_waitpid (child : Z) (status : bool) (options : Z)
    (ev : wait_event) (w : world) : Z * option Z * world :=
  let w0 := raise_quit (quit_during_wait ev) w in
  match found ev with
  | Changed st =>
      let '(pid, w1) := returned (SysWaitpid child status options) (Ok child) w0 in
      (pid, if status then Some st else None, w1)
  | Unchanged =>
      let '(pid, w1) := returned (SysWaitpid child status options) (Ok 0) w0 in
      (pid, None, w1)
  | WaitFailed e =>
      let '(pid, w1) := returned (SysWaitpid child status options) (Error e) w0 in
      (pid, None, w1)
  end.

(** The loop of [get_child_status] and what follows it:
<<
      while (true)
        {
          if (interruptible)
            maybe_quit ();
          pid = waitpid (child, status, options);
          if (0 <= pid)
            break;
          if (errno != EINTR)
            return pid;
        }
      if (pid && status && input_available_clear_time)
        *input_available_clear_time = make_timespec (0, 0);
      return pid;
>>
    [status] says whether the pointer is non-null; the second component of
    the value is what was stored through it. *)
Fixpoint child_status_loop (child : Z) (status : bool) (options : Z)
    (interruptible : bool) (k : wait_script) (w : world)
  : outcome (wait_script * world) (Z * option Z) :=
  match (if interruptible then maybe_quit w else Ret tt w) with
  | Esc e w0 => Esc e (k, w0)
  | Ret _ w0 =>
      match k with
      | [] => Esc Blocked (k, w0)
      | ev :: k' =>
          let '(pid, st, w1) := sys_waitpid child status options ev w0 in
          if 0 <=? pid then
            Ret (pid, st)
              (k', if negb (pid =? 0) && status
                      && bool_decide (is_Some (input_available_clear_time w1))
                   then set_clear_time (Some (0, 0)) w1 else w1)
          else if negb (errno w1 =? EINTR) then Ret (pid, st) (k', w1)
          else child_status_loop child status options interruptible k' w1
      end
  end.

Definition get_child_status (child : Z) (status : bool) (options : Z)
    (interruptible : bool) (k : wait_script) (w : world)
  : outcome (wait_script * world) (Z * option Z) :=
  match eassert (0 <? child) w with
  | Esc e w0 => Esc e (k, w0)
  | Ret _ w0 => child_status_loop child status options interruptible k w0
  end.

(** return 0 <= get_child_status (child, status, 0, interruptible); *)
Definition wait_for_termination (child : Z) (status interruptible : bool)
    (k : wait_script) (w : world)
  : outcome (wait_script * world) (bool * option Z) :=
  bind (get_child_status child status 0 interruptible k w)
    (fun r s => Ret (0 <=? fst r, snd r) s).

(** return get_child_status (child, status, WNOHANG | options, 0); *)
Definition child_status_changed (child : Z) (status : bool) (options : Z)
  : wait_script -> world -> outcome (wait_script * world) (Z * option Z) :=
  get_child_status child status (Z.lor WNOHANG options) false.

(** ** Terminal modes: emacs_get_tty, emacs_set_tty, discard_tty_input *)

(** What [tcgetattr] reports: the settings in force, or a failure. *)
Inductive get_answer : Type :=
| Attributes (t : termios)
| GetFailed (e : Z).

(** The answers the terminal driver will give: to [tcsetattr] calls (only
    success or failure matters) and, independently, to [tcgetattr] calls.
    A driver may report a successful [tcsetattr] and still show other
    settings afterwards. *)
Record tty_script : Type := TtyScript {
  set_answers : list answer;
  get_answers : list get_answer
}.

Definition tty_state : Type := (tty_script * world)%type.

(** tcgetattr (fd, &buf): fills [buf] on success only.  The log entry
    keeps what [buf] holds after the call. *)
Definition sys_tcgetattr (fd : Z) (buf : termios) (a : get_answer) (w : world)
  : Z * termios * world :=
  match a with
  | Attributes t =>
      let '(r, w1) := returned (fun r => SysTcgetattr fd r t) (Ok 0) w in
      (r, t, w1)
  | GetFailed e =>
      let '(r, w1) := returned (fun r => SysTcgetattr fd r buf) (Error e) w in
      (r, buf, w1)
  end.

Definition sys_tcsetattr (fd : Z) (act : optional_actions) (t : termios)
    (a : answer) (w : world) : Z * world :=
  returned (SysTcsetattr fd act t)
    (match a with Done _ => Ok 0 | Fail e => Error e end) w.

(** [emacs_get_tty]:
<<
      memset (&settings->main, 0, sizeof (settings->main));
      return tcgetattr (fd, &settings->main);
>>
    The value is the pair of what is returned and what [*settings] holds. *)
Definition emacs_get_tty (fd : Z) (k : tty_script) (w : world)
  : outcome tty_state (Z * emacs_tty) :=
  match get_answers k with
  | [] => Esc Blocked (k, w)
  | a :: rest =>
      let '(r, t, w1) := sys_tcgetattr fd zeroed a w in
      Ret (r, {| main := t |})
        ({| set_answers := set_answers k; get_answers := rest |}, w1)
  end.

(** memcmp (a, b, NCCS) == 0 *)
Definition same_cc (a b : list Z) : bool :=
  bool_decide (take NCCS a = take NCCS b).

(** The test that ends the loop of [emacs_set_tty]. *)
Definition settings_match (new wanted : termios) : bool :=
  (c_iflag new =? c_iflag wanted)
  && (c_oflag new =? c_oflag wanted)
  && (c_cflag new =? c_cflag wanted)
  && (c_lflag new =? c_lflag wanted)
  && same_cc (c_cc new) (c_cc wanted).

(** The loop of [emacs_set_tty], [n] iterations from its end:
<<
      for (i = 0 ; i < 10 ; i++)
        if (tcsetattr (fd, flushp ? TCSAFLUSH : TCSADRAIN, &settings->main) < 0)
          {
            if (errno == EINTR)
              continue;
            else
              return -1;
          }
        else
          {
            struct termios new;
            memset (&new, 0, sizeof (new));
            tcgetattr (fd, &new);
            if (new.c_iflag == settings->main.c_iflag && ...)
              break;
            else
              continue;
          }
      return 0;
>> *)
Fixpoint set_tty_loop (n : nat) (fd : Z) (settings : emacs_tty) (flushp : bool)
    (k : tty_script) (w : world) : outcome tty_state Z :=
  match n with
  | O => Ret 0 (k, w)
  | S n' =>
      match set_answers k with
      | [] => Esc Blocked (k, w)
      | a :: sets =>
          let k1 := {| set_answers := sets; get_answers := get_answers k |} in
          let '(r, w1) :=
            sys_tcsetattr fd (if flushp then TCSAFLUSH else TCSADRAIN)
              (main settings) a w in
          if r <? 0 then
            if errno w1 =? EINTR
            then set_tty_loop n' fd settings flushp k1 w1
            else Ret (-1) (k1, w1)
          else
            match get_answers k1 with
            | [] => Esc Blocked (k1, w1)
            | g :: gets =>
                let k2 := {| set_answers := sets; get_answers := gets |} in
                let '(_, new, w2) := sys_tcgetattr fd zeroed g w1 in
                if settings_match new (main settings)
                then Ret 0 (k2, w2)
                else set_tty_loop n' fd settings flushp k2 w2
            end
      end
  end.

Definition emacs_set_tty (fd : Z) (settings : emacs_tty) (flushp : bool)
  : tty_script -> world -> outcome tty_state Z :=
  set_tty_loop 10 fd settings flushp.

(** The loop of [discard_tty_input] over the list of ttys:
<<
      for (tty = tty_list; tty; tty = tty->next)
        {
          if (tty->input)         /* Is the device suspended? */
            {
              emacs_get_tty (fileno (tty->input), &buf);
              emacs_set_tty (fileno (tty->input), &buf, 0);
            }
        }
>> *)
Fixpoint discard_loop (ttys : list tty_display_info) (k : tty_script)
    (w : world) : outcome tty_state unit :=
  match ttys with
  | [] => Ret tt (k, w)
  | tty :: next =>
      match input tty with
      | None => discard_loop next k w
      | Some fd =>
          match emacs_get_tty fd k w with
          | Esc e s => Esc e s
          | Ret (_, buf) (k1, w1) =>
              match emacs_set_tty fd buf false k1 w1 with
              | Esc e s => Esc e s
              | Ret _ (k2, w2) => discard_loop next k2 w2
              end
          end
      end
  end.

(** [discard_tty_input]: if (noninteractive) return; then the loop. *)
Definition discard_tty_input (k : tty_script) (w : world)
  : outcome tty_state unit :=
  if noninteractive w then Ret tt (k, w)
  else discard_loop (tty_list w) k w.

(** ** The foreground process group *)

Module ForegroundGroup.

Definition SIGTTOU : Z := 22.
Definition EINVAL : Z := 22.

Inductive call : Type :=
| Setpgid (pid pgid : Z) (r : result)
| Tcsetpgrp (fd pgid : Z) (r : result).

Record world : Type := World {
  errno : Z;
  pid : Z;                        (* getpid () *)
  pgrp : Z;                       (* getpgrp () *)
  session_leader : bool;          (* a session leader cannot change group *)
  peer_groups : gset Z;           (* the groups of the session in which
                                     another process is *)
  inherited_pgroup : Z;
  foreground : gmap Z Z;          (* terminal descriptor -> foreground group *)
  sigmask : gset Z;               (* the signals this thread blocks *)
  interrupt_input_blocked : Z;
  calls : list call
}.

Definition with_kernel (e : Z) (g : Z) (fg : gmap Z Z) (c : call) (w : world)
  : world :=
  {| errno := e; pid := pid w; pgrp := g;
     session_leader := session_leader w;
     peer_groups := peer_groups w;
     inherited_pgroup := inherited_pgroup w; foreground := fg;
     sigmask := sigmask w;
     interrupt_input_blocked := interrupt_input_blocked w;
     calls := c :: calls w |}.

Definition with_sigmask (m : gset Z) (w : world) : world :=
  {| errno := errno w; pid := pid w; pgrp := pgrp w;
     session_leader := session_leader w;
     peer_groups := peer_groups w;
     inherited_pgroup := inherited_pgroup w; foreground := foreground w;
     sigmask := m;
     interrupt_input_blocked := interrupt_input_blocked w;
     calls := calls w |}.

Definition with_input_blocked (n : Z) (w : world) : world :=
  {| errno := errno w; pid := pid w; pgrp := pgrp w;
     session_leader := session_leader w;
     peer_groups := peer_groups w;
     inherited_pgroup := inherited_pgroup w; foreground := foreground w;
     sigmask := sigmask w;
     interrupt_input_blocked := n;
     calls := calls w |}.

Definition with_inherited (g : Z) (w : world) : world :=
  {| errno := errno w; pid := pid w; pgrp := pgrp w;
     session_leader := session_leader w;
     peer_groups := peer_groups w;
     inherited_pgroup := g; foreground := foreground w;
     sigmask := sigmask w;
     interrupt_input_blocked := interrupt_input_blocked w;
     calls := calls w |}.

(** Whether the calling process may move into the group [pgid]: the group
    must be there in its session, which it is if it is the group of the
    process's own pid (made if need be), the group the process is in, or a
    group in which another process of the session is.  A group that its
    last member has left is gone. *)
Definition group_at_hand (pgid : Z) (w : world) : bool :=
  (pgid =? pid w) || (pgid =? pgrp w) || bool_decide (pgid ∈ peer_groups w).

(** setpgid (0, pgid) on the calling process; [pgid] 0 stands for its own
    pid.  It fails with EINVAL for a negative [pgid], and with EPERM for a
    session leader and for a group that is not at hand. *)
Definition setpgid (p pgid : Z) (w : world) : Z * world :=
  let target := if pgid =? 0 then pid w else pgid in
  if pgid <? 0
  then (-1, with_kernel EINVAL (pgrp w) (foreground w)
              (Setpgid p pgid (Error EINVAL)) w)
  else if session_leader w || negb (group_at_hand target w)
  then (-1, with_kernel EPERM (pgrp w) (foreground w)
              (Setpgid p pgid (Error EPERM)) w)
  else (0, with_kernel (errno w) target (foreground w)
             (Setpgid p pgid (Ok 0)) w).

(** tcsetpgrp (fd, pgid): ENOTTY unless [fd] is a terminal of ours. *)
Definition tcsetpgrp (fd pgid : Z) (w : world) : Z * world :=
  match foreground w !! fd with
  | Some _ =>
      (0, with_kernel (errno w) (pgrp w) (<[fd := pgid]> (foreground w))
            (Tcsetpgrp fd pgid (Ok 0)) w)
  | None =>
      (-1, with_kernel ENOTTY (pgrp w) (foreground w)
             (Tcsetpgrp fd pgid (Error ENOTTY)) w)
  end.

(** [block_input] and [unblock_input] are from blockinput.h, which is not
    part of the sources at hand; they are taken to count nesting in
    [interrupt_input_blocked]. *)
Definition block_input (w : world) : world :=
  with_input_blocked (interrupt_input_blocked w + 1) w.
Definition unblock_input (w : world) : world :=
  with_input_blocked (interrupt_input_blocked w - 1) w.

(** pthread_sigmask (SIG_BLOCK, {SIGTTOU}, oldset): returns [*oldset]. *)
Definition block_tty_out_signal (w : world) : gset Z * world :=
  (sigmask w, with_sigmask (sigmask w ∪ {[SIGTTOU]}) w).

(** pthread_sigmask (SIG_SETMASK, oldset, 0) *)
Definition unblock_tty_out_signal (oldset : gset Z) (w : world) : world :=
  with_sigmask oldset w.

Definition tcsetpgrp_without_stopping (fd pgid : Z) (w : world) : world :=
  let w1 := block_input w in
  let '(oldset, w2) := block_tty_out_signal w1 in
  let '(_, w3) := tcsetpgrp fd pgid w2 in
  let w4 := unblock_tty_out_signal oldset w3 in
  unblock_input w4.

(** pid_t pgrp = getpgrp ();
    inherited_pgroup = getpid () == pgrp ? 0 : pgrp; *)
Definition init_foreground_group (w : world) : world :=
  with_inherited (if pid w =? pgrp w then 0 else pgrp w) w.

(** if (inherited_pgroup && setpgid (0, 0) == 0)
      tcsetpgrp_without_stopping (fd, getpid ()); *)
Definition narrow_foreground_group (fd : Z) (w : world) : world :=
  if inherited_pgroup w =? 0 then w
  else
    let '(r, w1) := setpgid 0 0 w in
    if r =? 0 then tcsetpgrp_without_stopping fd (pid w1) w1 else w1.

(** if (inherited_pgroup && setpgid (0, inherited_pgroup) == 0)
      tcsetpgrp_without_stopping (fd, inherited_pgroup); *)
Definition widen_foreground_group (fd : Z) (w : world) : world :=
  if inherited_pgroup w =? 0 then w
  else
    let '(r, w1) := setpgid 0 (inherited_pgroup w) w in
    if r =? 0
    then tcsetpgrp_without_stopping fd (inherited_pgroup w1) w1
    else w1.

End ForegroundGroup.

(** ** Signal delivery, stack overflow and the installation of handlers *)

Module Signals.

Definition SIGHUP : Z := 1.
Definition SIGINT : Z := 2.
Definition SIGQUIT : Z := 3.
Definition SIGILL : Z := 4.
Definition SIGTRAP : Z := 5.
Definition SIGABRT : Z := 6.
Definition SIGIOT : Z := 6.
Definition SIGBUS : Z := 7.
Definition SIGFPE : Z := 8.
Definition SIGUSR1 : Z := 10.
Definition SIGSEGV : Z := 11.
Definition SIGUSR2 : Z := 12.
Definition SIGPIPE : Z := 13.
Definition SIGALRM : Z := 14.
Definition SIGTERM : Z := 15.
Definition SIGCHLD : Z := 17.
Definition SIGXCPU : Z := 24.
Definition SIGXFSZ : Z := 25.
Definition SIGVTALRM : Z := 26.
Definition SIGPROF : Z := 27.
Definition SIGWINCH : Z := 28.
Definition SIGIO : Z := 29.
Definition SIGSYS : Z := 31.

Definition SA_SIGINFO : Z := 4.
Definition SA_ONSTACK : Z := 134217728.
Definition SA_RESTART : Z := 268435456.

(** Whether the host has IEEE floating point (lisp.h). *)
Definition IEEE_FLOATING_POINT : bool := true.

(** The functions of Emacs that are installed as handlers. *)
Inductive code : Type :=
| Deliver_fatal_signal
| Deliver_fatal_thread_signal
| Deliver_arith_signal
| Deliver_user_signal
| Handle_sigsegv.

Inductive sighandler : Type :=
| SIG_DFL
| SIG_IGN
| Handler (f : code).

#[global] Instance code_eq_dec : EqDecision code.
Proof. solve_decision. Defined.

#[global] Instance sighandler_eq_dec : EqDecision sighandler.
Proof. solve_decision. Defined.

Record sigaction_t : Type := Sigaction {
  sa_handler : sighandler;
  sa_mask : gset Z;
  sa_flags : Z
}.

(** sigfillset: every signal number, 1 to 64. *)
Definition full_mask : gset Z := list_to_set (Z.of_nat <$> seq 1 64).

Definition default_action : sigaction_t :=
  {| sa_handler := SIG_DFL; sa_mask := ∅; sa_flags := 0 |}.

Record siginfo_t : Type := Siginfo { si_addr : Z }.

Record world : Type := World {
  errno : Z;
  noninteractive : bool;
  self : Z;                          (* pthread_self () *)
  main_thread_id : Z;
  gc_in_progress : bool;
  attempt_stack_overflow_recovery : bool;
  stack_bottom : Z;
  stack_top : Z;                     (* current_thread->stack_top *)
  sigaltstack_works : bool;          (* whether sigaltstack succeeds *)
  altstack : option Z;               (* size of the alternate stack *)
  actions : gmap Z sigaction_t;      (* what the kernel has installed *)
  process_fatal_action : sigaction_t;
  old_sigsegv_handler : sigaction_t;
  sigmask : gset Z;                  (* the signals this thread blocks *)
  killed : list Z;                   (* signals sent to the main thread *)
  frames : Z;                        (* what backtrace finds *)
  thread_backtrace_npointers : Z;
  noise : list Z                     (* the errno values library calls leave *)
}.

Definition set_errno (e : Z) (w : world) : world :=
  {| errno := e; noninteractive := noninteractive w; self := self w;
     main_thread_id := main_thread_id w;
     gc_in_progress := gc_in_progress w;
     attempt_stack_overflow_recovery := attempt_stack_overflow_recovery w;
     stack_bottom := stack_bottom w; stack_top := stack_top w;
     sigaltstack_works := sigaltstack_works w; altstack := altstack w;
     actions := actions w;
     process_fatal_action := process_fatal_action w;
     old_sigsegv_handler := old_sigsegv_handler w;
     sigmask := sigmask w; killed := killed w; frames := frames w;
     thread_backtrace_npointers := thread_backtrace_npointers w;
     noise := noise w |}.

Definition set_noise (l : list Z) (w : world) : world :=
  {| errno := errno w; noninteractive := noninteractive w; self := self w;
     main_thread_id := main_thread_id w;
     gc_in_progress := gc_in_progress w;
     attempt_stack_overflow_recovery := attempt_stack_overflow_recovery w;
     stack_bottom := stack_bottom w; stack_top := stack_top w;
     sigaltstack_works := sigaltstack_works w; altstack := altstack w;
     actions := actions w;
     process_fatal_action := process_fatal_action w;
     old_sigsegv_handler := old_sigsegv_handler w;
     sigmask := sigmask w; killed := killed w; frames := frames w;
     thread_backtrace_npointers := thread_backtrace_npointers w;
     noise := l |}.

Definition set_main_thread_id (t : Z) (w : world) : world :=
  {| errno := errno w; noninteractive := noninteractive w; self := self w;
     main_thread_id := t;
     gc_in_progress := gc_in_progress w;
     attempt_stack_overflow_recovery := attempt_stack_overflow_recovery w;
     stack_bottom := stack_bottom w; stack_top := stack_top w;
     sigaltstack_works := sigaltstack_works w; altstack := altstack w;
     actions := actions w;
     process_fatal_action := process_fatal_action w;
     old_sigsegv_handler := old_sigsegv_handler w;
     sigmask := sigmask w; killed := killed w; frames := frames w;
     thread_backtrace_npointers := thread_backtrace_npointers w;
     noise := noise w |}.

Definition set_altstack (s : option Z) (w : world) : world :=
  {| errno := errno w; noninteractive := noninteractive w; self := self w;
     main_thread_id := main_thread_id w;
     gc_in_progress := gc_in_progress w;
     attempt_stack_overflow_recovery := attempt_stack_overflow_recovery w;
     stack_bottom := stack_bottom w; stack_top := stack_top w;
     sigaltstack_works := sigaltstack_works w; altstack := s;
     actions := actions w;
     process_fatal_action := process_fatal_action w;
     old_sigsegv_handler := old_sigsegv_handler w;
     sigmask := sigmask w; killed := killed w; frames := frames w;
     thread_backtrace_npointers := thread_backtrace_npointers w;
     noise := noise w |}.

Definition set_actions (m : gmap Z sigaction_t) (w : world) : world :=
  {| errno := errno w; noninteractive := noninteractive w; self := self w;
     main_thread_id := main_thread_id w;
     gc_in_progress := gc_in_progress w;
     attempt_stack_overflow_recovery := attempt_stack_overflow_recovery w;
     stack_bottom := stack_bottom w; stack_top := stack_top w;
     sigaltstack_works := sigaltstack_works w; altstack := altstack w;
     actions := m;
     process_fatal_action := process_fatal_action w;
     old_sigsegv_handler := old_sigsegv_handler w;
     sigmask := sigmask w; killed := killed w; frames := frames w;
     thread_backtrace_npointers := thread_backtrace_npointers w;
     noise := noise w |}.

Definition set_process_fatal_action (a : sigaction_t) (w : world) : world :=
  {| errno := errno w; noninteractive := noninteractive w; self := self w;
     main_thread_id := main_thread_id w;
     gc_in_progress := gc_in_progress w;
     attempt_stack_overflow_recovery := attempt_stack_overflow_recovery w;
     stack_bottom := stack_bottom w; stack_top := stack_top w;
     sigaltstack_works := sigaltstack_works w; altstack := altstack w;
     actions := actions w;
     process_fatal_action := a;
     old_sigsegv_handler := old_sigsegv_handler w;
     sigmask := sigmask w; killed := killed w; frames := frames w;
     thread_backtrace_npointers := thread_backtrace_npointers w;
     noise := noise w |}.

Definition set_old_sigsegv_handler (a : sigaction_t) (w : world) : world :=
  {| errno := errno w; noninteractive := noninteractive w; self := self w;
     main_thread_id := main_thread_id w;
     gc_in_progress := gc_in_progress w;
     attempt_stack_overflow_recovery := attempt_stack_overflow_recovery w;
     stack_bottom := stack_bottom w; stack_top := stack_top w;
     sigaltstack_works := sigaltstack_works w; altstack := altstack w;
     actions := actions w;
     process_fatal_action := process_fatal_action w;
     old_sigsegv_handler := a;
     sigmask := sigmask w; killed := killed w; frames := frames w;
     thread_backtrace_npointers := thread_backtrace_npointers w;
     noise := noise w |}.

Definition set_sigmask (m : gset Z) (w : world) : world :=
  {| errno := errno w; noninteractive := noninteractive w; self := self w;
     main_thread_id := main_thread_id w;
     gc_in_progress := gc_in_progress w;
     attempt_stack_overflow_recovery := attempt_stack_overflow_recovery w;
     stack_bottom := stack_bottom w; stack_top := stack_top w;
     sigaltstack_works := sigaltstack_works w; altstack := altstack w;
     actions := actions w;
     process_fatal_action := process_fatal_action w;
     old_sigsegv_handler := old_sigsegv_handler w;
     sigmask := m; killed := killed w; frames := frames w;
     thread_backtrace_npointers := thread_backtrace_npointers w;
     noise := noise w |}.

Definition set_killed (l : list Z) (w : world) : world :=
  {| errno := errno w; noninteractive := noninteractive w; self := self w;
     main_thread_id := main_thread_id w;
     gc_in_progress := gc_in_progress w;
     attempt_stack_overflow_recovery := attempt_stack_overflow_recovery w;
     stack_bottom := stack_bottom w; stack_top := stack_top w;
     sigaltstack_works := sigaltstack_works w; altstack := altstack w;
     actions := actions w;
     process_fatal_action := process_fatal_action w;
     old_sigsegv_handler := old_sigsegv_handler w;
     sigmask := sigmask w; killed := l; frames := frames w;
     thread_backtrace_npointers := thread_backtrace_npointers w;
     noise := noise w |}.

Definition set_npointers (n : Z) (w : world) : world :=
  {| errno := errno w; noninteractive := noninteractive w; self := self w;
     main_thread_id := main_thread_id w;
     gc_in_progress := gc_in_progress w;
     attempt_stack_overflow_recovery := attempt_stack_overflow_recovery w;
     stack_bottom := stack_bottom w; stack_top := stack_top w;
     sigaltstack_works := sigaltstack_works w; altstack := altstack w;
     actions := actions w;
     process_fatal_action := process_fatal_action w;
     old_sigsegv_handler := old_sigsegv_handler w;
     sigmask := sigmask w; killed := killed w; frames := frames w;
     thread_backtrace_npointers := n;
     noise := noise w |}.

(** A handler, as a C function of the signal number. *)
Definition signal_handler_t : Type := Z -> world -> outcome world unit.

(** A library call may leave any value in [errno]: the next entry of
    [noise], if there is one. *)
Definition libc (w : world) : world :=
  match noise w with
  | [] => w
  | e :: rest => set_errno e (set_noise rest w)
  end.

Inductive how : Type := SIG_BLOCK | SIG_SETMASK.

Definition pthread_sigmask (h : how) (set : gset Z) (w : world) : world :=
  libc (set_sigmask (match h with
                     | SIG_BLOCK => sigmask w ∪ set
                     | SIG_SETMASK => set
                     end) w).

(** pthread_kill (main_thread_id, sig) *)
Definition pthread_kill_main (sig : Z) (w : world) : world :=
  libc (set_killed (sig :: killed w) w).

(** The action in force for a signal; the default one unless set. *)
Definition disposition (w : world) (sig : Z) : sigaction_t :=
  default default_action (actions w !! sig).

(** sigaction (sig, &act, 0) *)
Definition sigaction (sig : Z) (act : sigaction_t) (w : world) : world :=
  set_actions (<[sig := act]> (actions w)) w.

(** signal (sig, h), with the BSD semantics of the C library *)
Definition signal (sig : Z) (h : sighandler) (w : world) : world :=
  sigaction sig {| sa_handler := h; sa_mask := ∅; sa_flags := SA_RESTART |} w.

Definition pthread_equal (a b : Z) : bool := a =? b.

Definition BACKTRACE_LIMIT_MAX : Z := 500.

(** backtrace (buffer, limit): the number of frames stored. *)
Definition backtrace (limit : Z) (w : world) : Z := Z.min (frames w) limit.

(** [deliver_process_signal]:
<<
    int old_errno = errno;
    bool on_main_thread = true;
    if (! pthread_equal (pthread_self (), main_thread_id))
      {
        sigset_t blocked;
        sigemptyset (&blocked);
        sigaddset (&blocked, sig);
        pthread_sigmask (SIG_BLOCK, &blocked, 0);
        pthread_kill (main_thread_id, sig);
        on_main_thread = false;
      }
    if (on_main_thread)
      handler (sig);
    errno = old_errno;
>> *)
Definition deliver_process_signal (sig : Z) (handler : signal_handler_t)
    (w : world) : outcome world unit :=
  let old_errno := errno w in
  let '(on_main_thread, w1) :=
    if negb (pthread_equal (self w) (main_thread_id w))
    then (false, pthread_kill_main sig (pthread_sigmask SIG_BLOCK {[sig]} w))
    else (true, w) in
  bind (if on_main_thread then handler sig w1 else Ret tt w1)
    (fun _ w2 => Ret tt (set_errno old_errno w2)).

(** [deliver_thread_signal]:
<<
    int old_errno = errno;
    if (! pthread_equal (pthread_self (), main_thread_id))
      {
        thread_backtrace_npointers
          = backtrace (thread_backtrace_buffer, BACKTRACE_LIMIT_MAX);
        sigaction (sig, &process_fatal_action, 0);
        pthread_kill (main_thread_id, sig);
        while (1)
          sigsuspend (&empty_mask);
      }
    handler (sig);
    errno = old_errno;
>> *)
Definition deliver_thread_signal (sig : Z) (handler : signal_handler_t)
    (w : world) : outcome world unit :=
  let old_errno := errno w in
  if negb (pthread_equal (self w) (main_thread_id w)) then
    let w1 := set_npointers (backtrace BACKTRACE_LIMIT_MAX w) w in
    let w2 := sigaction sig (process_fatal_action w1) w1 in
    let w3 := pthread_kill_main sig w2 in
    Esc BySuspension w3
  else
    bind (handler sig w)
      (fun _ w1 => Ret tt (set_errno old_errno w1)).

(** Modelled from the spec: [terminate_due_to_signal] (emacs.c, not part
    of sysdep.c): a fatal signal "terminates the process, first attempting
    to print a best-effort backtrace"; it does not return. *)
Definition terminate_due_to_signal (sig : Z) (w : world)
  : outcome world unit :=
  Esc (ByTermination sig) w.

Definition handle_fatal_signal : signal_handler_t :=
  fun sig w => terminate_due_to_signal sig w.

Definition deliver_fatal_signal (sig : Z) : world -> outcome world unit :=
  deliver_process_signal sig handle_fatal_signal.

Definition deliver_fatal_thread_signal (sig : Z)
  : world -> outcome world unit :=
  deliver_thread_signal sig handle_fatal_signal.

(** [handle_arith_signal]: pthread_sigmask (SIG_SETMASK, &empty_mask, 0);
    xsignal0 (Qarith_error);  -- the latter "transferring control via the
    runtime's structured-error mechanism". *)
Definition handle_arith_signal : signal_handler_t :=
  fun sig w => Esc ByLispSignal (pthread_sigmask SIG_SETMASK ∅ w).

Definition deliver_arith_signal (sig : Z) : world -> outcome world unit :=
  deliver_thread_signal sig handle_arith_signal.

Definition LG_STACK_HEURISTIC : Z := 8.

(** [stack_overflow]; a null [siginfo] is [None], a null address is 0.
<<
    if (!attempt_stack_overflow_recovery)
      return false;
    if (!siginfo)
      return false;
    char *addr = siginfo->si_addr;
    if (!addr)
      return false;
    char const *bot = stack_bottom;
    char const *top = current_thread->stack_top;
    if (bot < top)
      return 0 <= addr - top && addr - top < (top - bot) >> LG_STACK_HEURISTIC;
    else
      return 0 <= top - addr && top - addr < (bot - top) >> LG_STACK_HEURISTIC;
>> *)
Definition stack_overflow (siginfo : option siginfo_t) (w : world) : bool :=
  if negb (attempt_stack_overflow_recovery w) then false
  else
    match siginfo with
    | None => false
    | Some info =>
        let addr := si_addr info in
        if addr =? 0 then false
        else
          let bot := stack_bottom w in
          let top := stack_top w in
          if bot <? top
          then (0 <=? addr - top)
               && (addr - top <? Z.shiftr (top - bot) LG_STACK_HEURISTIC)
          else (0 <=? top - addr)
               && (top - addr <? Z.shiftr (bot - top) LG_STACK_HEURISTIC)
    end.

(** [handle_sigsegv]:
<<
    bool fatal = gc_in_progress;
    if (!fatal && !pthread_equal (pthread_self (), main_thread_id))
      fatal = true;
    if (!fatal && stack_overflow (siginfo))
      siglongjmp (return_to_command_loop, 1);
    deliver_fatal_thread_signal (sig);
>> *)
Definition handle_sigsegv (sig : Z) (siginfo : option siginfo_t) (w : world)
  : outcome world unit :=
  let fatal := gc_in_progress w in
  let fatal :=
    if negb fatal && negb (pthread_equal (self w) (main_thread_id w))
    then true else fatal in
  if negb fatal && stack_overflow siginfo w
  then Esc ByLongjmp w
  else deliver_fatal_thread_signal sig w.

(** The size of [sigsegv_stack]: 64 KiB. *)
Definition sigsegv_stack_size : Z := 64 * 1024.

Definition emacs_sigaction_flags (w : world) : Z :=
  if noninteractive w then SA_RESTART else 0.

(** [init_sigsegv]:
<<
    if (sigaltstack (&ss, NULL) < 0)
      return 0;
    sigfillset (&sa.sa_mask);
    sa.sa_sigaction = handle_sigsegv;
    sa.sa_flags = SA_SIGINFO | SA_ONSTACK | emacs_sigaction_flags ();
    if (sigaction (SIGSEGV, &sa, &old_sigsegv_handler) < 0)
      return 0;
    return 1;
>> *)
Definition init_sigsegv (w : world) : bool * world :=
  if negb (sigaltstack_works w) then (false, w)
  else
    let w1 := set_altstack (Some sigsegv_stack_size) w in
    let sa := {| sa_handler := Handler Handle_sigsegv;
                 sa_mask := full_mask;
                 sa_flags := Z.lor (Z.lor SA_SIGINFO SA_ONSTACK)
                               (emacs_sigaction_flags w1) |} in
    (true,
     sigaction SIGSEGV sa (set_old_sigsegv_handler (disposition w1 SIGSEGV) w1)).

(** [emacs_sigaction_init], with SIGCHLD, SIGWINCH, PROFILER_CPU_SUPPORT
    and USABLE_SIGIO defined. *)
Definition emacs_sigaction_init (handler : code) (w : world) : sigaction_t :=
  {| sa_handler := Handler handler;
     sa_mask := ({[SIGALRM]} ∪ {[SIGCHLD]} ∪ {[SIGPROF]} ∪ {[SIGWINCH]})
                ∪ (if negb (noninteractive w)
                   then {[SIGINT]} ∪ {[SIGQUIT]} ∪ {[SIGIO]} else ∅);
     sa_flags := emacs_sigaction_flags w |}.

(** Modelled from the spec: [add_user_signal] (keyboard.c, not part of
    sysdep.c) registers a "user-defined" signal; it is taken to install
    the user-signal handler with the mask of [emacs_sigaction_init]. *)
Definition add_user_signal (sig : Z) (w : world) : world :=
  sigaction sig (emacs_sigaction_init Deliver_user_signal w) w.

(** [maybe_fatal_sig]:
<<
    bool catch_sig = !noninteractive;
    if (!catch_sig)
      {
        struct sigaction old_action;
        sigaction (sig, 0, &old_action);
        catch_sig = old_action.sa_handler != SIG_IGN;
      }
    if (catch_sig)
      sigaction (sig, &process_fatal_action, 0);
>> *)
Definition maybe_fatal_sig (sig : Z) (w : world) : world :=
  let catch_sig := negb (noninteractive w) in
  let catch_sig :=
    if negb catch_sig
    then
      let old_action := disposition w sig in
      negb (bool_decide (sa_handler old_action = SIG_IGN))
    else catch_sig in
  if catch_sig then sigaction sig (process_fatal_action w) w else w.

(** [init_signals], with the signals that GNU/Linux defines.  The steps
    are in the order of the source; [thread_fatal_action] is its local
    variable. *)
Definition init_signals (w : world) : world :=
  (* main_thread_id = pthread_self (); *)
  let w := set_main_thread_id (self w) w in
  (* sigfillset (&process_fatal_action.sa_mask);
     process_fatal_action.sa_handler = deliver_fatal_signal;
     process_fatal_action.sa_flags = emacs_sigaction_flags (); *)
  let w := set_process_fatal_action
             {| sa_handler := Handler Deliver_fatal_signal;
                sa_mask := full_mask;
                sa_flags := emacs_sigaction_flags w |} w in
  let thread_fatal_action :=
    {| sa_handler := Handler Deliver_fatal_thread_signal;
       sa_mask := full_mask;
       sa_flags := sa_flags (process_fatal_action w) |} in
  let w := maybe_fatal_sig SIGHUP w in
  let w := maybe_fatal_sig SIGINT w in
  let w := maybe_fatal_sig SIGTERM w in
  (* if (! noninteractive) signal (SIGPIPE, SIG_IGN); *)
  let w := if negb (noninteractive w) then signal SIGPIPE SIG_IGN w else w in
  let w := sigaction SIGQUIT (process_fatal_action w) w in
  let w := sigaction SIGILL thread_fatal_action w in
  let w := sigaction SIGTRAP thread_fatal_action w in
  let w := if IEEE_FLOATING_POINT
           then sigaction SIGFPE thread_fatal_action w
           else sigaction SIGFPE
                  (emacs_sigaction_init Deliver_arith_signal w) w in
  let w := add_user_signal SIGUSR1 w in
  let w := add_user_signal SIGUSR2 w in
  let w := sigaction SIGABRT thread_fatal_action w in
  let w := sigaction SIGIOT thread_fatal_action w in
  let w := sigaction SIGBUS thread_fatal_action w in
  (* if (!init_sigsegv ()) sigaction (SIGSEGV, &thread_fatal_action, 0); *)
  let '(ok, w) := init_sigsegv w in
  let w := if negb ok then sigaction SIGSEGV thread_fatal_action w else w in
  let w := sigaction SIGSYS thread_fatal_action w in
  let w := sigaction SIGTERM (process_fatal_action w) w in
  let w := signal SIGPROF SIG_IGN w in
  let w := sigaction SIGVTALRM (process_fatal_action w) w in
  let w := sigaction SIGXCPU (process_fatal_action w) w in
  let w := sigaction SIGXFSZ (process_fatal_action w) w in
  w.

End Signals.

(** ** Terminal modes for a purpose: child_setup_tty, suppress_echo_on_tty,
    tabs_safe_p, cfmakeraw *)

(** The flag bits and control-character slots of <termios.h>, with the
    values GNU/Linux gives them. *)
Module Termbits.
Definition IGNBRK : Z := 1.
Definition BRKINT : Z := 2.
Definition PARMRK : Z := 8.
Definition ISTRIP : Z := 32.
Definition INLCR : Z := 64.
Definition IGNCR : Z := 128.
Definition ICRNL : Z := 256.
Definition IUCLC : Z := 512.
Definition IXON : Z := 1024.

Definition OPOST : Z := 1.
Definition OLCUC : Z := 2.
Definition ONLCR : Z := 4.
Definition NLDLY : Z := 256.
Definition CRDLY : Z := 1536.
Definition TABDLY : Z := 6144.
Definition TAB3 : Z := 6144.
Definition BSDLY : Z := 8192.
Definition VTDLY : Z := 16384.
Definition FFDLY : Z := 32768.

Definition CSIZE : Z := 48.
Definition CS8 : Z := 48.
Definition PARENB : Z := 256.

Definition ISIG : Z := 1.
Definition ICANON : Z := 2.
Definition ECHO : Z := 8.
Definition ECHONL : Z := 64.
Definition IEXTEN : Z := 32768.

Definition VINTR : nat := 0.
Definition VQUIT : nat := 1.
Definition VERASE : nat := 2.
Definition VKILL : nat := 3.
Definition VEOF : nat := 4.

(** CDISABLE (systty.h) is _POSIX_VDISABLE. *)
Definition CDISABLE : Z := 0.
End Termbits.
Import Termbits.

(** flags |= mask and flags &= ~mask.  The flag words are [tcflag_t],
    unsigned; on a value of that range the integer operations below give
    what the C ones give. *)
Definition set_bits (flags mask : Z) : Z := Z.lor flags mask.
Definition clear_bits (flags mask : Z) : Z := Z.land flags (Z.lnot mask).

(** c_cc[i], and c_cc[i] = v.  The slots used are below NCCS; on an array
    that is shorter the model reads 0 and stores nothing. *)
Definition cc_get (cc : list Z) (i : nat) : Z := default 0 (cc !! i).
Definition cc_set (cc : list Z) (i : nat) (v : Z) : list Z := <[i := v]> cc.

(** What [child_setup_tty] does to the settings between [emacs_get_tty] and
    [emacs_set_tty], with NLDLY, FFDLY, IUCLC, ISTRIP, OLCUC and
    SIGNALS_VIA_CHARACTERS defined and neither HPUX nor AIX:
<<
      s.main.c_oflag |= OPOST;
      s.main.c_oflag &= ~ONLCR;
      s.main.c_oflag &= ~(NLDLY|CRDLY|TABDLY|BSDLY|VTDLY|FFDLY);
      s.main.c_lflag &= ~ECHO;
      s.main.c_lflag |= ISIG;
      s.main.c_iflag &= ~IUCLC;
      s.main.c_iflag &= ~ISTRIP;
      s.main.c_oflag &= ~OLCUC;
      s.main.c_oflag &= ~TAB3;
      s.main.c_cflag = (s.main.c_cflag & ~CSIZE) | CS8;
      s.main.c_cc[VERASE] = CDISABLE;
      s.main.c_cc[VKILL] = CDISABLE;
      if (s.main.c_cc[VQUIT] == CDISABLE)
        s.main.c_cc[VQUIT] = '\\'&037;
      if (s.main.c_cc[VINTR] == CDISABLE)
        s.main.c_cc[VINTR] = 'C'&037;
      s.main.c_lflag |= ICANON;
      s.main.c_cc[VEOF] = 'D'&037;
>> *)
Definition child_tty_modes (s : termios) : termios :=
  let oflag := set_bits (c_oflag s) OPOST in
  let oflag := clear_bits oflag ONLCR in
  let oflag :=
    clear_bits oflag
      (Z.lor (Z.lor (Z.lor (Z.lor (Z.lor NLDLY CRDLY) TABDLY) BSDLY) VTDLY)
         FFDLY) in
  let lflag := clear_bits (c_lflag s) ECHO in
  let lflag := set_bits lflag ISIG in
  let iflag := clear_bits (c_iflag s) IUCLC in
  let iflag := clear_bits iflag ISTRIP in
  let oflag := clear_bits oflag OLCUC in
  let oflag := clear_bits oflag TAB3 in
  let cflag := Z.lor (Z.land (c_cflag s) (Z.lnot CSIZE)) CS8 in
  let cc := cc_set (c_cc s) VERASE CDISABLE in
  let cc := cc_set cc VKILL CDISABLE in
  let cc := if cc_get cc VQUIT =? CDISABLE then cc_set cc VQUIT 28 else cc in
  let cc := if cc_get cc VINTR =? CDISABLE then cc_set cc VINTR 3 else cc in
  let lflag := set_bits lflag ICANON in
  let cc := cc_set cc VEOF 4 in
  {| c_iflag := iflag; c_oflag := oflag; c_cflag := cflag; c_lflag := lflag;
     c_line := c_line s; c_cc := cc;
     c_ispeed := c_ispeed s; c_ospeed := c_ospeed s |}.

(** [child_setup_tty]: emacs_get_tty (out, &s); the assignments above;
    emacs_set_tty (out, &s, 0). *)
Definition child_setup_tty (out : Z) (k : tty_script) (w : world)
  : outcome tty_state unit :=
  match emacs_get_tty out k w with
  | Esc e s => Esc e s
  | Ret (_, s) (k1, w1) =>
      match emacs_set_tty out {| main := child_tty_modes (main s) |} false
              k1 w1 with
      | Esc e s' => Esc e s'
      | Ret _ s' => Ret tt s'
      end
  end.

(** What [suppress_echo_on_tty] does to the settings:
<<
      etty.main.c_lflag &= ~ICANON;
      etty.main.c_lflag &= ~ECHO;
>> *)
Definition no_echo_modes (s : termios) : termios :=
  let lflag := clear_bits (c_lflag s) ICANON in
  let lflag := clear_bits lflag ECHO in
  {| c_iflag := c_iflag s; c_oflag := c_oflag s; c_cflag := c_cflag s;
     c_lflag := lflag; c_line := c_line s; c_cc := c_cc s;
     c_ispeed := c_ispeed s; c_ospeed := c_ospeed s |}.

(** [suppress_echo_on_tty]: emacs_get_tty (fd, &etty); the two assignments;
    emacs_set_tty (fd, &etty, 0). *)
Definition suppress_echo_on_tty (fd : Z) (k : tty_script) (w : world)
  : outcome tty_state unit :=
  match emacs_get_tty fd k w with
  | Esc e s => Esc e s
  | Ret (_, etty) (k1, w1) =>
      match emacs_set_tty fd {| main := no_echo_modes (main etty) |} false
              k1 w1 with
      | Esc e s' => Esc e s'
      | Ret _ s' => Ret tt s'
      end
  end.

(** [tabs_safe_p], with TABDLY defined:
<<
      emacs_get_tty (fd, &etty);
      return ((etty.main.c_oflag & TABDLY) != TAB3);
>> *)
Definition tabs_safe_p (fd : Z) (k : tty_script) (w : world)
  : outcome tty_state bool :=
  match emacs_get_tty fd k w with
  | Esc e s => Esc e s
  | Ret (_, etty) s =>
      Ret (negb (Z.land (c_oflag (main etty)) TABDLY =? TAB3)) s
  end.

(** [cfmakeraw], the replacement for hosts that lack it:
<<
      termios_p->c_iflag &= ~(IGNBRK|BRKINT|PARMRK|ISTRIP|INLCR|IGNCR|ICRNL|IXON);
      termios_p->c_oflag &= ~OPOST;
      termios_p->c_lflag &= ~(ECHO|ECHONL|ICANON|ISIG|IEXTEN);
      termios_p->c_cflag &= ~(CSIZE|PARENB);
      termios_p->c_cflag |= CS8;
>> *)
Definition cfmakeraw (t : termios) : termios :=
  let iflag :=
    clear_bits (c_iflag t)
      (Z.lor (Z.lor (Z.lor (Z.lor (Z.lor (Z.lor (Z.lor IGNBRK BRKINT) PARMRK)
                                      ISTRIP) INLCR) IGNCR) ICRNL) IXON) in
  let oflag := clear_bits (c_oflag t) OPOST in
  let lflag :=
    clear_bits (c_lflag t)
      (Z.lor (Z.lor (Z.lor (Z.lor ECHO ECHONL) ICANON) ISIG) IEXTEN) in
  let cflag := clear_bits (c_cflag t) (Z.lor CSIZE PARENB) in
  let cflag := set_bits cflag CS8 in
  {| c_iflag := iflag; c_oflag := oflag; c_cflag := cflag; c_lflag := lflag;
     c_line := c_line t; c_cc := c_cc t;
     c_ispeed := c_ispeed t; c_ospeed := c_ospeed t |}.

(** ** Line speeds: init_baud_rate, convert_speed *)

Definition baud_convert : list Z :=
  [0; 50; 75; 110; 135; 150; 200; 300; 600; 1200;
   1800; 2400; 4800; 9600; 19200; 38400].

(** ARRAYELTS (baud_convert) *)
Definition baud_convert_elts : Z := Z.of_nat (length baud_convert).

(** A value converted to [int] (32 bits, two's complement). *)
Definition int_of (n : Z) : Z := (n + 2 ^ 31) mod 2 ^ 32 - 2 ^ 31.

Definition B9600 : Z := 13.

Section WithCfgetospeed.

(** [cfgetospeed] belongs to the C library: what it reads out of a
    [struct termios] is left open. *)
Variable cfgetospeed : termios -> Z.

(** [init_baud_rate]; the value is what it leaves in [baud_rate].  [sg] is
    what the uninitialized local variable of that name holds on entry.
<<
      if (noninteractive)
        emacs_ospeed = 0;
      else
        {
          struct termios sg;
          sg.c_cflag = B9600;
          tcgetattr (fd, &sg);
          emacs_ospeed = cfgetospeed (&sg);
        }
      baud_rate = (emacs_ospeed < ARRAYELTS (baud_convert)
                   ? baud_convert[emacs_ospeed] : 9600);
      if (baud_rate == 0)
        baud_rate = 1200;
>>
    [emacs_ospeed] is an [int] and ARRAYELTS a [size_t]: the comparison is
    made after converting the former to the latter. *)
Definition init_baud_rate (fd : Z) (sg : termios) (k : tty_script) (w : world)
  : outcome tty_state Z :=
  bind
    (if noninteractive w then Ret 0 (k, w)
     else
       match get_answers k with
       | [] => Esc Blocked (k, w)
       | a :: rest =>
           let sg :=
             {| c_iflag := c_iflag sg; c_oflag := c_oflag sg;
                c_cflag := B9600; c_lflag := c_lflag sg;
                c_line := c_line sg; c_cc := c_cc sg;
                c_ispeed := c_ispeed sg; c_ospeed := c_ospeed sg |} in
           let '(_, sg, w1) := sys_tcgetattr fd sg a w in
           Ret (int_of (cfgetospeed sg))
             ({| set_answers := set_answers k; get_answers := rest |}, w1)
       end)
    (fun emacs_ospeed s =>
       let baud_rate :=
         if size_t_of emacs_ospeed <? baud_convert_elts
         then default 0 (baud_convert !! Z.to_nat emacs_ospeed)
         else 9600 in
       let baud_rate := if baud_rate =? 0 then 1200 else baud_rate in
       Ret baud_rate s).

End WithCfgetospeed.

(** struct speed_struct *)
Record speed_struct : Type := Speed {
  value : Z;
  internal : Z
}.

(** The table [speeds], with the Bnnn constants GNU/Linux defines (B76800,
    B153600 and B307200 are not among them) and their values there; the
    entry for 1200 is there twice, as in the source. *)
Definition speeds : list speed_struct :=
  [ Speed 0 0; Speed 50 1; Speed 75 2; Speed 110 3; Speed 134 4;
    Speed 150 5; Speed 200 6; Speed 300 7; Speed 600 8; Speed 1200 9;
    Speed 1200 9; Speed 1800 10; Speed 2400 11; Speed 4800 12;
    Speed 9600 13; Speed 19200 14; Speed 38400 15; Speed 57600 4097;
    Speed 115200 4098; Speed 230400 4099; Speed 460800 4100;
    Speed 500000 4101; Speed 576000 4102; Speed 921600 4103;
    Speed 1000000 4104; Speed 1152000 4105; Speed 1500000 4106;
    Speed 2000000 4107; Speed 2500000 4108; Speed 3000000 4109;
    Speed 3500000 4110; Speed 4000000 4111 ].

(** The loop of [convert_speed] over the rest of the table:
<<
      for (size_t i = 0; i < ARRAYELTS (speeds); i++)
        {
          if (speed == speeds[i].internal)
            return speed;
          else if (speed == speeds[i].value)
            return speeds[i].internal;
        }
      return speed;
>> *)
Fixpoint convert_speed_from (table : list speed_struct) (speed : Z) : Z :=
  match table with
  | [] => speed
  | entry :: table' =>
      if speed =? internal entry then speed
      else if speed =? value entry then internal entry
      else convert_speed_from table' speed
  end.

(** A value converted to [speed_t], which is [unsigned int]. *)
Definition speed_t_of (n : Z) : Z := n mod 2 ^ 32.

(** [convert_speed]: its parameter is a [speed_t], so what the caller has
    (in [serial_configure] a fixnum, XFIXNUM (tem)) arrives converted to
    that type. *)
Definition convert_speed (speed : Z) : Z :=
  convert_speed_from speeds (speed_t_of speed).

(** MAJOR and MINOR, the macros [procfs_ttyname] takes a device number
    apart with; (unsigned) (d) is [d] modulo 2^32.
<<
    #define MAJOR(d) (((unsigned)(d) >> 8) & 0xfff)
    #define MINOR(d) (((unsigned)(d) & 0xff) | (((unsigned)(d) & 0xfff00000) >> 12))
>> *)
Definition unsigned_of (d : Z) : Z := d mod 2 ^ 32.

Definition MAJOR (d : Z) : Z := Z.land (Z.shiftr (unsigned_of d) 8) 4095.

Definition MINOR (d : Z) : Z :=
  Z.lor (Z.land (unsigned_of d) 255)
    (Z.shiftr (Z.land (unsigned_of d) 4293918720) 12).

(** ** Random numbers: seed_random, get_random, get_random_ulong *)

(** sizeof (random_seed), an [unsigned int] *)
Definition sizeof_random_seed : nat := 4.

(** The loop of [seed_random] from index [i] on; [arg] is the object
    representation of the seed being built, a byte per element.
<<
      for (ptrdiff_t i = 0; i < seed_size; i++)
        argp[i % sizeof arg] ^= seedp[i];
>> *)
Fixpoint seed_random_loop (i : nat) (seedp : list Z) (arg : list Z) : list Z :=
  match seedp with
  | [] => arg
  | byte :: seedp' =>
      let j := (i mod sizeof_random_seed)%nat in
      seed_random_loop (S i) seedp'
        (<[j := Z.lxor (default 0 (arg !! j)) byte]> arg)
  end.

(** [seed_random]: the bytes of the [arg] that [set_random_seed] is called
    with, for a seed of [seed_size = length seed] bytes. *)
Definition seed_random (seed : list Z) : list Z :=
  seed_random_loop 0 seed (replicate sizeof_random_seed 0).

(** With [random] at hand RAND_BITS is 31; lisp.h has, for a 64-bit
    EMACS_INT with three tag bits, FIXNUM_BITS 62 and INTMASK 2^62 - 1. *)
Definition RAND_BITS : Z := 31.
Definition EMACS_INT_WIDTH : Z := 64.
Definition FIXNUM_BITS : Z := 62.
Definition INTMASK : Z := 2 ^ 62 - 1.
Definition ULONG_WIDTH : Z := 64.

(** x << n in a 64-bit unsigned type *)
Definition shl64 (x n : Z) : Z := Z.shiftl x n mod 2 ^ 64.

(** The loop of [get_random], [n] iterations from its end; [draws] are the
    values the coming calls of [random] return, the first one first.
<<
      for (i = 0; i < (FIXNUM_BITS + RAND_BITS - 1) / RAND_BITS; i++)
        val = (random () ^ (val << RAND_BITS)
               ^ (val >> (EMACS_INT_WIDTH - RAND_BITS)));
>> *)
Fixpoint get_random_loop (n : nat) (draws : nat -> Z) (val : Z) : Z :=
  match n with
  | O => val
  | S n' =>
      get_random_loop n' (fun i => draws (S i))
        (Z.lxor (Z.lxor (draws O) (shl64 val RAND_BITS))
           (Z.shiftr val (EMACS_INT_WIDTH - RAND_BITS)))
  end.

(** [get_random]:
<<
      val ^= val >> (EMACS_INT_WIDTH - FIXNUM_BITS);
      return val & INTMASK;
>> *)
Definition get_random (draws : nat -> Z) : Z :=
  let val :=
    get_random_loop (Z.to_nat ((FIXNUM_BITS + RAND_BITS - 1) / RAND_BITS))
      draws 0 in
  let val := Z.lxor val (Z.shiftr val (EMACS_INT_WIDTH - FIXNUM_BITS)) in
  Z.land val INTMASK.

(** [get_random_ulong]:
<<
      unsigned long int r = 0;
      for (int i = 0; i < (ULONG_WIDTH + RAND_BITS - 1) / RAND_BITS; i++)
        r = random () ^ (r << RAND_BITS) ^ (r >> (ULONG_WIDTH - RAND_BITS));
      return r;
>> *)
Fixpoint get_random_ulong_loop (n : nat) (draws : nat -> Z) (r : Z) : Z :=
  match n with
  | O => r
  | S n' =>
      get_random_ulong_loop n' (fun i => draws (S i))
        (Z.lxor (Z.lxor (draws O) (shl64 r RAND_BITS))
           (Z.shiftr r (ULONG_WIDTH - RAND_BITS)))
  end.

Definition get_random_ulong (draws : nat -> Z) : Z :=
  get_random_ulong_loop (Z.to_nat ((ULONG_WIDTH + RAND_BITS - 1) / RAND_BITS))
    draws 0.

(** ** Opening a stream: emacs_fopen *)

Definition O_RDONLY : Z := 0.
Definition O_WRONLY : Z := 1.
Definition O_RDWR : Z := 2.
Definition O_CREAT : Z := 64.
Definition O_TRUNC : Z := 512.
Definition O_APPEND : Z := 1024.

(** The first switch of [emacs_fopen], on the first character of the mode:
    [omode] and [oflags], or nothing where the code calls [emacs_abort].
<<
      switch ( *m++)
        {
        case 'r': omode = O_RDONLY; oflags = 0; break;
        case 'w': omode = O_WRONLY; oflags = O_CREAT | O_TRUNC; break;
        case 'a': omode = O_WRONLY; oflags = O_CREAT | O_APPEND; break;
        default: emacs_abort ();
        }
>> *)
Definition fopen_mode_first (c : ascii) : option (Z * Z) :=
  if Ascii.eqb c "r" then Some (O_RDONLY, 0)
  else if Ascii.eqb c "w" then Some (O_WRONLY, Z.lor O_CREAT O_TRUNC)
  else if Ascii.eqb c "a" then Some (O_WRONLY, Z.lor O_CREAT O_APPEND)
  else None.

(** Its loop over the rest of the mode, a C string: it ends at the first
    null character.
<<
      while ( *m)
        switch ( *m++)
          {
          case '+': omode = O_RDWR; break;
          case 't': bflag = O_TEXT; break;
          default: /* Ignore.  */ break;
          }
>> *)
Fixpoint fopen_mode_rest (m : string) (omode bflag : Z) : Z * Z :=
  match m with
  | EmptyString => (omode, bflag)
  | String c m' =>
      if Ascii.eqb c zero then (omode, bflag)
      else if Ascii.eqb c "+" then fopen_mode_rest m' O_RDWR bflag
      else if Ascii.eqb c "t" then fopen_mode_rest m' omode O_TEXT
      else fopen_mode_rest m' omode bflag
  end.

(** What [fdopen] answers: a stream, or a null pointer and an error. *)
Inductive stream_answer : Type :=
| Stream (fp : positive)
| NoStream (e : Z).

(** [emacs_fdopen]: return fdopen (fd, mode); *)
Definition emacs_fdopen (fd : Z) (mode : string) (a : stream_answer)
    (w : world) : Z * world :=
  match a with
  | Stream fp => (Z.pos fp, w)
  | NoStream e => (0, set_errno e w)
  end.

(** [emacs_abort]: terminate_due_to_signal (SIGABRT, 40); *)
Definition emacs_abort {A : Type} (s : state) : outcome state A :=
  Esc (ByTermination Signals.SIGABRT) s.

(** [emacs_fopen]; [a] is what [fdopen] will answer if it is called.
<<
      fd = emacs_open (file, omode | oflags | bflag, 0666);
      return fd < 0 ? 0 : emacs_fdopen (fd, mode);
>> *)
Definition emacs_fopen (file : Z) (mode : string) (a : stream_answer)
    (k : script) (w : world) : outcome state Z :=
  let first := match mode with EmptyString => zero | String c _ => c end in
  let m := match mode with EmptyString => EmptyString | String _ m => m end in
  match fopen_mode_first first with
  | None => emacs_abort (k, w)
  | Some (omode, oflags) =>
      let '(omode, bflag) := fopen_mode_rest m omode 0 in
      bind (emacs_open file (Z.lor (Z.lor omode oflags) bflag) 438 k w)
        (fun fd s =>
           if fd <? 0 then Ret 0 s
           else
             let '(fp, w') := emacs_fdopen fd mode a (snd s) in
             Ret fp (fst s, w'))
  end.

(** ** Brackets around critical sections: signal masks and saved handlers *)

Module SignalMask.
Import Signals.

(** pthread_sigmask (how, &set, oldset): what is stored through [oldset],
    and the state after. *)
Definition pthread_sigmask_old (h : how) (set : gset Z) (w : world)
  : gset Z * world :=
  (sigmask w, pthread_sigmask h set w).

(** [block_child_signal]:
<<
      sigemptyset (&blocked);
      sigaddset (&blocked, SIGCHLD);
      sigaddset (&blocked, SIGINT);
      pthread_sigmask (SIG_BLOCK, &blocked, oldset);
>> *)
Definition block_child_signal (w : world) : gset Z * world :=
  let blocked : gset Z := ∅ in
  let blocked := blocked ∪ {[SIGCHLD]} in
  let blocked := blocked ∪ {[SIGINT]} in
  pthread_sigmask_old SIG_BLOCK blocked w.

(** [unblock_child_signal]: pthread_sigmask (SIG_SETMASK, oldset, 0); *)
Definition unblock_child_signal (oldset : gset Z) (w : world) : world :=
  pthread_sigmask SIG_SETMASK oldset w.

(** [block_interrupt_signal]:
<<
      sigemptyset (&blocked);
      sigaddset (&blocked, SIGINT);
      pthread_sigmask (SIG_BLOCK, &blocked, oldset);
>> *)
Definition block_interrupt_signal (w : world) : gset Z * world :=
  let blocked : gset Z := ∅ in
  let blocked := blocked ∪ {[SIGINT]} in
  pthread_sigmask_old SIG_BLOCK blocked w.

(** [restore_signal_mask]: pthread_sigmask (SIG_SETMASK, oldset, 0); *)
Definition restore_signal_mask (oldset : gset Z) (w : world) : world :=
  pthread_sigmask SIG_SETMASK oldset w.

End SignalMask.

Module SavedHandlers.
Import Signals.

(** struct save_signal *)
Record save_signal : Type := SaveSignal {
  code : Z;
  action : sigaction_t
}.

(** [emacs_sigaction_init] for any handler, SIG_IGN among them (as above,
    with SIGCHLD, SIGWINCH, PROFILER_CPU_SUPPORT and USABLE_SIGIO
    defined). *)
Definition emacs_sigaction_init (handler : sighandler) (w : world)
  : sigaction_t :=
  {| sa_handler := handler;
     sa_mask := ({[SIGALRM]} ∪ {[SIGCHLD]} ∪ {[SIGPROF]} ∪ {[SIGWINCH]})
                ∪ (if negb (noninteractive w)
                   then {[SIGINT]} ∪ {[SIGQUIT]} ∪ {[SIGIO]} else ∅);
     sa_flags := emacs_sigaction_flags w |}.

(** sigaction (sig, &act, &old): what is stored into [old], and the state
    after. *)
Definition sigaction_old (sig : Z) (act : sigaction_t) (w : world)
  : sigaction_t * world :=
  (disposition w sig, sigaction sig act w).

(** [save_signal_handlers], on an array that ends with an entry of code 0:
    the array as it is afterwards, and the state.
<<
      while (saved_handlers->code)
        {
          struct sigaction action;
          emacs_sigaction_init (&action, SIG_IGN);
          sigaction (saved_handlers->code, &action, &saved_handlers->action);
          saved_handlers++;
        }
>> *)
Fixpoint save_signal_handlers (saved_handlers : list save_signal) (w : world)
  : list save_signal * world :=
  match saved_handlers with
  | [] => ([], w)
  | s :: rest =>
      if code s =? 0 then (saved_handlers, w)
      else
        let action := emacs_sigaction_init SIG_IGN w in
        let '(old, w1) := sigaction_old (code s) action w in
        let '(rest', w2) := save_signal_handlers rest w1 in
        ({| code := code s; action := old |} :: rest', w2)
  end.

(** [restore_signal_handlers]:
<<
      while (saved_handlers->code)
        {
          sigaction (saved_handlers->code, &saved_handlers->action, 0);
          saved_handlers++;
        }
>> *)
Fixpoint restore_signal_handlers (saved_handlers : list save_signal)
    (w : world) : world :=
  match saved_handlers with
  | [] => w
  | s :: rest =>
      if code s =? 0 then w
      else restore_signal_handlers rest (sigaction (code s) (action s) w)
  end.

End SavedHandlers.

(** ** Diagnostics and the standard descriptors: emacs_perror, force_open,
    init_standard_fds *)

(** A C string as the code uses it: where it is, and what [strlen] says. *)
Record c_string : Type := CString {
  address : Z;
  strlen : Z
}.

Definition STDIN_FILENO : Z := 0.
Definition STDOUT_FILENO : Z := 1.
Definition STDERR_FILENO : Z := 2.
Definition EXIT_FAILURE : Z := 1.
Definition PIPE_BUF : Z := 4096.
Definition INT_MAX : Z := 2 ^ 31 - 1.
Definition EOVERFLOW : Z := 75.

(** How a function that may call [exit] ends. *)
Inductive ending (A : Type) : Type :=
| Continues (a : A)
| Exits (status : Z).
Arguments Continues {A} a.
Arguments Exits {A} status.

(** The lowest descriptor that is not in use, counting up from [n]; there
    is one among the first [size fds + 1]. *)
Fixpoint lowest_from (fuel : nat) (n : Z) (fds : gset Z) : Z :=
  match fuel with
  | O => n
  | S fuel' =>
      if bool_decide (n ∈ fds) then lowest_from fuel' (n + 1) fds else n
  end.

Definition lowest_unused (fds : gset Z) : Z := lowest_from (size fds) 0 fds.

(** open (file, flags), which fails with [e] if the kernel says so and
    else returns the lowest descriptor not in use, valid from then on.  It
    is logged as the [openat] relative to the working directory that it
    is, with no mode. *)
Definition sys_open (file flags : Z) (fails : option Z) (w : world)
  : Z * world :=
  match fails with
  | Some e => returned (SysOpenat AT_FDCWD file flags 0) (Error e) w
  | None =>
      let n := lowest_unused (open_fds w) in
      returned (SysOpenat AT_FDCWD file flags 0) (Ok n)
        (set_open_fds (open_fds w ∪ {[n]}) w)
  end.

(** dup2 (oldfd, newfd): EBADF unless [oldfd] is valid and [newfd] is not
    negative; nothing to do if they are the same; else it fails with [e]
    if the kernel says so, and otherwise [newfd] is valid from then on.
    The log has no entry for it. *)
Definition sys_dup2 (oldfd newfd : Z) (fails : option Z) (w : world)
  : Z * world :=
  if bool_decide (oldfd ∈ open_fds w) && (0 <=? newfd) then
    if oldfd =? newfd then (newfd, w)
    else
      match fails with
      | Some e => (-1, set_errno e w)
      | None => (newfd, set_open_fds (open_fds w ∪ {[newfd]}) w)
      end
  else (-1, set_errno EBADF w).

(** What the kernel has ready for the calls of one [force_open]: whether
    [open] and [dup2 (n, fd)] fail, and the answers to the [close]s of
    [emacs_close] and to the [write]s of [emacs_perror]. *)
Record force_answers : Type := ForceAnswers {
  open_fails : option Z;
  dup2_fails : option Z;
  closes : close_script;
  writes : script
}.

(** The static [buferr] and the buffering it was given. *)
Record err_stream : Type := ErrStream {
  buferr : Z;
  line_buffered : bool
}.

Section WithDiagnostics.

Variable MAX_RW_COUNT : Z.

(** [MAX_ALLOCA] comes from lisp.h and [emacs_strerror] from the C library
    by way of Gnulib, [initial_argv0] is set in emacs.c: none of them is
    part of the sources at hand. *)
Variable MAX_ALLOCA : Z.
Variable emacs_strerror : Z -> c_string.
Variable initial_argv0 : option c_string.

(** Where the string literals of [emacs_perror] are. *)
Variable literal : string -> Z.

(** snprintf (buf, size, "%s: %s: %s\n", command, message, error_string):
    the length of the whole text, whether or not it fits; -1 with EOVERFLOW
    if that is more than INT_MAX. *)
Definition snprintf_diagnostic (command message error_string : c_string)
    (w : world) : Z * world :=
  let n := strlen command + 2 + strlen message + 2 + strlen error_string + 1 in
  if n <=? INT_MAX then (n, w) else (-1, set_errno EOVERFLOW w).

(** [emacs_perror]; [buf] is where its local array is.
<<
      int err = errno;
      char const *error_string = emacs_strerror (err);
      char const *command = (initial_argv0 ? initial_argv0 : "emacs");
      char buf[min (PIPE_BUF, MAX_ALLOCA)];
      int nbytes = snprintf (buf, sizeof buf, "%s: %s: %s\n",
                             command, message, error_string);
      if (0 <= nbytes && nbytes < sizeof buf)
        emacs_write (STDERR_FILENO, buf, nbytes);
      else
        {
          emacs_write (STDERR_FILENO, command, strlen (command));
          emacs_write (STDERR_FILENO, ": ", 2);
          emacs_write (STDERR_FILENO, message, strlen (message));
          emacs_write (STDERR_FILENO, ": ", 2);
          emacs_write (STDERR_FILENO, error_string, strlen (error_string));
          emacs_write (STDERR_FILENO, "\n", 1);
        }
      errno = err;
>> *)
Definition emacs_perror (buf : Z) (message : c_string) (k : script) (w : world)
  : outcome state unit :=
  let err := errno w in
  let error_string := emacs_strerror err in
  let command :=
    match initial_argv0 with
    | Some argv0 => argv0
    | None => {| address := literal "emacs"; strlen := 5 |}
    end in
  let sizeof_buf := Z.min PIPE_BUF MAX_ALLOCA in
  let '(nbytes, w) := snprintf_diagnostic command message error_string w in
  let write (s : c_string) (st : state) :=
    emacs_write MAX_RW_COUNT STDERR_FILENO (address s) (strlen s)
      (fst st) (snd st) in
  bind
    (if (0 <=? nbytes) && (nbytes <? sizeof_buf)
     then emacs_write MAX_RW_COUNT STDERR_FILENO buf nbytes k w
     else
       bind (write command (k, w)) (fun _ st =>
       bind (write {| address := literal ": "; strlen := 2 |} st) (fun _ st =>
       bind (write message st) (fun _ st =>
       bind (write {| address := literal ": "; strlen := 2 |} st) (fun _ st =>
       bind (write error_string st) (fun _ st =>
       write {| address := literal (String "010" EmptyString);
                strlen := 1 |} st))))))
    (fun _ st => Ret tt (fst st, set_errno err (snd st))).

(** NULL_DEVICE, "/dev/null" *)
Definition NULL_DEVICE : c_string :=
  {| address := literal "/dev/null"; strlen := 9 |}.

(** [force_open]; [buf] is where the local array of [emacs_perror] is.
    What [exit] goes on to do is not followed: the function ends in
    [Exits].
<<
      if (dup2 (fd, fd) < 0 && errno == EBADF)
        {
          int n = open (NULL_DEVICE, flags);
          if (n < 0 || (fd != n && (dup2 (n, fd) < 0 || emacs_close (n) != 0)))
            {
              emacs_perror (NULL_DEVICE);
              exit (EXIT_FAILURE);
            }
        }
>> *)
Definition force_open (buf fd flags : Z) (a : force_answers) (w : world)
  : outcome world (ending unit) :=
  let '(r, w) := sys_dup2 fd fd None w in
  if (r <? 0) && (errno w =? EBADF) then
    let '(n, w) := sys_open (address NULL_DEVICE) flags (open_fails a) w in
    bind
      (if n <? 0 then Ret true w
       else if negb (fd =? n) then
         let '(r, w) := sys_dup2 n fd (dup2_fails a) w in
         if r <? 0 then Ret true w
         else
           match emacs_close n (closes a) w with
           | Ret r (_, w) => Ret (negb (r =? 0)) w
           | Esc e (_, w) => Esc e w
           end
       else Ret false w)
      (fun failed w =>
         if failed : bool then
           match emacs_perror buf NULL_DEVICE (writes a) w with
           | Ret _ (_, w) => Ret (Exits EXIT_FAILURE) w
           | Esc e (_, w) => Esc e w
           end
         else Ret (Continues tt) w)
  else Ret (Continues tt) w.

(** What follows a call that may have called [exit]. *)
Definition and_then {A B : Type} (o : outcome world (ending A))
    (f : A -> world -> outcome world (ending B)) : outcome world (ending B) :=
  bind o (fun e w =>
            match e with
            | Continues a => f a w
            | Exits status => Ret (Exits status) w
            end).

(** [init_standard_fds], with _PC_PIPE_BUF defined; [fdopen_as] is what
    [fdopen] will answer.
<<
      force_open (STDIN_FILENO, O_WRONLY);
      force_open (STDOUT_FILENO, O_RDONLY);
      force_open (STDERR_FILENO, O_RDONLY);
      buferr = emacs_fdopen (STDERR_FILENO, "w");
      if (buferr)
        setvbuf (buferr, NULL, _IOLBF, 0);
>> *)
Definition init_standard_fds (buf : Z) (a0 a1 a2 : force_answers)
    (fdopen_as : stream_answer) (w : world) : outcome world (ending err_stream) :=
  and_then (force_open buf STDIN_FILENO O_WRONLY a0 w) (fun _ w =>
  and_then (force_open buf STDOUT_FILENO O_RDONLY a1 w) (fun _ w =>
  and_then (force_open buf STDERR_FILENO O_RDONLY a2 w) (fun _ w =>
    let '(fp, w) := emacs_fdopen STDERR_FILENO "w" fdopen_as w in
    Ret (Continues {| buferr := fp; line_buffered := negb (fp =? 0) |}) w))).

End WithDiagnostics.

(** * Properties *)

(** ** The vocabulary of the statements, and sample states

    The predicates in which the properties below are stated, each next to
    the words of the specification it renders, and the concrete states and
    scripts on which the functions are run. *)

(** *** The foreground process group *)

(** A process that is its own group leader, with terminal 0 in front. *)
Definition leader_world : ForegroundGroup.world :=
  {| ForegroundGroup.errno := 0;
     ForegroundGroup.pid := 4242;
     ForegroundGroup.pgrp := 4242;
     ForegroundGroup.session_leader := false;
     ForegroundGroup.peer_groups := {[ 4000 ]};
     ForegroundGroup.inherited_pgroup := 0;
     ForegroundGroup.foreground := {[ 0 := 4242 ]};
     ForegroundGroup.sigmask := ∅;
     ForegroundGroup.interrupt_input_blocked := 0;
     ForegroundGroup.calls := [] |}.

(** A process started inside the group 4000 of its caller. *)
Definition member_world : ForegroundGroup.world :=
  {| ForegroundGroup.errno := 0;
     ForegroundGroup.pid := 4242;
     ForegroundGroup.pgrp := 4000;
     ForegroundGroup.session_leader := false;
     ForegroundGroup.peer_groups := {[ 4000 ]};
     ForegroundGroup.inherited_pgroup := 4000;
     ForegroundGroup.foreground := {[ 0 := 4000 ]};
     ForegroundGroup.sigmask := ∅;
     ForegroundGroup.interrupt_input_blocked := 0;
     ForegroundGroup.calls := [] |}.

(** *** Signals *)

(** The heuristic in the words of the specification: the fault address lies
    past the known top of the stack, by strictly less than the 256th part
    of the stack's known extent; mirrored when the stack grows downwards. *)
Definition within_margin (bot top addr : Z) : Prop :=
  (bot < top /\ 0 <= addr - top /\ addr - top < Z.shiftr (top - bot) 8)
  \/ (top <= bot /\ 0 <= top - addr /\ top - addr < Z.shiftr (bot - top) 8).

(** The conditions under which a segmentation fault is to be recovered
    from, in the words of the specification. *)
Definition recoverable (siginfo : option Signals.siginfo_t) (w : Signals.world)
  : Prop :=
  Signals.gc_in_progress w = false
  /\ Signals.self w = Signals.main_thread_id w
  /\ Signals.attempt_stack_overflow_recovery w = true
  /\ exists info,
       siginfo = Some info
       /\ Signals.si_addr info <> 0
       /\ within_margin (Signals.stack_bottom w) (Signals.stack_top w)
            (Signals.si_addr info).

(** A main thread whose stack of 1 MiB grows downwards from 2^31 - 65536:
    the margin is 4096 bytes below the top. *)
Definition overflow_world : Signals.world :=
  {| Signals.errno := 0;
     Signals.noninteractive := false;
     Signals.self := 1;
     Signals.main_thread_id := 1;
     Signals.gc_in_progress := false;
     Signals.attempt_stack_overflow_recovery := true;
     Signals.stack_bottom := 2147418112;
     Signals.stack_top := 2146369536;
     Signals.sigaltstack_works := true;
     Signals.altstack := Some Signals.sigsegv_stack_size;
     Signals.actions := ∅;
     Signals.process_fatal_action := Signals.default_action;
     Signals.old_sigsegv_handler := Signals.default_action;
     Signals.sigmask := ∅;
     Signals.killed := [];
     Signals.frames := 12;
     Signals.thread_backtrace_npointers := 0;
     Signals.noise := [] |}.

(** A handler that returns, after leaving 99 in [errno]. *)
Definition clobbering_handler : Signals.signal_handler_t :=
  fun _ w => Ret tt (Signals.set_errno 99 w).

(** A subsidiary thread, in a process whose library calls leave 11 and then
    22 in [errno]. *)
Definition subsidiary_world : Signals.world :=
  {| Signals.errno := 7;
     Signals.noninteractive := false;
     Signals.self := 2;
     Signals.main_thread_id := 1;
     Signals.gc_in_progress := false;
     Signals.attempt_stack_overflow_recovery := true;
     Signals.stack_bottom := 2147418112;
     Signals.stack_top := 2146369536;
     Signals.sigaltstack_works := true;
     Signals.altstack := Some Signals.sigsegv_stack_size;
     Signals.actions := ∅;
     Signals.process_fatal_action :=
       {| Signals.sa_handler := Signals.Handler Signals.Deliver_fatal_signal;
          Signals.sa_mask := Signals.full_mask;
          Signals.sa_flags := 0 |};
     Signals.old_sigsegv_handler := Signals.default_action;
     Signals.sigmask := ∅;
     Signals.killed := [];
     Signals.frames := 12;
     Signals.thread_backtrace_npointers := 0;
     Signals.noise := [11; 22] |}.

(** A batch Emacs started under [nohup] by a caller that also ignores
    SIGTERM; SIGPIPE is at its default. *)
Definition batch_world : Signals.world :=
  {| Signals.errno := 0;
     Signals.noninteractive := true;
     Signals.self := 1;
     Signals.main_thread_id := 0;
     Signals.gc_in_progress := false;
     Signals.attempt_stack_overflow_recovery := true;
     Signals.stack_bottom := 2147418112;
     Signals.stack_top := 2146369536;
     Signals.sigaltstack_works := true;
     Signals.altstack := None;
     Signals.actions :=
       {[ Signals.SIGHUP :=
            {| Signals.sa_handler := Signals.SIG_IGN;
               Signals.sa_mask := ∅; Signals.sa_flags := 0 |};
          Signals.SIGTERM :=
            {| Signals.sa_handler := Signals.SIG_IGN;
               Signals.sa_mask := ∅; Signals.sa_flags := 0 |} ]};
     Signals.process_fatal_action := Signals.default_action;
     Signals.old_sigsegv_handler := Signals.default_action;
     Signals.sigmask := ∅;
     Signals.killed := [];
     Signals.frames := 12;
     Signals.thread_backtrace_npointers := 0;
     Signals.noise := [] |}.

(** The action that [init_signals] stores in [process_fatal_action]. *)
Definition fatal_action (w : Signals.world) : Signals.sigaction_t :=
  {| Signals.sa_handler := Signals.Handler Signals.Deliver_fatal_signal;
     Signals.sa_mask := Signals.full_mask;
     Signals.sa_flags := Signals.emacs_sigaction_flags w |}.

(** The first two assignments of [init_signals]. *)
Definition with_fatal_action (w : Signals.world) : Signals.world :=
  Signals.set_process_fatal_action
    {| Signals.sa_handler := Signals.Handler Signals.Deliver_fatal_signal;
       Signals.sa_mask := Signals.full_mask;
       Signals.sa_flags :=
         Signals.emacs_sigaction_flags
           (Signals.set_main_thread_id (Signals.self w) w) |}
    (Signals.set_main_thread_id (Signals.self w) w).

(** *** Retry-wrapped I/O *)

(** Whether an answer makes a retry loop go round again. *)
Definition is_eintr (a : answer) : bool :=
  match a with
  | Fail e => e =? EINTR
  | Done _ => false
  end.

(** Scripts of interruptions. *)
Definition all_eintr (k : script) : Prop :=
  Forall (fun ev => ans ev = Fail EINTR) k.

(** Whether one of the interruptions of [ints] finds a quit to honour. *)
Definition quit_honoured (w : world) (ints : script) : bool :=
  match ints with
  | [] => false
  | _ :: _ => quit_requested w || existsb quit_arrives ints
  end.


(** The entry that a read, answered by [ev], leaves in the log. *)
Definition read_entry (fd buf nbyte : Z) (ev : event) : syscall :=
  SysRead fd buf (size_t_of nbyte) (transfer (ans ev) (size_t_of nbyte)).

(** A write that returned -1 with [errno] other than EINTR. *)
Definition failed_write (fd : Z) (w : world) : Prop :=
  exists e buf count tl,
    e <> EINTR /\ errno w = e
    /\ strace w = SysWrite fd buf count (Error e) :: tl.





(** An open that returned -1 with [errno] other than EINTR. *)
Definition failed_open (w : world) : Prop :=
  exists e dirfd file oflags mode tl,
    e <> EINTR /\ errno w = e
    /\ strace w = SysOpenat dirfd file oflags mode (Error e) :: tl.

(** A read that returned -1 with [errno] other than EINTR. *)
Definition failed_read (fd : Z) (w : world) : Prop :=
  exists e buf count tl,
    e <> EINTR /\ errno w = e
    /\ strace w = SysRead fd buf count (Error e) :: tl.

(** A process at rest: nothing pending, no checking, nothing logged. *)
Definition idle : world :=
  {| errno := 0; quit_requested := false; pending_signals := false;
     checking := false; noninteractive := false; open_fds := ∅;
     input_available_clear_time := None; tty_list := []; strace := [] |}.

(** The value of [MAX_RW_COUNT] in lisp.h: INT_MAX >> 18 << 18. *)
Definition max_rw_count : Z := Z.shiftl (Z.shiftr (2 ^ 31 - 1) 18) 18.

(** The property of retry transparency as the specification words it: a
    primitive that is interrupted some number of times and then succeeds
    is, for the caller, one that succeeds at once. *)
Definition retry_transparent (wrapper : script -> world -> outcome state Z)
  : Prop :=
  forall (ints : script) (success : event) (rest : script) (w : world),
    all_eintr ints ->
    is_eintr (ans success) = false ->
    observe (wrapper (ints ++ success :: rest) w)
    = observe (wrapper (success :: rest) w).



(** *** Closing a descriptor *)

(** The promise as the comment of [emacs_close] and the specification word
    it: whenever [emacs_close] returns, the descriptor is no longer valid. *)
Definition closed_on_return : Prop :=
  forall (fd : Z) (k : close_script) (w : world) (r : Z)
         (s : close_script * world),
    emacs_close fd k w = Ret r s -> fd ∉ open_fds (snd s).

(** Descriptor 5 is open. *)
Definition one_open : world :=
  {| errno := 0; quit_requested := false; pending_signals := false;
     checking := false; noninteractive := false; open_fds := {[ 5 ]};
     input_available_clear_time := None; tty_list := []; strace := [] |}.

(** What a [close] of [fd], answered by [a], returns in state [w]. *)
Definition close_result (fd : Z) (a : close_answer) (w : world) : result :=
  if bool_decide (fd ∈ open_fds w) then
    match a with Closed => Ok 0 | CloseFailed e _ => Error e end
  else Error EBADF.

(** *** Waiting for a child *)

(** What [waitpid] on [child] returns on an answer. *)
Definition wait_result (child : Z) (ev : wait_event) : result :=
  match found ev with
  | Changed _ => Ok child
  | Unchanged => Ok 0
  | WaitFailed e => Error e
  end.

(** What it stores through a non-null [status]. *)
Definition stored (status : bool) (ev : wait_event) : option Z :=
  match found ev with
  | Changed st => if status then Some st else None
  | _ => None
  end.

Definition wait_entry (child : Z) (status : bool) (options : Z)
    (ev : wait_event) : syscall :=
  SysWaitpid child status options (wait_result child ev).

Definition wait_eintr (ev : wait_event) : bool :=
  match found ev with
  | WaitFailed e => e =? EINTR
  | _ => false
  end.

Definition all_wait_eintr (k : wait_script) : Prop :=
  Forall (fun ev => found ev = WaitFailed EINTR) k.

(** The state after a [waitpid] answered by [ev]. *)
Definition after_wait (child : Z) (status : bool) (options : Z)
    (ev : wait_event) (w : world) : world :=
  snd (returned (SysWaitpid child status options) (wait_result child ev)
         (raise_quit (quit_during_wait ev) w)).

(** The wake-up of [wait_reading_process_output] after a change of status
    that was asked for. *)
Definition wake (pid : Z) (status : bool) (w : world) : world :=
  if negb (pid =? 0) && status
     && bool_decide (is_Some (input_available_clear_time w))
  then set_clear_time (Some (0, 0)) w else w.

(** All the calls that the loop makes, however it ends, are [waitpid] on
    [child] with the options it was given. *)
Definition waits_on (child : Z) (options : Z) (c : syscall) : Prop :=
  match c with
  | SysWaitpid pid _ opts _ => pid = child /\ opts = options
  | _ => False
  end.

(** A [waitpid] on [child] that returned -1 with [errno] other than
    EINTR: "waitpid is buggy". *)
Definition failed_wait (child : Z) (w : world) : Prop :=
  exists e status options tl,
    e <> EINTR /\ errno w = e
    /\ strace w = SysWaitpid child status options (Error e) :: tl.

(** What [wait_for_termination] makes of an answer. *)
Definition waited (ev : wait_event) : bool :=
  match found ev with
  | WaitFailed _ => false
  | _ => true
  end.

(** What [child_status_changed] makes of it. *)
Definition polled (child : Z) (ev : wait_event) : Z :=
  match found ev with
  | Changed _ => child
  | Unchanged => 0
  | WaitFailed _ => -1
  end.

(** Whether a wait finds a quit to honour before it takes the answer that
    follows the interruptions [ints]: it must be interruptible, and a quit
    be pending at entry or arrive during one of the interrupted calls. *)
Definition wait_quit_honoured (interruptible : bool) (w : world)
    (ints : wait_script) : bool :=
  interruptible && (quit_requested w || existsb quit_during_wait ints).

(** The interrupted calls that an interruptible wait still makes: none if
    a quit is [pending], else those up to the first one during which a
    quit arrives. *)
Fixpoint waited_before_quit (pending : bool) (ints : wait_script)
  : wait_script :=
  match ints with
  | [] => []
  | i :: ints' =>
      if pending then []
      else i :: waited_before_quit (quit_during_wait i) ints'
  end.

(** The blocking wait as the specification words it: it "retries EINTR
    indefinitely", so that the answer of [waitpid] that follows any number
    of interruptions is the one that decides. *)
Definition wait_retries_eintr : Prop :=
  forall (child : Z) (status interruptible : bool) (ints : wait_script)
         (ev : wait_event) (rest : wait_script) (w : world),
    0 < child -> all_wait_eintr ints -> wait_eintr ev = false ->
    observe (wait_for_termination child status interruptible
               (ints ++ ev :: rest) w)
    = Returns (waited ev, stored status ev).

(** *** Terminal modes *)

(** TCSAFLUSH if [flushp], else TCSADRAIN. *)
Definition requested_action (flushp : bool) : optional_actions :=
  if flushp then TCSAFLUSH else TCSADRAIN.

Definition set_result (a : answer) : result :=
  match a with
  | Done _ => Ok 0
  | Fail e => Error e
  end.

Definition get_result (g : get_answer) : result :=
  match g with
  | Attributes _ => Ok 0
  | GetFailed e => Error e
  end.

(** What the zeroed [new] of [emacs_set_tty] holds after [tcgetattr]. *)
Definition readback (g : get_answer) : termios :=
  match g with
  | Attributes t => t
  | GetFailed _ => zeroed
  end.

Definition after_set (fd : Z) (act : optional_actions) (t : termios)
    (a : answer) (w : world) : world :=
  snd (sys_tcsetattr fd act t a w).

Definition after_get (fd : Z) (g : get_answer) (w : world) : world :=
  snd (sys_tcgetattr fd zeroed g w).

(** A call that [emacs_set_tty] may make: a [tcsetattr] of the settings it
    was given with the action it was asked for, or a [tcgetattr], both on
    its descriptor. *)
Definition tty_call (fd : Z) (act : optional_actions) (t : termios)
    (c : syscall) : Prop :=
  match c with
  | SysTcsetattr fd' act' t' _ => fd' = fd /\ act' = act /\ t' = t
  | SysTcgetattr fd' _ _ => fd' = fd
  | _ => False
  end.

(** The number of [tcsetattr] calls in a log. *)
Fixpoint set_count (l : list syscall) : nat :=
  match l with
  | [] => O
  | SysTcsetattr _ _ _ _ :: l' => S (set_count l')
  | _ :: l' => set_count l'
  end.

(** The readback that the specification asks for: the four flag words and
    the control characters are those that were requested. *)
Definition readback_matches (t wanted : termios) : Prop :=
  c_iflag t = c_iflag wanted
  /\ c_oflag t = c_oflag wanted
  /\ c_cflag t = c_cflag wanted
  /\ c_lflag t = c_lflag wanted
  /\ take NCCS (c_cc t) = take NCCS (c_cc wanted).

(** One round of the loop of [emacs_set_tty], as the log shows it: a
    [tcsetattr] that was interrupted; one that failed with [e]; or one that
    succeeded, followed by the [tcgetattr] that read the settings back,
    with its result and what it left in the buffer. *)
Inductive attempt : Type :=
| Interrupted
| Refused (e : Z)
| ReadBack (rr : result) (t : termios).

(** The calls of a round, oldest first. *)
Definition attempt_calls (fd : Z) (act : optional_actions) (wanted : termios)
    (a : attempt) : list syscall :=
  match a with
  | Interrupted => [SysTcsetattr fd act wanted (Error EINTR)]
  | Refused e => [SysTcsetattr fd act wanted (Error e)]
  | ReadBack rr t => [SysTcsetattr fd act wanted (Ok 0); SysTcgetattr fd rr t]
  end.

(** What a sequence of rounds, oldest first, adds to the log, newest
    first. *)
Definition attempts_log (fd : Z) (act : optional_actions) (wanted : termios)
    (l : list attempt) : list syscall :=
  rev (concat (map (attempt_calls fd act wanted) l)).

(** A round after which there has to be another: an interruption, or a
    readback that does not show the settings asked for. *)
Definition retried (wanted : termios) (a : attempt) : Prop :=
  match a with
  | Interrupted => True
  | Refused _ => False
  | ReadBack _ t => ~ readback_matches t wanted
  end.

(** A round after which there must be none, with the value to return and
    the [errno] to leave: a failure other than an interruption, or a
    readback that shows the settings asked for. *)
Definition settled (wanted : termios) (a : attempt) (r err : Z) : Prop :=
  match a with
  | Interrupted => False
  | Refused e => e <> EINTR /\ r = -1 /\ err = e
  | ReadBack _ t => readback_matches t wanted /\ r = 0
  end.

(** How [n] rounds at most of the loop of [emacs_set_tty] end. *)
Definition set_tty_rounds (n : nat) (fd : Z) (act : optional_actions)
    (wanted : termios) (w : world) (o : outcome tty_state Z) : Prop :=
  match o with
  | Ret r (_, w') =>
      exists attempts,
        strace w' = attempts_log fd act wanted attempts ++ strace w
        /\ (length attempts <= n)%nat
        /\ ((r = 0 /\ length attempts = n /\ Forall (retried wanted) attempts)
            \/ exists before last,
                 attempts = before ++ [last]
                 /\ Forall (retried wanted) before
                 /\ settled wanted last r (errno w'))
  | Esc e (k', _) =>
      e = Blocked /\ (set_answers k' = [] \/ get_answers k' = [])
  end.

(** Sample settings with ECHO and ICANON on, and the interrupt character
    set to C-c. *)
Definition cooked : termios :=
  {| c_iflag := 1280; c_oflag := 5; c_cflag := 191; c_lflag := 35387;
     c_line := 0; c_cc := 3 :: replicate 31 0;
     c_ispeed := 15; c_ospeed := 15 |}.

(** A call that does not discard input: a [tcgetattr], or a [tcsetattr]
    with TCSADRAIN. *)
Definition drains (c : syscall) : Prop :=
  match c with
  | SysTcsetattr _ act _ _ => act = TCSADRAIN
  | SysTcgetattr _ _ _ => True
  | _ => False
  end.

(** An interactive Emacs with two terminals: one on descriptor 0, with
    input typed ahead, and one that is suspended. *)
Definition two_ttys : world :=
  {| errno := 0; quit_requested := false; pending_signals := false;
     checking := false; noninteractive := false; open_fds := {[ 0 ]};
     input_available_clear_time := None;
     tty_list := [ {| input := Some 0 |}; {| input := None |} ];
     strace := [] |}.

(** *** Terminal modes, speeds, streams and brackets *)

(** [flags] has every bit of [mask] set, or none of them. *)
Definition has_bits (flags mask : Z) : Prop := Z.land flags mask = mask.
Definition lacks_bits (flags mask : Z) : Prop := Z.land flags mask = 0.

(** The modes of a terminal an inferior is run on: no echo, line editing
    and signals by characters on, output processed but newline left alone,
    no delays, no case mapping, eight bits both ways. *)
Definition child_flags (t : termios) : Prop :=
  lacks_bits (c_lflag t) ECHO
  /\ has_bits (c_lflag t) (Z.lor ISIG ICANON)
  /\ has_bits (c_oflag t) OPOST
  /\ lacks_bits (c_oflag t)
       (Z.lor (Z.lor ONLCR OLCUC)
          (Z.lor (Z.lor (Z.lor (Z.lor (Z.lor NLDLY CRDLY) TABDLY) BSDLY)
                    VTDLY) FFDLY))
  /\ lacks_bits (c_iflag t) (Z.lor IUCLC ISTRIP)
  /\ Z.land (c_cflag t) CSIZE = CS8.

(** Its control characters: erase and kill disabled, end of file C-d, and
    the quit and interrupt characters not disabled. *)
Definition child_chars (cc : list Z) : Prop :=
  cc !! VERASE = Some CDISABLE
  /\ cc !! VKILL = Some CDISABLE
  /\ cc !! VEOF = Some 4
  /\ cc_get cc VQUIT <> CDISABLE
  /\ cc_get cc VINTR <> CDISABLE.

(** A control character that is [v] where it was disabled. *)
Definition enabled (v c : Z) : Z := if c =? CDISABLE then v else c.

(** A call made on [fd] that, if it is a [tcsetattr], is made with
    TCSADRAIN and asks for settings that satisfy [good]. *)
Definition sets_modes (fd : Z) (good : termios -> Prop) (c : syscall) : Prop :=
  match c with
  | SysTcsetattr fd' act t _ => fd' = fd /\ act = TCSADRAIN /\ good t
  | SysTcgetattr fd' _ _ => fd' = fd
  | _ => False
  end.

(** What [child_setup_tty] asks of a terminal. *)
Definition child_modes (t : termios) : Prop :=
  child_flags t /\ (length (c_cc t) = NCCS -> child_chars (c_cc t)).

(** The calls of a function that reads the modes of [fd] and sets them
    again, changed: none while the driver has not answered, else one
    [tcgetattr], whose answer is [g], and after it only calls that ask for
    modes that are [good] for what was read. *)
Definition resets_modes (fd : Z) (good : termios -> termios -> Prop)
    (k : tty_script) (w w' : world) : Prop :=
  match get_answers k with
  | [] => strace w' = strace w
  | g :: _ =>
      exists new,
        strace w' = new ++ SysTcgetattr fd (get_result g) (readback g)
                            :: strace w
        /\ Forall (sets_modes fd (good (readback g))) new
  end.

(** The modes without echo and line editing. *)
Definition no_echo_flags (s t : termios) : Prop :=
  lacks_bits (c_lflag t) (Z.lor ICANON ECHO)
  /\ clear_bits (c_lflag t) (Z.lor ICANON ECHO)
     = clear_bits (c_lflag s) (Z.lor ICANON ECHO)
  /\ c_iflag t = c_iflag s /\ c_oflag t = c_oflag s
  /\ c_cflag t = c_cflag s /\ c_cc t = c_cc s.

(** Raw mode, as cfmakeraw (3) has it. *)
Definition raw_flags (t : termios) : Prop :=
  lacks_bits (c_iflag t)
    (Z.lor (Z.lor (Z.lor (Z.lor (Z.lor (Z.lor (Z.lor IGNBRK BRKINT) PARMRK)
                                    ISTRIP) INLCR) IGNCR) ICRNL) IXON)
  /\ lacks_bits (c_oflag t) OPOST
  /\ lacks_bits (c_lflag t)
       (Z.lor (Z.lor (Z.lor (Z.lor ECHO ECHONL) ICANON) ISIG) IEXTEN)
  /\ lacks_bits (c_cflag t) PARENB
  /\ Z.land (c_cflag t) CSIZE = CS8.

(** The rates that [init_baud_rate] can leave in [baud_rate]: those of
    [baud_convert], but for the zero of B0. *)
Definition baud_rates : list Z := filter (fun b => b <> 0) baud_convert.

(** What [random] returns: 31 bits. *)
Definition random_values (draws : nat -> Z) : Prop :=
  forall i, 0 <= draws i < 2 ^ RAND_BITS.

(** The draws that begin with [r0], [r1], [r2] and go on with zeros. *)
Definition draws_of (r0 r1 r2 : Z) (i : nat) : Z :=
  match i with
  | O => r0
  | S O => r1
  | S (S O) => r2
  | _ => 0
  end.

(** The entry that an open of [file], answered by [a], leaves in the log. *)
Definition open_entry (file oflags mode : Z) (a : answer) : syscall :=
  SysOpenat AT_FDCWD file oflags mode (opened a).

(** The assertion at the head of [emacs_intr_read] does not fire. *)
Definition read_size_accepted (M nbyte : Z) (w : world) : Prop :=
  checking w = false \/ nbyte <= M.

(** No quit is pending and none arrives during the calls of [k]. *)
Definition no_quit (w : world) (k : script) : Prop :=
  quit_requested w = false /\ Forall (fun ev => quit_arrives ev = false) k.

(** No call of [k] is interrupted. *)
Definition uninterrupted (k : script) : Prop :=
  Forall (fun ev => is_eintr (ans ev) = false) k.

(** Two states that differ at most in whether signals are pending. *)
Definition pending_apart (w1 w2 : world) : Prop :=
  set_pending_signals false w1 = set_pending_signals false w2.

(** Two runs that the caller cannot tell apart, and that leave states that
    differ at most in whether signals are pending. *)
Definition same_but_pending_signals {A : Type} (o1 o2 : outcome state A)
  : Prop :=
  observe o1 = observe o2
  /\ fst (final o1) = fst (final o2)
  /\ pending_apart (snd (final o1)) (snd (final o2)).

(** Whether a C string holds a '+'. *)
Fixpoint has_plus (m : string) : bool :=
  match m with
  | EmptyString => false
  | String c m' =>
      if Ascii.eqb c zero then false else Ascii.eqb c "+" || has_plus m'
  end.

(** An [openat] relative to the working directory, of [file], with flags
    [oflags] and mode 0666. *)
Definition opens (file oflags : Z) (c : syscall) : Prop :=
  exists r, c = SysOpenat AT_FDCWD file oflags 438 r.

(** The first character of a C string; the terminating null if it is
    empty. *)
Definition first_char (mode : string) : ascii :=
  match mode with
  | EmptyString => zero
  | String c _ => c
  end.

(** What [emacs_fopen] returns once its open is answered by [ev] and
    [fdopen], if it comes to that, by [a]: the stream of [fdopen], or a
    null pointer if the open or [fdopen] failed. *)
Definition fopen_value (a : stream_answer) (ev : event) : Z :=
  match opened (ans ev), a with
  | Ok _, Stream fp => Z.pos fp
  | _, _ => 0
  end.

(** The entries of an array of saved handlers that the loops go through:
    those before the first one of code 0. *)
Fixpoint listed (saved_handlers : list SavedHandlers.save_signal)
  : list SavedHandlers.save_signal :=
  match saved_handlers with
  | [] => []
  | s :: rest =>
      if SavedHandlers.code s =? 0 then [] else s :: listed rest
  end.

(** Their signals. *)
Definition listed_codes (saved_handlers : list SavedHandlers.save_signal)
  : list Z :=
  SavedHandlers.code <$> listed saved_handlers.

(** The array of [sys_subshell], with USABLE_SIGIO, before the handlers are
    saved into it; the actions it holds are not initialized. *)
Definition subshell_handlers (junk : Signals.sigaction_t)
  : list SavedHandlers.save_signal :=
  [ SavedHandlers.SaveSignal Signals.SIGINT junk;
    SavedHandlers.SaveSignal Signals.SIGQUIT junk;
    SavedHandlers.SaveSignal Signals.SIGTERM junk;
    SavedHandlers.SaveSignal Signals.SIGIO junk;
    SavedHandlers.SaveSignal 0 junk ].

(** A process that is a session leader leads its group. *)
Definition session_leader_leads (w : ForegroundGroup.world) : Prop :=
  ForegroundGroup.session_leader w = true ->
  ForegroundGroup.pid w = ForegroundGroup.pgrp w.

(** A [write] on [fd]. *)
Definition write_on (fd : Z) (c : syscall) : Prop :=
  match c with
  | SysWrite fd' _ _ _ => fd' = fd
  | _ => False
  end.

(** From [w] to [w'] only writes on [fd] were made, and no quit and no
    pending signal was taken up. *)
Definition only_wrote (fd : Z) (w w' : world) : Prop :=
  pending_signals w' = pending_signals w
  /\ (quit_requested w = true -> quit_requested w' = true)
  /\ open_fds w' = open_fds w
  /\ exists new, strace w' = new ++ strace w /\ Forall (write_on fd) new.

(** From [w] to [w'] the log has grown by opens of [file] that succeeded,
    and by nothing else. *)
Definition only_opened (file : Z) (w w' : world) : Prop :=
  exists new,
    strace w' = new ++ strace w
    /\ Forall (fun c => exists flags fd,
                          c = SysOpenat AT_FDCWD file flags 0 (Ok fd)) new.

(** ** Lemmas and theorems *)

(** ** The foreground process group (sysdep.c, narrow_foreground_group and
    widen_foreground_group) *)

Lemma init_foreground_group_leader (w : ForegroundGroup.world) :
  ForegroundGroup.pid w = ForegroundGroup.pgrp w ->
  ForegroundGroup.inherited_pgroup (ForegroundGroup.init_foreground_group w) = 0.
Proof.
  intros Heq. unfold ForegroundGroup.init_foreground_group. simpl.
  rewrite Heq, Z.eqb_refl. reflexivity.
Qed.

Lemma narrow_noop (fd : Z) (w : ForegroundGroup.world) :
  ForegroundGroup.inherited_pgroup w = 0 ->
  ForegroundGroup.narrow_foreground_group fd w = w.
Proof.
  intros H0. unfold ForegroundGroup.narrow_foreground_group.
  rewrite H0. reflexivity.
Qed.

Lemma widen_noop (fd : Z) (w : ForegroundGroup.world) :
  ForegroundGroup.inherited_pgroup w = 0 ->
  ForegroundGroup.widen_foreground_group fd w = w.
Proof.
  intros H0. unfold ForegroundGroup.widen_foreground_group.
  rewrite H0. reflexivity.
Qed.

(** The no-op is not an accident of the model: a process that did inherit a
    group does change group and terminal when it narrows. *)
Example narrow_member_changes :
  let w := ForegroundGroup.narrow_foreground_group 0 member_world in
  ForegroundGroup.pgrp w = 4242
  /\ ForegroundGroup.foreground w !! 0 = Some 4242
  /\ ForegroundGroup.calls w
     = [ForegroundGroup.Tcsetpgrp 0 4242 (Ok 0);
        ForegroundGroup.Setpgid 0 0 (Ok 0)]
  /\ ForegroundGroup.sigmask w = ForegroundGroup.sigmask member_world.
Proof. vm_compute. repeat split; reflexivity. Qed.

(** Claim C9.  Whenever [inherited_pgroup] is 0, narrowing and widening the
    foreground group change nothing at all: the whole state after the call
    (process group, terminal foreground group, signal mask, [errno], and the
    list of system calls made) is the state before it; so narrowing twice in
    a row leaves the state that narrowing once leaves. *)
Theorem foreground_group_noop_when_leader
    (fd : Z) (w : ForegroundGroup.world) :
  ForegroundGroup.inherited_pgroup w = 0 ->
  ForegroundGroup.narrow_foreground_group fd w = w
  /\ ForegroundGroup.widen_foreground_group fd w = w
  /\ ForegroundGroup.narrow_foreground_group fd
       (ForegroundGroup.narrow_foreground_group fd w)
     = ForegroundGroup.narrow_foreground_group fd w.
Proof.
  intros H0. split; [|split].
  - apply narrow_noop; assumption.
  - apply widen_noop; assumption.
  - rewrite (narrow_noop fd w H0). apply narrow_noop; assumption.
Qed.

Lemma foreground_group_noop_when_leader_witness :
  ForegroundGroup.inherited_pgroup leader_world = 0
  /\ ForegroundGroup.narrow_foreground_group 0 leader_world = leader_world
  /\ ForegroundGroup.widen_foreground_group 0 leader_world = leader_world
  /\ ForegroundGroup.narrow_foreground_group 0
       (ForegroundGroup.narrow_foreground_group 0 leader_world)
     = ForegroundGroup.narrow_foreground_group 0 leader_world.
Proof.
  split; [reflexivity|].
  apply (foreground_group_noop_when_leader 0 leader_world). reflexivity.
Defined.

(** ** Stack overflow (sysdep.c, stack_overflow and handle_sigsegv) *)

Lemma stack_overflow_true_iff (siginfo : option Signals.siginfo_t)
    (w : Signals.world) :
  Signals.stack_overflow siginfo w = true
  <-> Signals.attempt_stack_overflow_recovery w = true
      /\ exists info,
           siginfo = Some info
           /\ Signals.si_addr info <> 0
           /\ within_margin (Signals.stack_bottom w) (Signals.stack_top w)
                (Signals.si_addr info).
Proof.
  unfold Signals.stack_overflow, within_margin, Signals.LG_STACK_HEURISTIC.
  destruct (Signals.attempt_stack_overflow_recovery w); simpl.
  2:{ split; [discriminate | intros [H _]; discriminate]. }
  destruct siginfo as [info|].
  2:{ split; [discriminate | intros [_ (i & Hi & _)]; discriminate]. }
  destruct (Z.eqb_spec (Signals.si_addr info) 0) as [Hz|Hnz].
  { split; [discriminate|].
    intros [_ (i & Hi & Hne & _)]. injection Hi as <-. contradiction. }
  destruct (Z.ltb_spec (Signals.stack_bottom w) (Signals.stack_top w))
    as [Hlt|Hge].
  - rewrite andb_true_iff, Z.leb_le, Z.ltb_lt. split.
    + intros [H1 H2]. split; [reflexivity|]. exists info.
      split; [reflexivity|]. split; [assumption|]. left. lia.
    + intros [_ (i & Hi & _ & Hm)]. injection Hi as <-.
      destruct Hm as [(_ & H1 & H2)|(Hle & _)]; lia.
  - rewrite andb_true_iff, Z.leb_le, Z.ltb_lt. split.
    + intros [H1 H2]. split; [reflexivity|]. exists info.
      split; [reflexivity|]. split; [assumption|]. right. lia.
    + intros [_ (i & Hi & _ & Hm)]. injection Hi as <-.
      destruct Hm as [(Hlt & _)|(_ & H1 & H2)]; lia.
Qed.

Lemma recoverable_dec (siginfo : option Signals.siginfo_t) (w : Signals.world) :
  recoverable siginfo w \/ ~ recoverable siginfo w.
Proof.
  unfold recoverable.
  destruct (Signals.gc_in_progress w);
    [right; intros (H & _); discriminate|].
  destruct (Z.eq_dec (Signals.self w) (Signals.main_thread_id w)) as [He|Hne];
    [|right; intros (_ & H & _); contradiction].
  destruct (Signals.stack_overflow siginfo w) eqn:Hso.
  - left. apply stack_overflow_true_iff in Hso. tauto.
  - right. intros (_ & _ & H).
    assert (Signals.stack_overflow siginfo w = true) as Ht
      by (apply stack_overflow_true_iff; exact H).
    congruence.
Qed.

(** The fatal path never ends in the jump to the command loop. *)
Lemma deliver_fatal_thread_signal_no_longjmp (sig : Z) (w : Signals.world) :
  observe (Signals.deliver_fatal_thread_signal sig w) <> Escapes ByLongjmp.
Proof.
  unfold Signals.deliver_fatal_thread_signal, Signals.deliver_thread_signal.
  destruct (negb _); simpl; discriminate.
Qed.

(** The bound of the heuristic is strict: 4095 bytes past the top is an
    overflow, 4096 bytes past it is not, and neither is an address on the
    other side of the top. *)
Example stack_overflow_boundary :
  Signals.stack_overflow (Some {| Signals.si_addr := 2146369536 - 4095 |})
    overflow_world = true
  /\ Signals.stack_overflow (Some {| Signals.si_addr := 2146369536 - 4096 |})
       overflow_world = false
  /\ Signals.stack_overflow (Some {| Signals.si_addr := 2146369536 |})
       overflow_world = true
  /\ Signals.stack_overflow (Some {| Signals.si_addr := 2146369536 + 1 |})
       overflow_world = false.
Proof. vm_compute. repeat split; reflexivity. Qed.

Example handle_sigsegv_recovers :
  Signals.handle_sigsegv Signals.SIGSEGV
    (Some {| Signals.si_addr := 2146369536 - 100 |}) overflow_world
  = Esc ByLongjmp overflow_world.
Proof. reflexivity. Qed.

Example handle_sigsegv_wild_pointer_is_fatal :
  observe (Signals.handle_sigsegv Signals.SIGSEGV
             (Some {| Signals.si_addr := 4096 |}) overflow_world)
  = Escapes (ByTermination Signals.SIGSEGV).
Proof. reflexivity. Qed.

(** Claim C2.  A SIGSEGV delivered with siginfo ends in the jump back to the
    command loop if and only if no garbage collection is in progress, the
    faulting thread is the main thread, recovery is not disabled, the
    siginfo and its fault address are not null, and the address is within
    the margin (with the strict upper bound); the state is then untouched.
    In every other case the handler does exactly what delivering a fatal
    thread signal does. *)
Theorem handle_sigsegv_recovers_iff
    (sig : Z) (siginfo : option Signals.siginfo_t) (w : Signals.world) :
  (observe (Signals.handle_sigsegv sig siginfo w) = Escapes ByLongjmp
   <-> recoverable siginfo w)
  /\ (Signals.handle_sigsegv sig siginfo w = Esc ByLongjmp w
      <-> recoverable siginfo w)
  /\ (recoverable siginfo w
      \/ Signals.handle_sigsegv sig siginfo w
         = Signals.deliver_fatal_thread_signal sig w).
Proof.
  assert (Hfatal : ~ recoverable siginfo w ->
            Signals.handle_sigsegv sig siginfo w
            = Signals.deliver_fatal_thread_signal sig w).
  { intros Hn. unfold Signals.handle_sigsegv, Signals.pthread_equal.
    destruct (Signals.gc_in_progress w) eqn:Hgc; [reflexivity|]. simpl.
    destruct (Z.eqb_spec (Signals.self w) (Signals.main_thread_id w))
      as [He|Hne]; [|reflexivity]. simpl.
    destruct (Signals.stack_overflow siginfo w) eqn:Hso; [|reflexivity].
    exfalso. apply Hn. apply stack_overflow_true_iff in Hso.
    unfold recoverable. tauto. }
  assert (Hrec : recoverable siginfo w ->
            Signals.handle_sigsegv sig siginfo w = Esc ByLongjmp w).
  { intros (Hgc & Hself & Hrest).
    unfold Signals.handle_sigsegv, Signals.pthread_equal.
    rewrite Hgc, Hself, Z.eqb_refl. simpl.
    replace (Signals.stack_overflow siginfo w) with true; [reflexivity|].
    symmetry. apply stack_overflow_true_iff. exact Hrest. }
  split; [|split].
  - split.
    + intros Hobs. destruct (recoverable_dec siginfo w) as [Hr|Hn];
        [assumption|].
      rewrite (Hfatal Hn) in Hobs.
      exfalso. exact (deliver_fatal_thread_signal_no_longjmp sig w Hobs).
    + intros Hr. rewrite (Hrec Hr). reflexivity.
  - split.
    + intros Heq. destruct (recoverable_dec siginfo w) as [Hr|Hn];
        [assumption|].
      rewrite (Hfatal Hn) in Heq.
      exfalso. apply (deliver_fatal_thread_signal_no_longjmp sig w).
      rewrite Heq. reflexivity.
    + exact Hrec.
  - destruct (recoverable_dec siginfo w) as [Hr|Hn];
      [left; assumption | right; auto].
Qed.

(** ** Delivery of signals (sysdep.c, deliver_process_signal and
    deliver_thread_signal) *)

Lemma errno_set_errno (e : Z) (w : Signals.world) :
  Signals.errno (Signals.set_errno e w) = e.
Proof. reflexivity. Qed.

Example deliver_process_signal_main_thread :
  match Signals.deliver_process_signal Signals.SIGHUP clobbering_handler
          (Signals.set_errno 7 overflow_world) with
  | Ret _ w' => Signals.errno w' = 7
  | Esc _ _ => False
  end.
Proof. reflexivity. Qed.

(** Off the main thread the signal is blocked here and sent on; the noise
    of the two library calls does not reach the caller. *)
Example deliver_process_signal_forwards :
  match Signals.deliver_process_signal Signals.SIGHUP clobbering_handler
          subsidiary_world with
  | Ret _ w' =>
      Signals.errno w' = 7
      /\ Signals.killed w' = [Signals.SIGHUP]
      /\ Signals.sigmask w' = {[Signals.SIGHUP]}
      /\ Signals.noise w' = []
  | Esc _ _ => False
  end.
Proof. vm_compute. repeat split; reflexivity. Qed.

Example deliver_thread_signal_parks_subsidiary_thread :
  match Signals.deliver_thread_signal Signals.SIGILL clobbering_handler
          subsidiary_world with
  | Esc BySuspension w' =>
      Signals.killed w' = [Signals.SIGILL]
      /\ Signals.sa_handler (Signals.disposition w' Signals.SIGILL)
         = Signals.Handler Signals.Deliver_fatal_signal
  | _ => False
  end.
Proof. vm_compute. repeat split; reflexivity. Qed.

(** Claim C10.  Both delivery functions leave [errno] as they found it: whenever
    one of them returns, [errno] has its value on entry, whatever the
    handler and the library calls of the forwarding path did to it.  The
    functions fail to return only where the code has no return: when the
    handler itself does not return (on the main thread), and, for
    [deliver_thread_signal], on a subsidiary thread, which is suspended for
    good. *)
Theorem deliver_signal_preserves_errno
    (sig : Z) (handler : Signals.signal_handler_t) (w : Signals.world) :
  match Signals.deliver_process_signal sig handler w with
  | Ret _ w' => Signals.errno w' = Signals.errno w
  | Esc e w' =>
      Signals.self w = Signals.main_thread_id w /\ handler sig w = Esc e w'
  end
  /\ match Signals.deliver_thread_signal sig handler w with
     | Ret _ w' => Signals.errno w' = Signals.errno w
     | Esc e w' =>
         (Signals.self w <> Signals.main_thread_id w /\ e = BySuspension)
         \/ (Signals.self w = Signals.main_thread_id w
             /\ handler sig w = Esc e w')
     end.
Proof.
  unfold Signals.deliver_process_signal, Signals.deliver_thread_signal,
    Signals.pthread_equal.
  destruct (Z.eqb_spec (Signals.self w) (Signals.main_thread_id w))
    as [He|Hne]; simpl.
  - destruct (handler sig w) as [[] w'|e w'] eqn:Hh; simpl.
    + split; reflexivity.
    + split; [split; [assumption | reflexivity]|].
      right. split; [assumption | reflexivity].
  - split; [reflexivity|]. left. split; [assumption | reflexivity].
Qed.

(** ** Installation of the handlers (sysdep.c, maybe_fatal_sig and
    init_signals) *)

Lemma disposition_sigaction_same (sig : Z) (a : Signals.sigaction_t)
    (w : Signals.world) :
  Signals.disposition (Signals.sigaction sig a w) sig = a.
Proof.
  unfold Signals.disposition, Signals.sigaction. simpl.
  rewrite lookup_insert_eq. reflexivity.
Qed.

Lemma disposition_sigaction_other (sig sig' : Z) (a : Signals.sigaction_t)
    (w : Signals.world) :
  sig <> sig' ->
  Signals.disposition (Signals.sigaction sig a w) sig'
  = Signals.disposition w sig'.
Proof.
  intros Hne. unfold Signals.disposition, Signals.sigaction. simpl.
  rewrite lookup_insert_ne by assumption. reflexivity.
Qed.

Lemma disposition_init_sigsegv (sig : Z) (w : Signals.world) :
  sig <> Signals.SIGSEGV ->
  Signals.disposition (snd (Signals.init_sigsegv w)) sig
  = Signals.disposition w sig.
Proof.
  intros Hne. unfold Signals.init_sigsegv.
  destruct (Signals.sigaltstack_works w); simpl; [|reflexivity].
  rewrite disposition_sigaction_other by congruence. reflexivity.
Qed.

Lemma process_fatal_action_init_sigsegv (w : Signals.world) :
  Signals.process_fatal_action (snd (Signals.init_sigsegv w))
  = Signals.process_fatal_action w.
Proof.
  unfold Signals.init_sigsegv.
  destruct (Signals.sigaltstack_works w); reflexivity.
Qed.

Lemma process_fatal_action_maybe_fatal_sig (sig : Z) (w : Signals.world) :
  Signals.process_fatal_action (Signals.maybe_fatal_sig sig w)
  = Signals.process_fatal_action w.
Proof.
  unfold Signals.maybe_fatal_sig.
  destruct (Signals.noninteractive w); simpl;
    [destruct (bool_decide _)|]; reflexivity.
Qed.

Lemma noninteractive_maybe_fatal_sig (sig : Z) (w : Signals.world) :
  Signals.noninteractive (Signals.maybe_fatal_sig sig w)
  = Signals.noninteractive w.
Proof.
  unfold Signals.maybe_fatal_sig.
  destruct (Signals.noninteractive w) eqn:E; simpl;
    [destruct (bool_decide _)|]; simpl; auto.
Qed.

Lemma disposition_maybe_fatal_sig_other (sig sig' : Z) (w : Signals.world) :
  sig <> sig' ->
  Signals.disposition (Signals.maybe_fatal_sig sig w) sig'
  = Signals.disposition w sig'.
Proof.
  intros Hne. unfold Signals.maybe_fatal_sig.
  destruct (Signals.noninteractive w); simpl;
    [destruct (bool_decide _); simpl|];
    try reflexivity; apply disposition_sigaction_other; assumption.
Qed.

(** What [maybe_fatal_sig] leaves for its own signal: the fatal action,
    unless Emacs runs in batch mode and the signal was ignored. *)
Lemma disposition_maybe_fatal_sig (sig : Z) (w : Signals.world) :
  Signals.disposition (Signals.maybe_fatal_sig sig w) sig
  = if Signals.noninteractive w
       && bool_decide (Signals.sa_handler (Signals.disposition w sig)
                       = Signals.SIG_IGN)
    then Signals.disposition w sig
    else Signals.process_fatal_action w.
Proof.
  unfold Signals.maybe_fatal_sig. destruct (Signals.noninteractive w); simpl.
  - destruct (bool_decide _); simpl; [reflexivity|].
    apply disposition_sigaction_same.
  - apply disposition_sigaction_same.
Qed.

Lemma process_fatal_action_sigaction (sig : Z) (a : Signals.sigaction_t)
    (w : Signals.world) :
  Signals.process_fatal_action (Signals.sigaction sig a w)
  = Signals.process_fatal_action w.
Proof. reflexivity. Qed.

Lemma noninteractive_sigaction (sig : Z) (a : Signals.sigaction_t)
    (w : Signals.world) :
  Signals.noninteractive (Signals.sigaction sig a w)
  = Signals.noninteractive w.
Proof. reflexivity. Qed.

Lemma process_fatal_action_with_fatal_action (w : Signals.world) :
  Signals.process_fatal_action (with_fatal_action w) = fatal_action w.
Proof. reflexivity. Qed.

Lemma noninteractive_with_fatal_action (w : Signals.world) :
  Signals.noninteractive (with_fatal_action w) = Signals.noninteractive w.
Proof. reflexivity. Qed.

Lemma disposition_with_fatal_action (sig : Z) (w : Signals.world) :
  Signals.disposition (with_fatal_action w) sig = Signals.disposition w sig.
Proof. reflexivity. Qed.

Ltac sig_ne := vm_compute; discriminate.

(** Unfold [init_signals] and name its parts. *)
Ltac open_init_signals :=
  unfold Signals.init_signals;
  match goal with
  | |- context [Signals.init_sigsegv ?x] =>
      rewrite (surjective_pairing (Signals.init_sigsegv x))
  end;
  unfold Signals.signal, Signals.add_user_signal, Signals.IEEE_FLOATING_POINT;
  cbv iota;
  match goal with
  | |- context [Signals.maybe_fatal_sig Signals.SIGHUP ?x] =>
      change x with (with_fatal_action ltac:(
        match x with
        | Signals.set_process_fatal_action _ (Signals.set_main_thread_id _ ?w)
          => exact w
        end))
  end.

(** Look up a signal through the steps that do not concern it. *)
Ltac peel :=
  repeat match goal with
    | |- context [Signals.disposition (Signals.sigaction ?s ?a ?w) ?s] =>
        rewrite (disposition_sigaction_same s a w)
    | |- context [Signals.disposition (Signals.sigaction ?s ?a ?w) ?s'] =>
        rewrite (disposition_sigaction_other s s' a w) by sig_ne
    | |- context [Signals.disposition (snd (Signals.init_sigsegv ?w)) ?s] =>
        rewrite (disposition_init_sigsegv s w) by sig_ne
    | |- context [Signals.disposition (Signals.maybe_fatal_sig ?s ?w) ?s'] =>
        rewrite (disposition_maybe_fatal_sig_other s s' w) by sig_ne
    | |- context [Signals.disposition (with_fatal_action ?w) ?s] =>
        rewrite (disposition_with_fatal_action s w)
    end.

(** Read the globals that the steps leave alone. *)
Ltac globals :=
  repeat match goal with
    | |- context [Signals.process_fatal_action (Signals.sigaction ?s ?a ?w)] =>
        rewrite (process_fatal_action_sigaction s a w)
    | |- context [Signals.process_fatal_action
                    (snd (Signals.init_sigsegv ?w))] =>
        rewrite (process_fatal_action_init_sigsegv w)
    | |- context [Signals.process_fatal_action
                    (Signals.maybe_fatal_sig ?s ?w)] =>
        rewrite (process_fatal_action_maybe_fatal_sig s w)
    | |- context [Signals.process_fatal_action (with_fatal_action ?w)] =>
        rewrite (process_fatal_action_with_fatal_action w)
    | |- context [Signals.noninteractive (Signals.sigaction ?s ?a ?w)] =>
        rewrite (noninteractive_sigaction s a w)
    | |- context [Signals.noninteractive (Signals.maybe_fatal_sig ?s ?w)] =>
        rewrite (noninteractive_maybe_fatal_sig s w)
    | |- context [Signals.noninteractive (with_fatal_action ?w)] =>
        rewrite (noninteractive_with_fatal_action w)
    end.

Ltac split_ok :=
  match goal with
  | |- context [if negb ?ok then _ else _] => destruct ok; cbv beta iota delta [negb]
  end.

Ltac split_mode w Hni :=
  destruct (Signals.noninteractive w) eqn:Hni;
  cbv beta iota delta [negb andb].

(** SIGTERM ends up with the fatal action whatever it was before and
    whatever the mode: the last word on it is the unconditional
    [sigaction (SIGTERM, &process_fatal_action, 0)] late in the function. *)
Lemma init_signals_SIGTERM (w : Signals.world) :
  Signals.disposition (Signals.init_signals w) Signals.SIGTERM
  = fatal_action w.
Proof.
  open_init_signals. peel. split_ok; globals.
  all: split_mode w Hni; globals; reflexivity.
Qed.

(** SIGHUP and SIGINT are only touched by [maybe_fatal_sig]. *)
Lemma init_signals_SIGHUP (w : Signals.world) :
  Signals.disposition (Signals.init_signals w) Signals.SIGHUP
  = if Signals.noninteractive w
       && bool_decide (Signals.sa_handler
                         (Signals.disposition w Signals.SIGHUP)
                       = Signals.SIG_IGN)
    then Signals.disposition w Signals.SIGHUP
    else fatal_action w.
Proof.
  open_init_signals. peel. split_ok; peel; globals.
  all: split_mode w Hni; peel.
  all: rewrite disposition_maybe_fatal_sig; globals; peel.
  all: rewrite Hni; reflexivity.
Qed.

Lemma init_signals_SIGINT (w : Signals.world) :
  Signals.disposition (Signals.init_signals w) Signals.SIGINT
  = if Signals.noninteractive w
       && bool_decide (Signals.sa_handler
                         (Signals.disposition w Signals.SIGINT)
                       = Signals.SIG_IGN)
    then Signals.disposition w Signals.SIGINT
    else fatal_action w.
Proof.
  open_init_signals. peel. split_ok; peel; globals.
  all: split_mode w Hni; peel.
  all: rewrite disposition_maybe_fatal_sig; globals; peel.
  all: rewrite Hni; reflexivity.
Qed.

(** SIGPIPE is ignored by an interactive Emacs and left alone in batch
    mode. *)
Lemma init_signals_SIGPIPE (w : Signals.world) :
  Signals.disposition (Signals.init_signals w) Signals.SIGPIPE
  = if Signals.noninteractive w
    then Signals.disposition w Signals.SIGPIPE
    else {| Signals.sa_handler := Signals.SIG_IGN;
            Signals.sa_mask := ∅;
            Signals.sa_flags := Signals.SA_RESTART |}.
Proof.
  open_init_signals. peel. split_ok; peel; globals.
  all: split_mode w Hni; peel; reflexivity.
Qed.

(** What the claim says and the code does: interactively, SIGPIPE is
    ignored and SIGHUP and SIGINT are fatal; in batch mode SIGPIPE keeps
    the action it had, and SIGHUP and SIGINT become fatal exactly when they
    were not ignored. *)
Lemma init_signals_hup_int_pipe (w : Signals.world) :
  let before := Signals.disposition w in
  let after := Signals.disposition (Signals.init_signals w) in
  (Signals.noninteractive w = false ->
   Signals.sa_handler (after Signals.SIGPIPE) = Signals.SIG_IGN
   /\ after Signals.SIGHUP = fatal_action w
   /\ after Signals.SIGINT = fatal_action w)
  /\ (Signals.noninteractive w = true ->
      after Signals.SIGPIPE = before Signals.SIGPIPE
      /\ (after Signals.SIGHUP = fatal_action w
          <-> Signals.sa_handler (before Signals.SIGHUP) <> Signals.SIG_IGN)
      /\ (after Signals.SIGINT = fatal_action w
          <-> Signals.sa_handler (before Signals.SIGINT) <> Signals.SIG_IGN)).
Proof.
  cbv zeta.
  rewrite init_signals_SIGPIPE, init_signals_SIGHUP, init_signals_SIGINT.
  split; intros Hni; rewrite Hni; cbn [andb].
  - repeat split; reflexivity.
  - split; [reflexivity|].
    split; case_bool_decide as Hign; split.
    all: try (intros _; reflexivity).
    all: try (intros Hne; contradiction).
    all: try (intros _; assumption).
    all: intros Heq _; rewrite Heq in Hign; discriminate.
Qed.

(** Claim C8, which the code breaks for SIGTERM.  In batch mode, with SIGHUP and
    SIGTERM both ignored on entry, [init_signals] leaves SIGHUP ignored, as
    the claim and the comment of [maybe_fatal_sig] say, but registers
    SIGTERM with the fatal-process handler all the same: the unconditional
    [sigaction (SIGTERM, &process_fatal_action, 0)] further down undoes what
    [maybe_fatal_sig (SIGTERM)] had decided. *)
Theorem init_signals_batch_registers_ignored_SIGTERM :
  Signals.noninteractive batch_world = true
  /\ Signals.sa_handler (Signals.disposition batch_world Signals.SIGTERM)
     = Signals.SIG_IGN
  /\ Signals.sa_handler
       (Signals.disposition
          (Signals.maybe_fatal_sig Signals.SIGTERM batch_world)
          Signals.SIGTERM)
     = Signals.SIG_IGN
  /\ Signals.sa_handler
       (Signals.disposition (Signals.init_signals batch_world) Signals.SIGHUP)
     = Signals.SIG_IGN
  /\ Signals.sa_handler
       (Signals.disposition (Signals.init_signals batch_world) Signals.SIGTERM)
     = Signals.Handler Signals.Deliver_fatal_signal.
Proof.
  vm_compute. repeat split; reflexivity.
Qed.

(** ** Retry-wrapped I/O (sysdep.c, emacs_open, emacs_read, emacs_write) *)

Lemma size_t_of_nonneg (n : Z) : 0 <= size_t_of n.
Proof. unfold size_t_of. apply Z.mod_pos_bound. lia. Qed.


Lemma transfer_retval (a : answer) (count : Z) :
  0 <= count ->
  match a with
  | Done v => retval (transfer a count) = Z.min (Z.of_N v) count
              /\ 0 <= retval (transfer a count) <= count
  | Fail e => transfer a count = Error e
  end.
Proof.
  intros Hc. destruct a as [v|e]; simpl; [|reflexivity].
  split; [reflexivity | lia].
Qed.

(** The test [result < 0 && errno == EINTR] after a read, a write or an
    open looks at the kernel's answer only. *)
Lemma sys_read_retry (fd buf nbyte : Z) (ev : event) (w : world) :
  (fst (sys_read fd buf nbyte ev w) <? 0)
  && (errno (snd (sys_read fd buf nbyte ev w)) =? EINTR)
  = is_eintr (ans ev).
Proof.
  unfold sys_read, returned. destruct (ans ev) as [v|e]; simpl.
  - pose proof (size_t_of_nonneg nbyte).
    replace (Z.min (Z.of_N v) (size_t_of nbyte) <? 0) with false;
      [reflexivity|]. symmetry. apply Z.ltb_ge. lia.
  - reflexivity.
Qed.

Lemma sys_write_retry (fd buf nbyte : Z) (ev : event) (w : world) :
  (fst (sys_write fd buf nbyte ev w) <? 0)
  && (errno (snd (sys_write fd buf nbyte ev w)) =? EINTR)
  = is_eintr (ans ev).
Proof.
  unfold sys_write, returned. destruct (ans ev) as [v|e]; simpl.
  - pose proof (size_t_of_nonneg nbyte).
    replace (Z.min (Z.of_N v) (size_t_of nbyte) <? 0) with false;
      [reflexivity|]. symmetry. apply Z.ltb_ge. lia.
  - reflexivity.
Qed.

Lemma sys_openat_retry (dirfd file oflags mode : Z) (ev : event) (w : world) :
  (fst (sys_openat dirfd file oflags mode ev w) <? 0)
  && (errno (snd (sys_openat dirfd file oflags mode ev w)) =? EINTR)
  = is_eintr (ans ev).
Proof.
  unfold sys_openat, returned. destruct (ans ev) as [v|e]; simpl.
  - replace (Z.of_N v <? 0) with false; [reflexivity|].
    symmetry. apply Z.ltb_ge. lia.
  - reflexivity.
Qed.

(** What a system call returns does not depend on the state it is made
    in. *)
Lemma sys_read_value (fd buf nbyte : Z) (ev : event) (w1 w2 : world) :
  fst (sys_read fd buf nbyte ev w1) = fst (sys_read fd buf nbyte ev w2).
Proof. reflexivity. Qed.

Lemma sys_write_value (fd buf nbyte : Z) (ev : event) (w1 w2 : world) :
  fst (sys_write fd buf nbyte ev w1) = fst (sys_write fd buf nbyte ev w2).
Proof. reflexivity. Qed.

Lemma sys_openat_value (dirfd file oflags mode : Z) (ev : event)
    (w1 w2 : world) :
  fst (sys_openat dirfd file oflags mode ev w1)
  = fst (sys_openat dirfd file oflags mode ev w2).
Proof. reflexivity. Qed.

Lemma sys_openat_quit (dirfd file oflags mode : Z) (ev : event) (w : world) :
  quit_requested (snd (sys_openat dirfd file oflags mode ev w))
  = quit_requested w || quit_arrives ev.
Proof. unfold sys_openat, returned. destruct (opened (ans ev)); reflexivity. Qed.

(** One step of each loop, with the pair of the system call taken apart. *)
Lemma intr_read_loop_cons (fd buf nbyte : Z) (ev : event) (k : script)
    (w : world) :
  intr_read_loop fd buf nbyte false (ev :: k) w
  = if is_eintr (ans ev)
    then intr_read_loop fd buf nbyte false k (snd (sys_read fd buf nbyte ev w))
    else Ret (fst (sys_read fd buf nbyte ev w))
           (k, snd (sys_read fd buf nbyte ev w)).
Proof.
  cbn [intr_read_loop]. rewrite <- (sys_read_retry fd buf nbyte ev w).
  destruct (sys_read fd buf nbyte ev w) as [r w1]. reflexivity.
Qed.

Lemma full_write_loop_cons (M fd buf nbyte bw : Z) (ev : event) (k : script)
    (w : world) :
  0 < nbyte ->
  let call := sys_write fd buf (Z.min nbyte M) ev w in
  full_write_loop M fd buf nbyte bw 0 (ev :: k) w
  = if fst call <? 0 then
      if is_eintr (ans ev)
      then full_write_loop M fd buf nbyte bw 0 k (snd call)
      else Ret bw (k, snd call)
    else full_write_loop M fd (buf + fst call) (nbyte - fst call)
           (bw + fst call) 0 k (snd call).
Proof.
  intros Hpos. cbv zeta. cbn [full_write_loop].
  replace (0 <? nbyte) with true by (symmetry; apply Z.ltb_lt; exact Hpos).
  pose proof (sys_write_retry fd buf (Z.min nbyte M) ev w) as Hretry.
  destruct (sys_write fd buf (Z.min nbyte M) ev w) as [n w1].
  cbn [fst snd] in *. destruct (n <? 0); [|reflexivity].
  cbn [andb] in Hretry. rewrite Hretry.
  destruct (is_eintr (ans ev)); reflexivity.
Qed.

Lemma openat_loop_cons (dirfd file oflags mode : Z) (ev : event) (k : script)
    (w : world) :
  let call := sys_openat dirfd file oflags mode ev w in
  openat_loop dirfd file oflags mode (ev :: k) w
  = if is_eintr (ans ev) then
      if quit_requested w || quit_arrives ev
      then Esc ByQuit (k, snd call)
      else openat_loop dirfd file oflags mode k (snd call)
    else Ret (fst call) (k, snd call).
Proof.
  cbv zeta. cbn [openat_loop].
  rewrite <- (sys_openat_retry dirfd file oflags mode ev w).
  rewrite <- (sys_openat_quit dirfd file oflags mode ev w).
  destruct (sys_openat dirfd file oflags mode ev w) as [r w1].
  cbn [fst snd]. destruct ((r <? 0) && (errno w1 =? EINTR)); [|reflexivity].
  unfold maybe_quit. destruct (quit_requested w1); reflexivity.
Qed.

Lemma is_eintr_EINTR (ev : event) : ans ev = Fail EINTR -> is_eintr (ans ev) = true.
Proof. intros ->. reflexivity. Qed.

(** What [emacs_read] lets the caller see does not depend on the state it
    starts the loop in: it never looks at the quit flag, and reads [errno]
    only after a failed call has set it. *)
Lemma intr_read_loop_observe (fd buf nbyte : Z) (k : script) (w1 w2 : world) :
  observe (intr_read_loop fd buf nbyte false k w1)
  = observe (intr_read_loop fd buf nbyte false k w2).
Proof.
  revert w1 w2. induction k as [|ev k IH]; intros w1 w2; [reflexivity|].
  rewrite !intr_read_loop_cons.
  destruct (is_eintr (ans ev)); [apply IH|].
  cbn [observe]. rewrite (sys_read_value fd buf nbyte ev w1 w2). reflexivity.
Qed.

Lemma intr_read_loop_interrupted (fd buf nbyte : Z) (ints rest : script)
    (w : world) :
  all_eintr ints ->
  observe (intr_read_loop fd buf nbyte false (ints ++ rest) w)
  = observe (intr_read_loop fd buf nbyte false rest w).
Proof.
  intros Hall. revert w. induction Hall as [|ev ints Hev _ IH]; intros w;
    [reflexivity|].
  rewrite <- app_comm_cons, intr_read_loop_cons, (is_eintr_EINTR ev Hev).
  rewrite IH. apply intr_read_loop_observe.
Qed.

Lemma emacs_read_interrupted (M fd buf nbyte : Z) (ints rest : script)
    (w : world) :
  all_eintr ints ->
  observe (emacs_read M fd buf nbyte (ints ++ rest) w)
  = observe (emacs_read M fd buf nbyte rest w).
Proof.
  intros Hall. unfold emacs_read, emacs_intr_read, eassert.
  destruct (checking w && negb (nbyte <=? M)); [reflexivity|].
  apply intr_read_loop_interrupted. exact Hall.
Qed.

(** The same for [emacs_write], whose [interruptible] is 0. *)
Lemma full_write_loop_observe (M fd : Z) (k : script) :
  forall (buf1 buf2 nbyte bw : Z) (w1 w2 : world),
    observe (full_write_loop M fd buf1 nbyte bw 0 k w1)
    = observe (full_write_loop M fd buf2 nbyte bw 0 k w2).
Proof.
  induction k as [|ev k IH]; intros buf1 buf2 nbyte bw w1 w2.
  - cbn [full_write_loop]. destruct (0 <? nbyte); reflexivity.
  - destruct (Z.ltb_spec 0 nbyte) as [Hpos|Hle].
    + rewrite !full_write_loop_cons by exact Hpos.
      rewrite (sys_write_value fd buf1 (Z.min nbyte M) ev w1 w2).
      change (fst (sys_write fd buf2 (Z.min nbyte M) ev w2))
        with (fst (sys_write fd buf1 (Z.min nbyte M) ev w2)).
      destruct (fst (sys_write fd buf1 (Z.min nbyte M) ev w2) <? 0).
      * destruct (is_eintr (ans ev)); [apply IH | reflexivity].
      * apply IH.
    + cbn [full_write_loop].
      replace (0 <? nbyte) with false by (symmetry; apply Z.ltb_ge; exact Hle).
      reflexivity.
Qed.

Lemma sys_write_EINTR (fd buf nbyte : Z) (ev : event) (w : world) :
  ans ev = Fail EINTR -> fst (sys_write fd buf nbyte ev w) = -1.
Proof. unfold sys_write, returned. intros ->. reflexivity. Qed.

Lemma full_write_loop_interrupted (M fd buf nbyte bw : Z) (ints rest : script)
    (w : world) :
  all_eintr ints ->
  observe (full_write_loop M fd buf nbyte bw 0 (ints ++ rest) w)
  = observe (full_write_loop M fd buf nbyte bw 0 rest w).
Proof.
  intros Hall. revert w. induction Hall as [|ev ints Hev _ IH]; intros w;
    [reflexivity|].
  rewrite <- app_comm_cons.
  destruct (Z.ltb_spec 0 nbyte) as [Hpos|Hle].
  - rewrite full_write_loop_cons by exact Hpos.
    rewrite (sys_write_EINTR _ _ _ ev w Hev), (is_eintr_EINTR ev Hev).
    change (-1 <? 0) with true. cbv iota.
    rewrite IH. apply full_write_loop_observe.
  - cbn [full_write_loop].
    replace (0 <? nbyte) with false by (symmetry; apply Z.ltb_ge; exact Hle).
    destruct rest; cbn [full_write_loop];
      replace (0 <? nbyte) with false
        by (symmetry; apply Z.ltb_ge; exact Hle); reflexivity.
Qed.

Lemma emacs_write_interrupted (M fd buf nbyte : Z) (ints rest : script)
    (w : world) :
  all_eintr ints ->
  observe (emacs_write M fd buf nbyte (ints ++ rest) w)
  = observe (emacs_write M fd buf nbyte rest w).
Proof. apply full_write_loop_interrupted. Qed.

(** [emacs_open] looks at the quit flag, and at nothing else of the state
    it starts in. *)
Lemma openat_loop_observe (dirfd file oflags mode : Z) (k : script)
    (w1 w2 : world) :
  quit_requested w1 = quit_requested w2 ->
  observe (openat_loop dirfd file oflags mode k w1)
  = observe (openat_loop dirfd file oflags mode k w2).
Proof.
  revert w1 w2. induction k as [|ev k IH]; intros w1 w2 Hq; [reflexivity|].
  rewrite !openat_loop_cons. rewrite Hq.
  destruct (is_eintr (ans ev)).
  - destruct (quit_requested w2 || quit_arrives ev) eqn:Hquit; [reflexivity|].
    apply IH. rewrite !sys_openat_quit, Hq. reflexivity.
  - cbn [observe].
    rewrite (sys_openat_value dirfd file oflags mode ev w1 w2). reflexivity.
Qed.

Lemma openat_loop_interrupted (dirfd file oflags mode : Z)
    (ints rest : script) (w : world) :
  all_eintr ints ->
  observe (openat_loop dirfd file oflags mode (ints ++ rest) w)
  = if quit_honoured w ints then Escapes ByQuit
    else observe (openat_loop dirfd file oflags mode rest w).
Proof.
  intros Hall. revert w. induction Hall as [|ev ints Hev _ IH]; intros w;
    [reflexivity|].
  rewrite <- app_comm_cons, openat_loop_cons, (is_eintr_EINTR ev Hev).
  cbn [quit_honoured existsb].
  destruct (quit_requested w) eqn:Hq; cbn [orb]; [reflexivity|].
  destruct (quit_arrives ev) eqn:Hev'; cbn [orb]; [reflexivity|].
  rewrite IH. unfold quit_honoured.
  rewrite sys_openat_quit, Hq, Hev'. cbn [orb].
  destruct ints as [|ev' ints'].
  - apply openat_loop_observe. rewrite sys_openat_quit, Hq, Hev'. reflexivity.
  - destruct (existsb quit_arrives (ev' :: ints')); [reflexivity|].
    apply openat_loop_observe. rewrite sys_openat_quit, Hq, Hev'. reflexivity.
Qed.

Lemma emacs_open_interrupted (file oflags mode : Z) (ints rest : script)
    (w : world) :
  all_eintr ints ->
  observe (emacs_open file oflags mode (ints ++ rest) w)
  = if quit_honoured w ints then Escapes ByQuit
    else observe (emacs_open file oflags mode rest w).
Proof. apply openat_loop_interrupted. Qed.

(** *** Where the wrappers return, and with what *)

Lemma sys_read_strace (fd buf nbyte : Z) (ev : event) (w : world) :
  strace (snd (sys_read fd buf nbyte ev w))
  = read_entry fd buf nbyte ev :: strace w.
Proof.
  unfold sys_read, returned, read_entry.
  destruct (transfer (ans ev) (size_t_of nbyte)); reflexivity.
Qed.

Lemma sys_read_errno (fd buf nbyte : Z) (ev : event) (w : world) (e : Z) :
  ans ev = Fail e -> errno (snd (sys_read fd buf nbyte ev w)) = e.
Proof. unfold sys_read, returned. intros ->. reflexivity. Qed.

Lemma sys_read_fst (fd buf nbyte : Z) (ev : event) (w : world) :
  fst (sys_read fd buf nbyte ev w)
  = retval (transfer (ans ev) (size_t_of nbyte)).
Proof. reflexivity. Qed.

Lemma is_eintr_false_Fail (e : Z) : is_eintr (Fail e) = false -> e <> EINTR.
Proof. cbn [is_eintr]. intros H. apply Z.eqb_neq. exact H. Qed.

Lemma is_eintr_true (a : answer) : is_eintr a = true -> a = Fail EINTR.
Proof.
  destruct a as [v|e]; cbn [is_eintr]; [discriminate|].
  intros H. apply Z.eqb_eq in H. subst e. reflexivity.
Qed.

(** [emacs_read] returns at the first answer that is not an interruption:
    the script splits into the interruptions, that answer, and what is left
    untouched; one read was made per answer used, each asking for [nbyte]
    bytes as given. *)
Lemma intr_read_loop_returns (fd buf nbyte : Z) (k : script) :
  forall (w : world) (r : Z) (k' : script) (w' : world),
    intr_read_loop fd buf nbyte false k w = Ret r (k', w') ->
    exists (ints : script) (ev : event),
      k = ints ++ ev :: k'
      /\ all_eintr ints
      /\ is_eintr (ans ev) = false
      /\ r = retval (transfer (ans ev) (size_t_of nbyte))
      /\ strace w'
         = read_entry fd buf nbyte ev
           :: rev (map (read_entry fd buf nbyte) ints) ++ strace w
      /\ match ans ev with Fail e => errno w' = e | Done _ => True end.
Proof.
  induction k as [|ev k IH]; intros w r k' w' Hret; [discriminate|].
  rewrite intr_read_loop_cons in Hret.
  destruct (is_eintr (ans ev)) eqn:Hev.
  - destruct (IH _ _ _ _ Hret) as (ints & ev' & Hk & Hall & Hev' & Hr & Hst & He).
    exists (ev :: ints), ev'. subst k.
    split; [reflexivity|]. split.
    { constructor; [apply is_eintr_true; exact Hev | exact Hall]. }
    split; [exact Hev'|]. split; [exact Hr|]. split; [|exact He].
    rewrite Hst, (sys_read_strace fd buf nbyte ev w). cbn [map rev].
    rewrite <- app_assoc. reflexivity.
  - injection Hret as Hr Hk Hw'. subst k' w'.
    exists [], ev. split; [reflexivity|]. split; [constructor|].
    split; [exact Hev|]. split; [rewrite <- Hr; reflexivity|].
    split; [apply sys_read_strace|].
    destruct (ans ev) as [v|e] eqn:Ha; [exact I | reflexivity].
Qed.

(** Conversely, interruptions followed by another answer make it return
    that answer's value, with the rest of the script unread. *)
Lemma intr_read_loop_first_answer (fd buf nbyte : Z) (ints : script)
    (ev : event) (rest : script) (w : world) :
  all_eintr ints ->
  is_eintr (ans ev) = false ->
  exists w',
    intr_read_loop fd buf nbyte false (ints ++ ev :: rest) w
    = Ret (retval (transfer (ans ev) (size_t_of nbyte))) (rest, w').
Proof.
  intros Hall Hev. revert w. induction Hall as [|i ints Hi _ IH]; intros w.
  - cbn [app]. rewrite intr_read_loop_cons, Hev. eexists. reflexivity.
  - rewrite <- app_comm_cons, intr_read_loop_cons, (is_eintr_EINTR i Hi).
    apply IH.
Qed.

(** Unfolding one round of [emacs_full_write], whatever [interruptible]. *)
Lemma full_write_loop_step (M fd buf nbyte bw i : Z) (ev : event) (k : script)
    (w : world) :
  0 < nbyte ->
  let call := sys_write fd buf (Z.min nbyte M) ev w in
  full_write_loop M fd buf nbyte bw i (ev :: k) w
  = if fst call <? 0 then
      if negb (errno (snd call) =? EINTR) then Ret bw (k, snd call)
      else
        match write_interrupted i (snd call) with
        | Esc e w2 => Esc e (k, w2)
        | Ret _ w2 => full_write_loop M fd buf nbyte bw i k w2
        end
    else full_write_loop M fd (buf + fst call) (nbyte - fst call)
           (bw + fst call) i k (snd call).
Proof.
  intros Hpos. cbv zeta. cbn [full_write_loop].
  replace (0 <? nbyte) with true by (symmetry; apply Z.ltb_lt; exact Hpos).
  destruct (sys_write fd buf (Z.min nbyte M) ev w) as [n w1]. reflexivity.
Qed.

Lemma full_write_loop_done (M fd buf nbyte bw i : Z) (k : script) (w : world) :
  nbyte <= 0 ->
  full_write_loop M fd buf nbyte bw i k w = Ret bw (k, w).
Proof.
  intros Hle. destruct k; cbn [full_write_loop];
    replace (0 <? nbyte) with false by (symmetry; apply Z.ltb_ge; exact Hle);
    reflexivity.
Qed.

Lemma sys_write_failed (fd buf nbyte : Z) (ev : event) (w : world) :
  fst (sys_write fd buf nbyte ev w) < 0 ->
  errno (snd (sys_write fd buf nbyte ev w)) <> EINTR ->
  failed_write fd (snd (sys_write fd buf nbyte ev w)).
Proof.
  unfold sys_write, returned, failed_write.
  destruct (ans ev) as [v|e]; cbn [transfer retval fst snd errno log set_errno
                                   strace raise_quit].
  - pose proof (size_t_of_nonneg nbyte). lia.
  - intros _ Hne. exists e, buf, (size_t_of nbyte), (strace w).
    split; [exact Hne|]. split; reflexivity.
Qed.


(** [emacs_full_write] returns the count it was asked for, or more if the
    kernel overshoots; or else its last write failed, and not with EINTR. *)
Lemma full_write_loop_short (M fd i : Z) (k : script) :
  forall (buf nbyte bw : Z) (w : world) (r : Z) (s : state),
    full_write_loop M fd buf nbyte bw i k w = Ret r s ->
    bw <= r
    /\ (bw + nbyte <= r \/ failed_write fd (snd s)).
Proof.
  induction k as [|ev k IH]; intros buf nbyte bw w r s Hret.
  - cbn [full_write_loop] in Hret.
    destruct (Z.ltb_spec 0 nbyte); [discriminate|].
    injection Hret as <- <-. split; [lia | left; lia].
  - destruct (Z.ltb_spec 0 nbyte) as [Hpos|Hle].
    + rewrite full_write_loop_step in Hret by exact Hpos.
      destruct (Z.ltb_spec (fst (sys_write fd buf (Z.min nbyte M) ev w)) 0)
        as [Hneg|Hnn].
      * destruct (Z.eqb_spec
                    (errno (snd (sys_write fd buf (Z.min nbyte M) ev w)))
                    EINTR) as [He|Hne]; cbn [negb] in Hret.
        -- destruct (write_interrupted i _) as [[] w2|e w2];
             [|discriminate].
           apply IH in Hret. exact Hret.
        -- injection Hret as <- <-. split; [lia|]. right.
           cbn [snd]. apply sys_write_failed; assumption.
      * apply IH in Hret. destruct Hret as [Hbw Hcases].
        split; [lia|]. destruct Hcases as [Hfull|Hfail];
          [left; lia | right; exact Hfail].
    + rewrite full_write_loop_done in Hret by exact Hle.
      injection Hret as <- <-. split; [lia | left; lia].
Qed.








Lemma openat_loop_returns (dirfd file oflags mode : Z) (k : script) :
  forall (w : world) (r : Z) (s : state),
    openat_loop dirfd file oflags mode k w = Ret r s ->
    0 <= r \/ (r = -1 /\ failed_open (snd s)).
Proof.
  induction k as [|ev k IH]; intros w r s Hret; [discriminate|].
  rewrite openat_loop_cons in Hret.
  destruct (is_eintr (ans ev)) eqn:Hev.
  - destruct (quit_requested w || quit_arrives ev); [discriminate|].
    apply IH in Hret. exact Hret.
  - injection Hret as <- <-. cbn [snd].
    unfold sys_openat, returned, failed_open.
    destruct (ans ev) as [v|e];
      cbn [opened retval fst snd errno log set_errno strace raise_quit].
    + left. lia.
    + right. split; [reflexivity|].
      exists e, dirfd, file, oflags, mode, (strace w).
      split; [apply is_eintr_false_Fail; exact Hev|]. split; reflexivity.
Qed.

Lemma emacs_read_returns (M fd buf nbyte : Z) (k : script) (w : world) :
  match emacs_read M fd buf nbyte k w with
  | Ret r (k', w') =>
      exists (ints : script) (ev : event),
        k = ints ++ ev :: k'
        /\ all_eintr ints
        /\ is_eintr (ans ev) = false
        /\ r = retval (transfer (ans ev) (size_t_of nbyte))
        /\ strace w'
           = read_entry fd buf nbyte ev
             :: rev (map (read_entry fd buf nbyte) ints) ++ strace w
        /\ match ans ev with Fail e => errno w' = e | Done _ => True end
  | Esc e _ =>
      e = Blocked \/ (e = ByAbort /\ checking w = true /\ M < nbyte)
  end.
Proof.
  unfold emacs_read, emacs_intr_read, eassert.
  destruct (checking w) eqn:Hc; cbn [andb].
  - destruct (Z.leb_spec nbyte M) as [Hle|Hgt]; cbn [negb].
    + destruct (intr_read_loop fd buf nbyte false k w) as [r [k' w']|e s] eqn:Hl.
      * apply intr_read_loop_returns. exact Hl.
      * left. clear Hc Hle. revert w e s Hl.
        induction k as [|ev k IH]; intros w e s Hl.
        -- injection Hl as <- _. reflexivity.
        -- rewrite intr_read_loop_cons in Hl.
           destruct (is_eintr (ans ev)); [|discriminate].
           eapply IH. exact Hl.
    + right. split; [reflexivity|]. split; [reflexivity | exact Hgt].
  - destruct (intr_read_loop fd buf nbyte false k w) as [r [k' w']|e s] eqn:Hl.
    + apply intr_read_loop_returns. exact Hl.
    + left. clear Hc. revert w e s Hl.
      induction k as [|ev k IH]; intros w e s Hl.
      * injection Hl as <- _. reflexivity.
      * rewrite intr_read_loop_cons in Hl.
        destruct (is_eintr (ans ev)); [|discriminate].
        eapply IH. exact Hl.
Qed.

Lemma emacs_read_error (M fd buf nbyte : Z) (k : script) (w : world) :
  match emacs_read M fd buf nbyte k w with
  | Ret r s => 0 <= r \/ (r = -1 /\ failed_read fd (snd s))
  | Esc _ _ => True
  end.
Proof.
  pose proof (emacs_read_returns M fd buf nbyte k w) as H.
  destruct (emacs_read M fd buf nbyte k w) as [r [k' w']|e s]; [|exact I].
  destruct H as (ints & ev & _ & _ & Hev & Hr & Hst & He).
  pose proof (size_t_of_nonneg nbyte).
  destruct (ans ev) as [v|e] eqn:Ha.
  - left. subst r. cbn [transfer retval]. lia.
  - right. subst r. split; [reflexivity|]. cbn [snd].
    exists e, buf, (size_t_of nbyte),
      (rev (map (read_entry fd buf nbyte) ints) ++ strace w).
    split; [apply is_eintr_false_Fail; exact Hev|].
    split; [exact He|]. rewrite Hst. unfold read_entry. rewrite Ha. reflexivity.
Qed.

Lemma emacs_write_error (M fd buf nbyte : Z) (k : script) (w : world) :
  match emacs_write M fd buf nbyte k w with
  | Ret r s => nbyte <= r \/ failed_write fd (snd s)
  | Esc _ _ => True
  end.
Proof.
  unfold emacs_write, emacs_full_write.
  destruct (full_write_loop M fd buf nbyte 0 0 k w) as [r s|e s] eqn:Hl;
    [|exact I].
  apply full_write_loop_short in Hl. destruct Hl as [_ [Hfull|Hfail]];
    [left; lia | right; exact Hfail].
Qed.

Lemma emacs_open_error (file oflags mode : Z) (k : script) (w : world) :
  match emacs_open file oflags mode k w with
  | Ret r s => 0 <= r \/ (r = -1 /\ failed_open (snd s))
  | Esc _ _ => True
  end.
Proof.
  unfold emacs_open, emacs_openat.
  destruct (openat_loop AT_FDCWD file (open_flags oflags) mode k w)
    as [r s|e s] eqn:Hl; [|exact I].
  apply openat_loop_returns in Hl. exact Hl.
Qed.

Lemma emacs_read_retry_transparent (M fd buf nbyte : Z) :
  retry_transparent (emacs_read M fd buf nbyte).
Proof. intros ints success rest w Hall _. apply emacs_read_interrupted, Hall. Qed.

Lemma emacs_write_retry_transparent (M fd buf nbyte : Z) :
  retry_transparent (emacs_write M fd buf nbyte).
Proof. intros ints success rest w Hall _. apply emacs_write_interrupted, Hall. Qed.

(** Counterexample to claim C1 as stated, for [emacs_open].  A quit typed while the
    open is blocked interrupts it; [emacs_open] then calls [maybe_quit],
    which leaves by the non-local exit, where an open that succeeds at once
    returns the descriptor. *)
Lemma emacs_open_interrupted_by_quit :
  observe (emacs_open 0 0 0 [interrupted true; Event (Done 3) false] idle)
  = Escapes ByQuit
  /\ observe (emacs_open 0 0 0 [Event (Done 3) false] idle) = Returns 3
  /\ ~ retry_transparent (emacs_open 0 0 0).
Proof.
  split; [reflexivity|]. split; [reflexivity|].
  intros H.
  specialize (H [interrupted true] (Event (Done 3) false) [] idle).
  assert (Hall : all_eintr [interrupted true])
    by (repeat constructor).
  specialize (H Hall eq_refl). discriminate H.
Qed.

(** Claim C1, amended.  Interruptions do not show: whatever the script goes on
    with after them, [emacs_read] and [emacs_write] let the caller see what
    they would without the interruptions; so does [emacs_open] unless a
    quit is pending or arrives when it is interrupted, in which case it
    leaves through the quit and does not return.  No wrapper that returns
    reports EINTR: a negative value of [emacs_read] or [emacs_open], and a
    count of [emacs_write] short of [nbyte], come with the [errno] of a last
    call that failed otherwise. *)
Theorem retry_wrappers_transparent
    (M fd buf nbyte file oflags mode : Z) (ints rest : script) (w : world) :
  all_eintr ints ->
  observe (emacs_read M fd buf nbyte (ints ++ rest) w)
  = observe (emacs_read M fd buf nbyte rest w)
  /\ observe (emacs_write M fd buf nbyte (ints ++ rest) w)
     = observe (emacs_write M fd buf nbyte rest w)
  /\ observe (emacs_open file oflags mode (ints ++ rest) w)
     = (if quit_honoured w ints then Escapes ByQuit
        else observe (emacs_open file oflags mode rest w))
  /\ match emacs_read M fd buf nbyte (ints ++ rest) w with
     | Ret r s => 0 <= r \/ (r = -1 /\ failed_read fd (snd s))
     | Esc _ _ => True
     end
  /\ match emacs_write M fd buf nbyte (ints ++ rest) w with
     | Ret r s => nbyte <= r \/ failed_write fd (snd s)
     | Esc _ _ => True
     end
  /\ match emacs_open file oflags mode (ints ++ rest) w with
     | Ret r s => 0 <= r \/ (r = -1 /\ failed_open (snd s))
     | Esc _ _ => True
     end.
Proof.
  intros Hall.
  split; [apply emacs_read_interrupted; exact Hall|].
  split; [apply emacs_write_interrupted; exact Hall|].
  split; [apply emacs_open_interrupted; exact Hall|].
  split; [apply emacs_read_error|].
  split; [apply emacs_write_error | apply emacs_open_error].
Qed.

Lemma retry_wrappers_transparent_witness :
  all_eintr [interrupted false; interrupted true]
  /\ observe (emacs_read max_rw_count 0 0 100
                ([interrupted false; interrupted true]
                 ++ [Event (Done 5) false]) idle)
     = observe (emacs_read max_rw_count 0 0 100 [Event (Done 5) false] idle)
  /\ observe (emacs_write max_rw_count 1 0 5
                ([interrupted false; interrupted true]
                 ++ [Event (Done 5) false]) idle)
     = observe (emacs_write max_rw_count 1 0 5 [Event (Done 5) false] idle)
  /\ observe (emacs_open 0 0 0
                ([interrupted false; interrupted true]
                 ++ [Event (Done 5) false]) idle)
     = Escapes ByQuit.
Proof.
  assert (Hall : all_eintr [interrupted false; interrupted true])
    by (repeat constructor).
  split; [exact Hall|].
  destruct (retry_wrappers_transparent max_rw_count 0 0 100 0 0 0
              [interrupted false; interrupted true] [Event (Done 5) false]
              idle Hall) as (Hread & _).
  destruct (retry_wrappers_transparent max_rw_count 1 0 5 0 0 0
              [interrupted false; interrupted true] [Event (Done 5) false]
              idle Hall) as (_ & Hwrite & Hopen & _).
  split; [exact Hread|]. split; [exact Hwrite | exact Hopen].
Defined.

(** *** The lengths asked of the kernel *)


Example emacs_read_aborts_when_checking :
  observe (emacs_read max_rw_count 0 0 (max_rw_count + 1)
             [Event (Done 4294967296) false]
             {| errno := 0; quit_requested := false; pending_signals := false;
                checking := true; noninteractive := false; open_fds := ∅;
                input_available_clear_time := None; tty_list := [];
                strace := [] |})
  = Escapes ByAbort.
Proof. reflexivity. Qed.

(** A write of 10 bytes that goes through in pieces of 4, 4 and 2 bytes,
    with an interruption in between. *)
Example emacs_write_loops :
  emacs_write max_rw_count 1 1000 10
    [Event (Done 4) false; interrupted false; Event (Done 4) false;
     Event (Done 7) false] idle
  = Ret 10
      ([], {| errno := EINTR; quit_requested := false;
              pending_signals := false; checking := false;
              noninteractive := false; open_fds := ∅;
              input_available_clear_time := None; tty_list := [];
              strace := [SysWrite 1 1008 2 (Ok 2);
                         SysWrite 1 1004 6 (Ok 4);
                         SysWrite 1 1004 6 (Error EINTR);
                         SysWrite 1 1000 10 (Ok 4)] |}).
Proof. reflexivity. Qed.

(** The same write, cut short by an I/O error after 4 bytes. *)
Example emacs_write_short_on_error :
  match emacs_write max_rw_count 1 1000 10
          [Event (Done 4) false; Event (Fail EIO) false] idle with
  | Ret r (_, w') => r = 4 /\ errno w' = EIO
  | Esc _ _ => False
  end.
Proof. split; reflexivity. Qed.

(** A write larger than [MAX_RW_COUNT] is asked of the kernel in pieces of
    at most [MAX_RW_COUNT] bytes. *)
Example emacs_write_splits_large_request :
  match emacs_write max_rw_count 1 0 (max_rw_count + 10)
          [Event (Done 4294967296) false; Event (Done 4294967296) false]
          idle with
  | Ret r (_, w') =>
      r = max_rw_count + 10
      /\ strace w' = [SysWrite 1 max_rw_count 10 (Ok 10);
                      SysWrite 1 0 max_rw_count (Ok max_rw_count)]
  | Esc _ _ => False
  end.
Proof. vm_compute. split; reflexivity. Qed.



(** ** Closing a descriptor (sysdep.c, posix_close and emacs_close) *)

(** Counterexample to claim C4 as stated, where an interrupted close keeps
    the descriptor open.  On a system whose [close] fails with EINTR and leaves the
    descriptor open ("in other systems (e.g., HP/UX) FD is not closed"),
    [posix_close] pretends that the close succeeded, so [emacs_close]
    returns 0 and the descriptor is still valid ("it may leak a file
    descriptor on other systems"). *)
Lemma emacs_close_leaks_when_close_keeps_fd :
  emacs_close 5 [CloseFailed EINTR false] one_open
  = Ret 0 ([], log (SysClose 5 (Error EINTR)) (set_errno EINTR one_open))
  /\ 5 ∈ open_fds (log (SysClose 5 (Error EINTR)) (set_errno EINTR one_open))
  /\ ~ closed_on_return.
Proof.
  assert (Hrun : emacs_close 5 [CloseFailed EINTR false] one_open
                 = Ret 0 ([], log (SysClose 5 (Error EINTR))
                                (set_errno EINTR one_open)))
    by (vm_compute; reflexivity).
  assert (Hopen : 5 ∈ open_fds (log (SysClose 5 (Error EINTR))
                                  (set_errno EINTR one_open)))
    by (cbn [open_fds log set_errno one_open]; apply elem_of_singleton;
        reflexivity).
  split; [exact Hrun|]. split; [exact Hopen|].
  intros H. apply (H 5 _ _ _ _ Hrun). exact Hopen.
Qed.

(** On GNU/Linux the same interruption has released the descriptor. *)
Example emacs_close_interrupted_on_linux :
  match emacs_close 5 [CloseFailed EINTR true] one_open with
  | Ret r (_, w') => r = 0 /\ open_fds w' = ∅
  | Esc _ _ => False
  end.
Proof. vm_compute. split; reflexivity. Qed.

Example emacs_close_io_error :
  match emacs_close 5 [CloseFailed EIO true] one_open with
  | Ret r (_, w') => r = -1 /\ errno w' = EIO /\ open_fds w' = ∅
  | Esc _ _ => False
  end.
Proof. vm_compute. repeat split; reflexivity. Qed.

Example emacs_close_in_progress :
  match emacs_close 5 [CloseFailed EINPROGRESS true] one_open with
  | Ret r (_, w') => r = 0 /\ open_fds w' = ∅
  | Esc _ _ => False
  end.
Proof. vm_compute. split; reflexivity. Qed.

Example emacs_close_bad_descriptor :
  match emacs_close 7 [Closed] one_open with
  | Ret r (_, w') => r = -1 /\ errno w' = EBADF /\ open_fds w' = {[ 5 ]}
  | Esc _ _ => False
  end.
Proof. vm_compute. repeat split; reflexivity. Qed.

Lemma sys_close_spec (fd : Z) (a : close_answer) (w : world) :
  let w' := snd (sys_close fd a w) in
  fst (sys_close fd a w) = retval (close_result fd a w)
  /\ strace w' = SysClose fd (close_result fd a w) :: strace w
  /\ errno w'
     = match close_result fd a w with Ok _ => errno w | Error e => e end
  /\ checking w' = checking w
  /\ open_fds w'
     = if bool_decide (fd ∈ open_fds w) && releases a
       then open_fds w ∖ {[fd]} else open_fds w.
Proof.
  unfold sys_close, close_result, returned. cbv zeta.
  destruct (bool_decide (fd ∈ open_fds w)); cbn [andb].
  - destruct a as [|e released]; cbn [releases].
    + repeat split; reflexivity.
    + destruct released; repeat split; reflexivity.
  - repeat split; reflexivity.
Qed.

(** One round of [emacs_close], with the system call taken apart. *)
Lemma emacs_close_cons (fd : Z) (a : close_answer) (k : close_script)
    (w : world) :
  let call := sys_close fd a w in
  let r := if (fst call =? 0) || (errno (snd call) =? EINTR) then 0 else -1 in
  emacs_close fd (a :: k) w
  = if r =? 0 then Ret r (k, snd call)
    else if negb (errno (snd call) =? EINTR) then
      if checking (snd call)
         && negb (negb (errno (snd call) =? EBADF) || (fd <? 0))
      then Esc ByAbort (k, snd call)
      else Ret (if errno (snd call) =? EINPROGRESS then 0 else r) (k, snd call)
    else emacs_close fd k (snd call).
Proof.
  cbv zeta. cbn [emacs_close]. unfold posix_close, eassert.
  replace (POSIX_CLOSE_RESTART =? POSIX_CLOSE_RESTART) with true
    by (symmetry; apply Z.eqb_refl).
  cbn [negb]. rewrite andb_false_r. cbn [bind].
  destruct (sys_close fd a w) as [r w1]. cbn [fst snd].
  destruct ((r =? 0) || (errno w1 =? EINTR)).
  - reflexivity.
  - change (-1 =? 0) with false. cbv iota.
    replace (POSIX_CLOSE_RESTART =? 0) with false by reflexivity.
    cbn [orb]. destruct (negb (errno w1 =? EINTR)); [|reflexivity].
    destruct (checking w1 && _); reflexivity.
Qed.

(** Claim C4, amended.  When [emacs_close] returns, the descriptor is no
    longer valid, even when -1 is returned, exactly if the underlying
    [close] released it or it was not valid before: a [close] that succeeds
    always releases it, and a [close] that fails does on GNU/Linux and AIX;
    where a [close] that fails, by EINTR say, keeps the descriptor, it is
    still valid on return.  No other descriptor is touched.  Whether or not
    the descriptor was released, a [close] that fails with EINTR or
    EINPROGRESS counts as a success: 0 is returned; -1 is returned only
    with another [errno], that of the [close], so never with EINTR.  The
    only way not to return is the failed [eassert] of a checking build on
    EBADF for a nonnegative descriptor. *)
Theorem emacs_close_contract
    (fd : Z) (a : close_answer) (k : close_script) (w : world) :
  match emacs_close fd (a :: k) w with
  | Ret r (k', w') =>
      strace w' = SysClose fd (close_result fd a w) :: strace w
      /\ (fd ∈ open_fds w' <-> fd ∈ open_fds w /\ releases a = false)
      /\ (forall fd', fd' <> fd -> fd' ∈ open_fds w' <-> fd' ∈ open_fds w)
      /\ match close_result fd a w with
         | Ok _ => r = 0
         | Error e =>
             errno w' = e
             /\ (if (e =? EINTR) || (e =? EINPROGRESS) then r = 0 else r = -1)
         end
      /\ ~ (r = -1 /\ errno w' = EINTR)
  | Esc e (k', w') =>
      e = ByAbort /\ checking w = true /\ 0 <= fd
      /\ close_result fd a w = Error EBADF
  end.
Proof.
  rewrite emacs_close_cons. cbv zeta.
  pose proof (sys_close_spec fd a w) as (Hret & Hst & Herr & Hchk & Hfds).
  destruct (sys_close fd a w) as [r w1]. cbn [fst snd] in *.
  assert (Hown : fd ∈ open_fds w1 <-> fd ∈ open_fds w /\ releases a = false).
  { rewrite Hfds. case_bool_decide as Hin; cbn [andb].
    - destruct (releases a).
      + rewrite elem_of_difference, elem_of_singleton.
        split; [tauto | intros [_ H]; discriminate H].
      + tauto.
    - tauto. }
  assert (Hothers : forall fd', fd' <> fd ->
                      fd' ∈ open_fds w1 <-> fd' ∈ open_fds w).
  { intros fd' Hne. rewrite Hfds.
    destruct (bool_decide (fd ∈ open_fds w) && releases a); [|tauto].
    rewrite elem_of_difference, elem_of_singleton. tauto. }
  assert (Hfacts : forall r' : Z,
            match close_result fd a w with
            | Ok _ => r' = 0
            | Error e =>
                errno w1 = e
                /\ (if (e =? EINTR) || (e =? EINPROGRESS)
                    then r' = 0 else r' = -1)
            end ->
            strace w1 = SysClose fd (close_result fd a w) :: strace w
            /\ (fd ∈ open_fds w1 <-> fd ∈ open_fds w /\ releases a = false)
            /\ (forall fd', fd' <> fd ->
                  fd' ∈ open_fds w1 <-> fd' ∈ open_fds w)
            /\ match close_result fd a w with
               | Ok _ => r' = 0
               | Error e =>
                   errno w1 = e
                   /\ (if (e =? EINTR) || (e =? EINPROGRESS)
                       then r' = 0 else r' = -1)
               end
            /\ ~ (r' = -1 /\ errno w1 = EINTR)).
  { intros r' Hr. split; [exact Hst|]. split; [exact Hown|].
    split; [exact Hothers|]. split; [exact Hr|].
    intros [Hm He]. destruct (close_result fd a w) as [v|e].
    - rewrite Hr in Hm. discriminate Hm.
    - destruct Hr as [He' Hr]. rewrite <- He', He in Hr.
      change ((EINTR =? EINTR) || (EINTR =? EINPROGRESS)) with true in Hr.
      cbv iota in Hr. rewrite Hr in Hm. discriminate Hm. }
  destruct (close_result fd a w) as [v|e] eqn:Hres; cbn [retval] in Hret.
  - assert (v = 0) as ->.
    { unfold close_result in Hres. case_bool_decide; [|discriminate].
      destruct a; [injection Hres as <-; reflexivity | discriminate]. }
    subst r. cbn [Z.eqb orb]. apply Hfacts. reflexivity.
  - subst r. change (-1 =? 0) with false. cbn [orb].
    rewrite Herr.
    destruct (Z.eqb_spec e EINTR) as [->|Hne].
    + cbn [orb Z.eqb]. apply Hfacts. split; [exact Herr | reflexivity].
    + change (-1 =? 0) with false. cbn [negb orb]. rewrite Hchk.
      destruct (checking w) eqn:Hc; cbn [andb].
      * destruct (Z.eqb_spec e EBADF) as [->|Hnb]; cbn [negb orb].
        -- destruct (Z.ltb_spec fd 0) as [Hneg|Hnn]; cbn [negb].
           ++ change (EBADF =? EINPROGRESS) with false.
              apply Hfacts. split; [exact Herr | reflexivity].
           ++ split; [reflexivity|]. split; [reflexivity|].
              split; [exact Hnn | reflexivity].
        -- apply Hfacts. split; [exact Herr|].
           destruct (e =? EINPROGRESS); reflexivity.
      * apply Hfacts. split; [exact Herr|].
        destruct (e =? EINPROGRESS); reflexivity.
Qed.

(** ** Waiting for a child (sysdep.c, get_child_status,
    wait_for_termination and child_status_changed) *)

Lemma sys_waitpid_spec (child : Z) (status : bool) (options : Z)
    (ev : wait_event) (w : world) :
  sys_waitpid child status options ev w
  = (retval (wait_result child ev), stored status ev,
     after_wait child status options ev w).
Proof.
  unfold after_wait, sys_waitpid, wait_result, stored.
  destruct (found ev); reflexivity.
Qed.

Lemma after_wait_strace (child : Z) (status : bool) (options : Z)
    (ev : wait_event) (w : world) :
  strace (after_wait child status options ev w)
  = wait_entry child status options ev :: strace w.
Proof.
  unfold after_wait, returned, wait_entry.
  destruct (wait_result child ev); reflexivity.
Qed.

Lemma after_wait_errno (child : Z) (status : bool) (options : Z)
    (ev : wait_event) (w : world) (e : Z) :
  found ev = WaitFailed e ->
  errno (after_wait child status options ev w) = e.
Proof.
  unfold after_wait, returned, wait_result. intros ->. reflexivity.
Qed.

Lemma after_wait_quit (child : Z) (status : bool) (options : Z)
    (ev : wait_event) (w : world) :
  quit_requested (after_wait child status options ev w)
  = quit_requested w || quit_during_wait ev.
Proof.
  unfold after_wait, returned. destruct (wait_result child ev); reflexivity.
Qed.

Lemma wake_strace (pid : Z) (status : bool) (w : world) :
  strace (wake pid status w) = strace w.
Proof. unfold wake. destruct (_ && _); reflexivity. Qed.

Lemma wake_errno (pid : Z) (status : bool) (w : world) :
  errno (wake pid status w) = errno w.
Proof. unfold wake. destruct (_ && _); reflexivity. Qed.

(** One round of the loop of [get_child_status], for a positive [child]. *)
Lemma child_status_loop_cons (child : Z) (status : bool) (options : Z)
    (interruptible : bool) (ev : wait_event) (k : wait_script) (w : world) :
  0 < child ->
  child_status_loop child status options interruptible (ev :: k) w
  = if interruptible && quit_requested w then Esc ByQuit (ev :: k, w)
    else
      let pid := retval (wait_result child ev) in
      let w1 := after_wait child status options ev w in
      if wait_eintr ev
      then child_status_loop child status options interruptible k w1
      else Ret (pid, stored status ev)
             (k, if 0 <=? pid then wake pid status w1 else w1).
Proof.
  intros Hpos. cbn [child_status_loop]. unfold maybe_quit.
  destruct interruptible; cbn [andb].
  - destruct (quit_requested w); [reflexivity|].
    rewrite sys_waitpid_spec. cbv zeta.
    unfold wait_eintr, wait_result.
    pose proof (after_wait_errno child status options ev w) as Herr.
    destruct (found ev) as [st| |e]; cbn [retval].
    + replace (0 <=? child) with true by (symmetry; apply Z.leb_le; lia).
      reflexivity.
    + reflexivity.
    + change (0 <=? -1) with false. cbv iota.
      rewrite (Herr e eq_refl). destruct (e =? EINTR); reflexivity.
  - rewrite sys_waitpid_spec. cbv zeta.
    unfold wait_eintr, wait_result.
    pose proof (after_wait_errno child status options ev w) as Herr.
    destruct (found ev) as [st| |e]; cbn [retval].
    + replace (0 <=? child) with true by (symmetry; apply Z.leb_le; lia).
      reflexivity.
    + reflexivity.
    + change (0 <=? -1) with false. cbv iota.
      rewrite (Herr e eq_refl). destruct (e =? EINTR); reflexivity.
Qed.

Lemma wait_eintr_true (ev : wait_event) :
  wait_eintr ev = true -> found ev = WaitFailed EINTR.
Proof.
  unfold wait_eintr. destruct (found ev) as [st| |e]; try discriminate.
  intros H. apply Z.eqb_eq in H. subst e. reflexivity.
Qed.

Lemma wait_eintr_EINTR (ev : wait_event) :
  found ev = WaitFailed EINTR -> wait_eintr ev = true.
Proof. unfold wait_eintr. intros ->. reflexivity. Qed.

(** The loop returns at the first answer that is not an interruption,
    having called [waitpid] once per answer used, each time on [child] and
    with the same options. *)
Lemma child_status_loop_returns (child : Z) (status : bool) (options : Z)
    (interruptible : bool) (k : wait_script) :
  0 < child ->
  forall (w : world) (v : Z * option Z) (k' : wait_script) (w' : world),
    child_status_loop child status options interruptible k w = Ret v (k', w') ->
    exists (ints : wait_script) (ev : wait_event),
      k = ints ++ ev :: k'
      /\ all_wait_eintr ints
      /\ wait_eintr ev = false
      /\ v = (retval (wait_result child ev), stored status ev)
      /\ strace w'
         = wait_entry child status options ev
           :: rev (map (wait_entry child status options) ints) ++ strace w
      /\ match found ev with
         | WaitFailed e => errno w' = e
         | _ => True
         end.
Proof.
  intros Hpos. induction k as [|ev k IH]; intros w v k' w' Hret.
  - cbn [child_status_loop] in Hret. unfold maybe_quit in Hret.
    destruct interruptible; [destruct (quit_requested w)|]; discriminate.
  - rewrite child_status_loop_cons in Hret by exact Hpos.
    destruct (interruptible && quit_requested w); [discriminate|].
    cbv zeta in Hret. destruct (wait_eintr ev) eqn:Hev.
    + destruct (IH _ _ _ _ Hret)
        as (ints & ev' & Hk & Hall & Hev' & Hv & Hst & He).
      exists (ev :: ints), ev'. subst k.
      split; [reflexivity|]. split.
      { constructor; [apply wait_eintr_true; exact Hev | exact Hall]. }
      split; [exact Hev'|]. split; [exact Hv|]. split; [|exact He].
      rewrite Hst, after_wait_strace. cbn [map rev].
      rewrite <- app_assoc. reflexivity.
    + injection Hret as <- <- <-.
      exists [], ev. split; [reflexivity|]. split; [constructor|].
      split; [exact Hev|]. split; [reflexivity|]. split.
      * destruct (0 <=? _); rewrite ?wake_strace; apply after_wait_strace.
      * destruct (found ev) as [st| |e] eqn:Hf; try exact I.
        unfold wait_result. rewrite Hf. cbn [retval].
        change (0 <=? -1) with false. cbv iota.
        apply after_wait_errno. exact Hf.
Qed.

(** The loop leaves without returning only while still waiting, or by a
    quit when it is interruptible. *)
Lemma child_status_loop_escapes (child : Z) (status : bool) (options : Z)
    (interruptible : bool) (k : wait_script) :
  0 < child ->
  forall (w : world) (e : escape) (s : wait_script * world),
    child_status_loop child status options interruptible k w = Esc e s ->
    e = Blocked \/ (e = ByQuit /\ interruptible = true).
Proof.
  intros Hpos. induction k as [|ev k IH]; intros w e s Hesc.
  - cbn [child_status_loop] in Hesc. unfold maybe_quit in Hesc.
    destruct interruptible; [destruct (quit_requested w)|];
      injection Hesc as <- _; auto.
  - rewrite child_status_loop_cons in Hesc by exact Hpos.
    destruct interruptible; cbn [andb] in Hesc.
    + destruct (quit_requested w).
      * injection Hesc as <- _. auto.
      * cbv zeta in Hesc. destruct (wait_eintr ev); [|discriminate].
        eapply IH. exact Hesc.
    + cbv zeta in Hesc. destruct (wait_eintr ev); [|discriminate].
      eapply IH. exact Hesc.
Qed.

(** Interruptions, any number of them, are followed by another [waitpid];
    only a quit, where the wait is interruptible, ends the loop before the
    answer that follows them is taken. *)
Lemma child_status_loop_first_answer (child : Z) (status : bool)
    (options : Z) (interruptible : bool) (ints : wait_script)
    (ev : wait_event) (rest : wait_script) :
  0 < child ->
  all_wait_eintr ints ->
  wait_eintr ev = false ->
  forall w : world,
    (exists w',
       child_status_loop child status options interruptible
         (ints ++ ev :: rest) w
       = Ret (retval (wait_result child ev), stored status ev) (rest, w'))
    \/ (interruptible = true
        /\ observe (child_status_loop child status options interruptible
                      (ints ++ ev :: rest) w)
           = Escapes ByQuit).
Proof.
  intros Hpos Hall Hev. induction Hall as [|i ints Hi _ IH]; intros w.
  - cbn [app]. rewrite child_status_loop_cons by exact Hpos.
    destruct interruptible; cbn [andb].
    + destruct (quit_requested w); [right; split; reflexivity|].
      cbv zeta. rewrite Hev. left. eexists. reflexivity.
    + cbv zeta. rewrite Hev. left. eexists. reflexivity.
  - rewrite <- app_comm_cons, child_status_loop_cons by exact Hpos.
    destruct interruptible; cbn [andb].
    + destruct (quit_requested w); [right; split; reflexivity|].
      cbv zeta. rewrite (wait_eintr_EINTR i Hi). apply IH.
    + cbv zeta. rewrite (wait_eintr_EINTR i Hi). apply IH.
Qed.

Lemma child_status_loop_calls (child : Z) (status : bool) (options : Z)
    (interruptible : bool) (k : wait_script) :
  0 < child ->
  forall w : world,
  exists new,
    strace (snd (final (child_status_loop child status options interruptible
                          k w)))
    = new ++ strace w
    /\ Forall (waits_on child options) new.
Proof.
  intros Hpos. induction k as [|ev k IH]; intros w.
  - exists []. split; [|constructor].
    cbn [child_status_loop]. unfold maybe_quit.
    destruct interruptible; [destruct (quit_requested w)|]; reflexivity.
  - rewrite child_status_loop_cons by exact Hpos.
    destruct (interruptible && quit_requested w);
      [exists []; split; [reflexivity | constructor]|].
    cbv zeta.
    assert (Hentry : waits_on child options
                       (wait_entry child status options ev))
      by (split; reflexivity).
    destruct (wait_eintr ev).
    + destruct (IH (after_wait child status options ev w))
        as (new & Hnew & Hall).
      exists (new ++ [wait_entry child status options ev]).
      rewrite Hnew, after_wait_strace, <- app_assoc.
      split; [reflexivity|]. apply Forall_app.
      split; [exact Hall | constructor; [exact Hentry | constructor]].
    + exists [wait_entry child status options ev]. cbn [final snd].
      split; [|constructor; [exact Hentry | constructor]].
      destruct (0 <=? _); rewrite ?wake_strace; apply after_wait_strace.
Qed.

Lemma polled_retval (child : Z) (ev : wait_event) :
  retval (wait_result child ev) = polled child ev.
Proof. unfold wait_result, polled. destruct (found ev); reflexivity. Qed.

Lemma waited_retval (child : Z) (ev : wait_event) :
  0 < child -> (0 <=? retval (wait_result child ev)) = waited ev.
Proof.
  intros Hpos. unfold wait_result, waited.
  destruct (found ev); cbn [retval]; [|reflexivity | reflexivity].
  apply Z.leb_le. lia.
Qed.

Lemma get_child_status_positive (child : Z) (status : bool) (options : Z)
    (interruptible : bool) (k : wait_script) (w : world) :
  0 < child ->
  get_child_status child status options interruptible k w
  = child_status_loop child status options interruptible k w.
Proof.
  intros Hpos. unfold get_child_status, eassert.
  replace (0 <? child) with true by (symmetry; apply Z.ltb_lt; exact Hpos).
  cbn [negb]. rewrite andb_false_r. reflexivity.
Qed.

Lemma WNOHANG_set (options : Z) : Z.testbit (Z.lor WNOHANG options) 0 = true.
Proof. rewrite Z.lor_spec. reflexivity. Qed.

(** A child changes status with exit status word 256, after two
    interruptions of the wait. *)
Example wait_for_termination_after_interruptions :
  wait_for_termination 4242 true false
    [WaitEvent (WaitFailed EINTR) false; WaitEvent (WaitFailed EINTR) true;
     WaitEvent (Changed 256) false]
    {| errno := 0; quit_requested := false; pending_signals := false;
       checking := true; noninteractive := false; open_fds := ∅;
       input_available_clear_time := Some (3, 500); tty_list := [];
       strace := [] |}
  = Ret (true, Some 256)
      ([], {| errno := EINTR; quit_requested := true;
              pending_signals := false; checking := true;
              noninteractive := false; open_fds := ∅;
              input_available_clear_time := Some (0, 0); tty_list := [];
              strace := [SysWaitpid 4242 true 0 (Ok 4242);
                         SysWaitpid 4242 true 0 (Error EINTR);
                         SysWaitpid 4242 true 0 (Error EINTR)] |}).
Proof. reflexivity. Qed.

Example child_status_changed_not_yet :
  match child_status_changed 4242 true 0 [WaitEvent Unchanged false] idle with
  | Ret (pid, st) (_, w') =>
      pid = 0 /\ st = None
      /\ strace w' = [SysWaitpid 4242 true WNOHANG (Ok 0)]
  | Esc _ _ => False
  end.
Proof. repeat split; reflexivity. Qed.

Example wait_for_termination_buggy_waitpid :
  match wait_for_termination 4242 false true
          [WaitEvent (WaitFailed ECHILD) false] idle with
  | Ret (ok, _) (_, w') => ok = false /\ errno w' = ECHILD
  | Esc _ _ => False
  end.
Proof. split; reflexivity. Qed.

(** After any number of interruptions the loop takes the answer that
    follows them, unless it is interruptible and finds a quit to honour
    first; it then leaves before the next [waitpid]. *)
Lemma child_status_loop_answer (child : Z) (status : bool) (options : Z)
    (interruptible : bool) (ints : wait_script) (ev : wait_event)
    (rest : wait_script) :
  0 < child -> all_wait_eintr ints -> wait_eintr ev = false ->
  forall w : world,
    if wait_quit_honoured interruptible w ints
    then
      exists k' w',
        child_status_loop child status options interruptible
          (ints ++ ev :: rest) w
        = Esc ByQuit (k', w')
        /\ ints ++ ev :: rest
           = waited_before_quit (quit_requested w) ints ++ k'
        /\ strace w'
           = rev (map (wait_entry child status options)
                    (waited_before_quit (quit_requested w) ints))
             ++ strace w
    else
      exists w',
        child_status_loop child status options interruptible
          (ints ++ ev :: rest) w
        = Ret (retval (wait_result child ev), stored status ev) (rest, w')
        /\ strace w'
           = wait_entry child status options ev
             :: rev (map (wait_entry child status options) ints) ++ strace w
        /\ match found ev with
           | WaitFailed e => errno w' = e
           | _ => True
           end.
Proof.
  intros Hpos Hall Hev. unfold wait_quit_honoured.
  induction Hall as [|i ints Hi _ IH]; intros w.
  - cbn [app existsb waited_before_quit map rev]. rewrite orb_false_r.
    rewrite child_status_loop_cons by exact Hpos.
    destruct (interruptible && quit_requested w).
    + exists (ev :: rest), w. repeat split.
    + cbv zeta. rewrite Hev. eexists. split; [reflexivity|]. split.
      * destruct (0 <=? _); rewrite ?wake_strace; apply after_wait_strace.
      * destruct (found ev) as [st| |e] eqn:Hf; try exact I.
        unfold wait_result. rewrite Hf. cbn [retval].
        change (0 <=? -1) with false. cbv iota.
        apply after_wait_errno. exact Hf.
  - rewrite <- app_comm_cons, child_status_loop_cons by exact Hpos.
    cbn [existsb waited_before_quit].
    destruct interruptible; cbn [andb] in *.
    + destruct (quit_requested w) eqn:Hq; cbn [orb].
      * exists (i :: ints ++ ev :: rest), w. repeat split.
      * cbv zeta. rewrite (wait_eintr_EINTR i Hi).
        specialize (IH (after_wait child status options i w)).
        rewrite after_wait_quit, Hq in IH. cbn [orb] in IH.
        destruct (quit_during_wait i || existsb quit_during_wait ints).
        -- destruct IH as (k' & w' & Hesc & Hk & Hst).
           exists k', w'. split; [exact Hesc|].
           split; [cbn [app]; f_equal; exact Hk|].
           rewrite Hst, after_wait_strace. cbn [map rev].
           rewrite <- app_assoc. reflexivity.
        -- destruct IH as (w' & Hret & Hst & Herr).
           exists w'. split; [exact Hret|]. split; [|exact Herr].
           rewrite Hst, after_wait_strace. cbn [map rev].
           rewrite <- app_assoc. reflexivity.
    + cbv zeta. rewrite (wait_eintr_EINTR i Hi).
      destruct (IH (after_wait child status options i w))
        as (w' & Hret & Hst & Herr).
      exists w'. split; [exact Hret|]. split; [|exact Herr].
      rewrite Hst, after_wait_strace. cbn [map rev].
      rewrite <- app_assoc. reflexivity.
Qed.

(** However the answers run: the loop leaves by a quit exactly when it is
    interruptible and a quit was pending or arrived during a call it made,
    all of them interrupted; it is held up only with every answer used,
    all of them interruptions. *)
Lemma child_status_loop_leaves (child : Z) (status : bool) (options : Z)
    (interruptible : bool) (k : wait_script) :
  0 < child ->
  forall (w : world) (e : escape) (k' : wait_script) (w' : world),
    child_status_loop child status options interruptible k w
    = Esc e (k', w') ->
    exists made,
      k = made ++ k' /\ all_wait_eintr made
      /\ ((e = Blocked /\ k' = []
           /\ wait_quit_honoured interruptible w made = false)
          \/ (e = ByQuit
              /\ wait_quit_honoured interruptible w made = true)).
Proof.
  intros Hpos. unfold wait_quit_honoured.
  induction k as [|ev k IH]; intros w e k' w' Hesc.
  - cbn [child_status_loop] in Hesc. unfold maybe_quit in Hesc.
    exists []. cbn [app existsb]. rewrite orb_false_r.
    destruct interruptible; [destruct (quit_requested w) eqn:Hq|];
      injection Hesc as <- <- <-;
      (split; [reflexivity|]); (split; [constructor|]);
      [right | left | left]; repeat split; reflexivity.
  - rewrite child_status_loop_cons in Hesc by exact Hpos.
    destruct (interruptible && quit_requested w) eqn:Hnow.
    + injection Hesc as <- <- <-. exists [].
      split; [reflexivity|]. split; [constructor|]. right.
      split; [reflexivity|]. cbn [existsb]. rewrite orb_false_r. exact Hnow.
    + cbv zeta in Hesc. destruct (wait_eintr ev) eqn:Hev; [|discriminate].
      destruct (IH _ _ _ _ Hesc) as (made & Hk & Hall & Hcases).
      exists (ev :: made). split; [cbn [app]; f_equal; exact Hk|].
      split; [constructor; [apply wait_eintr_true; exact Hev | exact Hall]|].
      rewrite after_wait_quit in Hcases. cbn [existsb].
      rewrite <- orb_assoc in Hcases. exact Hcases.
Qed.

(** Counterexample to claim C3 as stated, for an interruptible wait.  A
    quit typed while the wait is blocked interrupts [waitpid];
    [get_child_status] then calls [maybe_quit] before it would wait again,
    and leaves by the non-local exit: the interruption is not retried, and
    the change of status that the next [waitpid] would report is not
    taken. *)
Lemma wait_for_termination_interrupted_by_quit :
  observe (wait_for_termination 4242 true true
             [WaitEvent (WaitFailed EINTR) true; WaitEvent (Changed 256) false]
             idle)
  = Escapes ByQuit
  /\ strace (snd (final (wait_for_termination 4242 true true
                           [WaitEvent (WaitFailed EINTR) true;
                            WaitEvent (Changed 256) false] idle)))
     = [SysWaitpid 4242 true 0 (Error EINTR)]
  /\ observe (wait_for_termination 4242 true false
                [WaitEvent (WaitFailed EINTR) true;
                 WaitEvent (Changed 256) false] idle)
     = Returns (true, Some 256)
  /\ ~ wait_retries_eintr.
Proof.
  split; [reflexivity|]. split; [reflexivity|]. split; [reflexivity|].
  intros H.
  specialize (H 4242 true true [WaitEvent (WaitFailed EINTR) true]
                (WaitEvent (Changed 256) false) [] idle).
  assert (Hall : all_wait_eintr [WaitEvent (WaitFailed EINTR) true])
    by (repeat constructor).
  specialize (H eq_refl Hall eq_refl). discriminate H.
Qed.

(** Claim C3, amended.  For a strictly positive child pid.  Whatever the
    number of interruptions before it, the first answer of [waitpid] that
    is not EINTR decides: the blocking wait returns false when that answer
    is a failure (with its [errno], not EINTR) and true otherwise, having
    called [waitpid] once per interruption and once more; except that an
    interruptible wait leaves by the quit, before it waits again, exactly
    when a quit is pending at entry or arrives during one of the
    interrupted calls.  The poll returns the child's pid when its status
    changed, 0 when no status is available yet and -1 when [waitpid]
    failed, and passes the don't-hang option.  On any script, the blocking
    wait returns false only after a [waitpid] that failed otherwise than
    with EINTR; it leaves by a quit only as said, and is held up only with
    every answer an interruption; and every [waitpid] either operation
    makes is on [child] itself, so never on a nonpositive pid. *)
Theorem child_wait_contract
    (child : Z) (status interruptible : bool) (options : Z)
    (ints : wait_script) (ev : wait_event) (rest k : wait_script)
    (w : world) :
  0 < child ->
  all_wait_eintr ints ->
  wait_eintr ev = false ->
  (if wait_quit_honoured interruptible w ints
   then
     exists k' w',
       wait_for_termination child status interruptible (ints ++ ev :: rest) w
       = Esc ByQuit (k', w')
       /\ ints ++ ev :: rest
          = waited_before_quit (quit_requested w) ints ++ k'
       /\ strace w'
          = rev (map (wait_entry child status 0)
                   (waited_before_quit (quit_requested w) ints))
            ++ strace w
   else
     exists w',
       wait_for_termination child status interruptible (ints ++ ev :: rest) w
       = Ret (waited ev, stored status ev) (rest, w')
       /\ strace w'
          = wait_entry child status 0 ev
            :: rev (map (wait_entry child status 0) ints) ++ strace w
       /\ (waited ev = false -> failed_wait child w'))
  /\ (exists w',
        child_status_changed child status options (ints ++ ev :: rest) w
        = Ret (polled child ev, stored status ev) (rest, w')
        /\ strace w'
           = wait_entry child status (Z.lor WNOHANG options) ev
             :: rev (map (wait_entry child status (Z.lor WNOHANG options))
                       ints)
             ++ strace w
        /\ Z.testbit (Z.lor WNOHANG options) 0 = true)
  /\ match wait_for_termination child status interruptible k w with
     | Ret (ok, _) (_, w') => ok = true \/ failed_wait child w'
     | Esc e (k', w') =>
         exists made,
           k = made ++ k' /\ all_wait_eintr made
           /\ ((e = Blocked /\ k' = []
                /\ wait_quit_honoured interruptible w made = false)
               \/ (e = ByQuit
                   /\ wait_quit_honoured interruptible w made = true))
     end
  /\ (exists new,
        strace (snd (final (wait_for_termination child status interruptible
                              k w)))
        = new ++ strace w
        /\ Forall (waits_on child 0) new)
  /\ (exists new,
        strace (snd (final (child_status_changed child status options k w)))
        = new ++ strace w
        /\ Forall (waits_on child (Z.lor WNOHANG options)) new).
Proof.
  intros Hpos Hall Hev.
  split; [|split; [|split; [|split]]].
  - unfold wait_for_termination.
    rewrite get_child_status_positive by exact Hpos.
    pose proof (child_status_loop_answer child status 0 interruptible ints ev
                  rest Hpos Hall Hev w) as H.
    destruct (wait_quit_honoured interruptible w ints).
    + destruct H as (k' & w' & Hesc & Hk & Hst).
      exists k', w'. rewrite Hesc. split; [reflexivity|].
      split; [exact Hk | exact Hst].
    + destruct H as (w' & Hret & Hst & Herr).
      exists w'. rewrite Hret. cbn [bind fst snd].
      rewrite (waited_retval child ev Hpos). split; [reflexivity|].
      split; [exact Hst|]. intros Hfalse.
      unfold waited in Hfalse. unfold wait_entry, wait_result in Hst.
      destruct (found ev) as [st| |e] eqn:Hf; try discriminate Hfalse.
      exists e, status, 0, (rev (map (wait_entry child status 0) ints)
                              ++ strace w).
      split; [|split; [exact Herr | exact Hst]].
      unfold wait_eintr in Hev. rewrite Hf in Hev.
      apply Z.eqb_neq. exact Hev.
  - unfold child_status_changed.
    rewrite get_child_status_positive by exact Hpos.
    pose proof (child_status_loop_answer child status (Z.lor WNOHANG options)
                  false ints ev rest Hpos Hall Hev w) as H.
    cbn [wait_quit_honoured andb] in H.
    destruct H as (w' & Hret & Hst & _).
    exists w'. rewrite Hret, polled_retval. split; [reflexivity|].
    split; [exact Hst | apply WNOHANG_set].
  - unfold wait_for_termination.
    rewrite get_child_status_positive by exact Hpos.
    destruct (child_status_loop child status 0 interruptible k w)
      as [[pid st] [k' w']|e [k' w']] eqn:Hl; cbn [bind fst snd].
    + destruct (child_status_loop_returns child status 0 interruptible k
                  Hpos _ _ _ _ Hl)
        as (ints' & ev' & _ & _ & Hev' & Hv & Hst & He).
      injection Hv as -> _. rewrite (waited_retval child ev' Hpos).
      unfold waited. unfold wait_entry, wait_result in Hst.
      destruct (found ev') as [s| |e] eqn:Hf; [left; reflexivity ..|].
      right. exists e, status, 0, (rev (map (wait_entry child status 0) ints')
                                     ++ strace w).
      split; [|split; [exact He | exact Hst]].
      unfold wait_eintr in Hev'. rewrite Hf in Hev'.
      apply Z.eqb_neq. exact Hev'.
    + eapply child_status_loop_leaves; [exact Hpos | exact Hl].
  - unfold wait_for_termination.
    rewrite get_child_status_positive by exact Hpos.
    destruct (child_status_loop_calls child status 0 interruptible k Hpos w)
      as (new & Hnew & Hforall).
    exists new. split; [|exact Hforall]. rewrite <- Hnew.
    destruct (child_status_loop child status 0 interruptible k w);
      reflexivity.
  - unfold child_status_changed.
    rewrite get_child_status_positive by exact Hpos.
    apply child_status_loop_calls. exact Hpos.
Qed.

Lemma child_wait_contract_witness :
  0 < 4242
  /\ all_wait_eintr [WaitEvent (WaitFailed EINTR) false]
  /\ wait_eintr (WaitEvent (Changed 256) false) = false
  /\ exists w',
       child_status_changed 4242 true 0
         ([WaitEvent (WaitFailed EINTR) false]
          ++ WaitEvent (Changed 256) false :: []) idle
       = Ret (4242, Some 256) ([], w')
       /\ strace w'
          = [SysWaitpid 4242 true WNOHANG (Ok 4242);
             SysWaitpid 4242 true WNOHANG (Error EINTR)]
       /\ Z.testbit (Z.lor WNOHANG 0) 0 = true.
Proof.
  assert (Hpos : 0 < 4242) by reflexivity.
  assert (Hall : all_wait_eintr [WaitEvent (WaitFailed EINTR) false])
    by (repeat constructor).
  assert (Hev : wait_eintr (WaitEvent (Changed 256) false) = false)
    by reflexivity.
  split; [exact Hpos|]. split; [exact Hall|]. split; [exact Hev|].
  destruct (child_wait_contract 4242 true false 0
              [WaitEvent (WaitFailed EINTR) false]
              (WaitEvent (Changed 256) false) [] [] idle Hpos Hall Hev)
    as (_ & Hpoll & _).
  exact Hpoll.
Defined.

(** ** Terminal modes (sysdep.c, emacs_set_tty and discard_tty_input) *)

Lemma after_set_strace (fd : Z) (act : optional_actions) (t : termios)
    (a : answer) (w : world) :
  strace (after_set fd act t a w)
  = SysTcsetattr fd act t (set_result a) :: strace w.
Proof. unfold after_set, sys_tcsetattr, returned. destruct a; reflexivity. Qed.

Lemma after_set_errno (fd : Z) (act : optional_actions) (t : termios)
    (e : Z) (w : world) :
  errno (after_set fd act t (Fail e) w) = e.
Proof. reflexivity. Qed.

Lemma after_get_strace (fd : Z) (g : get_answer) (w : world) :
  strace (after_get fd g w)
  = SysTcgetattr fd (get_result g) (readback g) :: strace w.
Proof. unfold after_get, sys_tcgetattr, returned. destruct g; reflexivity. Qed.

(** One iteration of the loop of [emacs_set_tty]. *)
Lemma set_tty_loop_S (n : nat) (fd : Z) (settings : emacs_tty)
    (flushp : bool) (k : tty_script) (w : world) :
  set_tty_loop (S n) fd settings flushp k w
  = match set_answers k with
    | [] => Esc Blocked (k, w)
    | a :: sets =>
        let k1 := {| set_answers := sets; get_answers := get_answers k |} in
        let w1 := after_set fd (requested_action flushp) (main settings) a w in
        match a with
        | Fail e =>
            if e =? EINTR then set_tty_loop n fd settings flushp k1 w1
            else Ret (-1) (k1, w1)
        | Done _ =>
            match get_answers k with
            | [] => Esc Blocked (k1, w1)
            | g :: gets =>
                let k2 := {| set_answers := sets; get_answers := gets |} in
                let w2 := after_get fd g w1 in
                if settings_match (readback g) (main settings)
                then Ret 0 (k2, w2)
                else set_tty_loop n fd settings flushp k2 w2
            end
        end
    end.
Proof.
  cbn [set_tty_loop]. destruct (set_answers k) as [|a sets]; [reflexivity|].
  cbv zeta. unfold after_set, after_get, requested_action.
  destruct a as [v|e].
  - cbn [sys_tcsetattr returned retval fst snd get_answers].
    change (0 <? 0) with false. cbv iota.
    destruct (get_answers k) as [|g gets]; [reflexivity|].
    destruct g as [t|e]; reflexivity.
  - cbn [sys_tcsetattr returned retval fst snd get_answers].
    change (-1 <? 0) with true. cbv iota. reflexivity.
Qed.

Lemma settings_match_spec (t wanted : termios) :
  settings_match t wanted = true <-> readback_matches t wanted.
Proof.
  unfold settings_match, readback_matches, same_cc.
  rewrite !andb_true_iff, !Z.eqb_eq, bool_decide_eq_true. tauto.
Qed.

Lemma attempts_log_cons (fd : Z) (act : optional_actions) (wanted : termios)
    (a : attempt) (l : list attempt) :
  attempts_log fd act wanted (a :: l)
  = attempts_log fd act wanted l ++ rev (attempt_calls fd act wanted a).
Proof.
  unfold attempts_log. cbn [map concat]. apply rev_app_distr.
Qed.

(** A round that is retried, put before the rounds that follow it. *)
Lemma set_tty_rounds_more (n : nat) (fd : Z) (act : optional_actions)
    (wanted : termios) (w0 w : world) (o : outcome tty_state Z)
    (a : attempt) :
  strace w = rev (attempt_calls fd act wanted a) ++ strace w0 ->
  retried wanted a ->
  set_tty_rounds n fd act wanted w o ->
  set_tty_rounds (S n) fd act wanted w0 o.
Proof.
  intros Hst Hretried Ho. unfold set_tty_rounds in *.
  destruct o as [r [k' w']|e [k' w']]; [|exact Ho].
  destruct Ho as (attempts & Hlog & Hle & Hcases).
  exists (a :: attempts).
  rewrite attempts_log_cons, Hlog, Hst, <- app_assoc.
  split; [reflexivity|]. split; [cbn [length]; lia|].
  destruct Hcases as [(Hr & Hlen & Hall)|(before & last & Hat & Hall & Hend)].
  - left. split; [exact Hr|]. split; [cbn [length]; lia|].
    constructor; assumption.
  - right. exists (a :: before), last. subst attempts.
    split; [reflexivity|]. split; [constructor; assumption | exact Hend].
Qed.

Lemma set_tty_loop_rounds (n : nat) (fd : Z) (settings : emacs_tty)
    (flushp : bool) :
  forall (k : tty_script) (w : world),
    set_tty_rounds n fd (requested_action flushp) (main settings) w
      (set_tty_loop n fd settings flushp k w).
Proof.
  induction n as [|n IH]; intros k w.
  - cbn [set_tty_loop set_tty_rounds]. exists [].
    split; [reflexivity|]. split; [reflexivity|].
    left. split; [reflexivity|]. split; [reflexivity | constructor].
  - rewrite set_tty_loop_S.
    destruct (set_answers k) as [|a sets] eqn:Hsets.
    { cbn [set_tty_rounds]. split; [reflexivity | left; exact Hsets]. }
    cbv zeta. destruct a as [v|e].
    + destruct (get_answers k) as [|g gets] eqn:Hgets.
      { cbn [set_tty_rounds get_answers].
        split; [reflexivity | right; reflexivity]. }
      pose proof (after_set_strace fd (requested_action flushp)
                    (main settings) (Done v) w) as Hs1.
      pose proof (after_get_strace fd g
                    (after_set fd (requested_action flushp) (main settings)
                       (Done v) w)) as Hs2.
      rewrite Hs1 in Hs2. cbn [set_result] in Hs2.
      destruct (settings_match (readback g) (main settings)) eqn:Hm.
      * cbn [set_tty_rounds].
        exists [ReadBack (get_result g) (readback g)].
        split; [exact Hs2|]. split; [cbn [length]; lia|].
        right. exists [], (ReadBack (get_result g) (readback g)).
        split; [reflexivity|]. split; [constructor|].
        split; [apply settings_match_spec; exact Hm | reflexivity].
      * eapply (set_tty_rounds_more n fd _ _ w _ _
                 (ReadBack (get_result g) (readback g)));
          [exact Hs2 | | apply IH].
        cbn [retried]. rewrite <- settings_match_spec, Hm. discriminate.
    + pose proof (after_set_strace fd (requested_action flushp)
                    (main settings) (Fail e) w) as Hs1.
      cbn [set_result] in Hs1.
      destruct (Z.eqb_spec e EINTR) as [->|Hne].
      * eapply (set_tty_rounds_more n fd _ _ w _ _ Interrupted);
          [exact Hs1 | exact I | apply IH].
      * cbn [set_tty_rounds]. exists [Refused e].
        split; [exact Hs1|]. split; [cbn [length]; lia|].
        right. exists [], (Refused e).
        split; [reflexivity|]. split; [constructor|].
        split; [exact Hne|]. split; reflexivity.
Qed.

(** The loop is bounded: with ten answers of each kind at hand,
    [emacs_set_tty] returns. *)
Lemma set_tty_loop_returns (n : nat) (fd : Z) (settings : emacs_tty)
    (flushp : bool) :
  forall (k : tty_script) (w : world),
    (n <= length (set_answers k))%nat ->
    (n <= length (get_answers k))%nat ->
    exists r s, set_tty_loop n fd settings flushp k w = Ret r s.
Proof.
  induction n as [|n IH]; intros k w Hs Hg.
  - eexists _, _. reflexivity.
  - rewrite set_tty_loop_S.
    destruct (set_answers k) as [|a sets]; [cbn [length] in Hs; lia|].
    destruct (get_answers k) as [|g gets] eqn:Hgets;
      [cbn [length] in Hg; lia|].
    cbn [length] in Hs, Hg. cbv zeta. destruct a as [v|e].
    + destruct (settings_match _ _); [eexists _, _; reflexivity|].
      apply IH; cbn [set_answers get_answers]; lia.
    + destruct (e =? EINTR); [|eexists _, _; reflexivity].
      apply IH; cbn [set_answers get_answers length]; lia.
Qed.

(** The driver says yes to the first [tcsetattr] but shows other settings;
    the second attempt is interrupted; the third one takes. *)
Example emacs_set_tty_reads_back :
  match emacs_set_tty 0 {| main := cooked |} true
          {| set_answers := [Done 0; Fail EINTR; Done 0];
             get_answers := [Attributes zeroed; Attributes cooked] |}
          idle with
  | Ret r (k', w') =>
      r = 0
      /\ strace w' = [SysTcgetattr 0 (Ok 0) cooked;
                      SysTcsetattr 0 TCSAFLUSH cooked (Ok 0);
                      SysTcsetattr 0 TCSAFLUSH cooked (Error EINTR);
                      SysTcgetattr 0 (Ok 0) zeroed;
                      SysTcsetattr 0 TCSAFLUSH cooked (Ok 0)]
  | Esc _ _ => False
  end.
Proof. vm_compute. split; reflexivity. Qed.

(** After ten attempts that never read back right, it gives up and still
    returns 0. *)
Example emacs_set_tty_gives_up :
  match emacs_set_tty 0 {| main := cooked |} false
          {| set_answers := replicate 12 (Done 0);
             get_answers := replicate 12 (Attributes zeroed) |}
          idle with
  | Ret r (k', w') =>
      r = 0 /\ set_count (strace w') = 10%nat
      /\ length (set_answers k') = 2%nat
  | Esc _ _ => False
  end.
Proof. vm_compute. repeat split; reflexivity. Qed.

Example emacs_set_tty_not_a_tty :
  match emacs_set_tty 7 {| main := cooked |} false
          {| set_answers := [Fail ENOTTY]; get_answers := [] |} idle with
  | Ret r (_, w') => r = -1 /\ errno w' = ENOTTY
  | Esc _ _ => False
  end.
Proof. vm_compute. split; reflexivity. Qed.

(** Claim C6.  What [emacs_set_tty] adds to the log is a sequence of at
    most ten rounds, each one a [tcsetattr] on its descriptor with the
    settings and the action it was given: one that was interrupted, one
    that failed otherwise, or one that succeeded and is followed at once by
    the [tcgetattr] that reads the settings back.  Every round before the
    last is an interruption or a readback that differs from the settings
    asked for in [c_iflag], [c_oflag], [c_cflag], [c_lflag] or the first
    [NCCS] control characters.  The loop ends with the first round that is
    a failure other than EINTR, and then -1 is returned with the [errno] of
    that failure, or a readback equal in those fields, and then 0 is
    returned; for want of such a round it ends after the tenth and returns
    0.  So -1 is returned exactly when a [tcsetattr] failed with an error
    other than EINTR, and 0 in every other case.  [emacs_set_tty] does not
    return only while the driver has not answered: with ten answers of each
    kind at hand it returns. *)
Theorem emacs_set_tty_contract
    (fd : Z) (settings : emacs_tty) (flushp : bool) (k : tty_script)
    (w : world) :
  match emacs_set_tty fd settings flushp k w with
  | Ret r (_, w') =>
      exists attempts,
        strace w'
        = attempts_log fd (requested_action flushp) (main settings) attempts
          ++ strace w
        /\ (length attempts <= 10)%nat
        /\ ((r = 0 /\ length attempts = 10%nat
             /\ Forall (retried (main settings)) attempts)
            \/ exists before last,
                 attempts = before ++ [last]
                 /\ Forall (retried (main settings)) before
                 /\ match last with
                    | Interrupted => False
                    | Refused e => e <> EINTR /\ r = -1 /\ errno w' = e
                    | ReadBack _ t =>
                        readback_matches t (main settings) /\ r = 0
                    end)
        /\ (r = -1 <-> exists e, e <> EINTR /\ Refused e ∈ attempts)
        /\ (r = 0 \/ r = -1)
  | Esc e (k', _) =>
      e = Blocked /\ (set_answers k' = [] \/ get_answers k' = [])
  end
  /\ ((length (set_answers k) < 10)%nat
      \/ (length (get_answers k) < 10)%nat
      \/ exists r s, emacs_set_tty fd settings flushp k w = Ret r s).
Proof.
  split.
  - pose proof (set_tty_loop_rounds 10 fd settings flushp k w) as H.
    unfold emacs_set_tty.
    destruct (set_tty_loop 10 fd settings flushp k w)
      as [r [k' w']|e [k' w']]; cbn [set_tty_rounds] in H; [|exact H].
    destruct H as (attempts & Hst & Hle & Hcases).
    exists attempts. split; [exact Hst|]. split; [exact Hle|].
    assert (Hclean : forall l e, Forall (retried (main settings)) l ->
                       Refused e ∉ l).
    { intros l e Hall Hin. rewrite Forall_forall in Hall.
      exact (Hall (Refused e) Hin). }
    destruct Hcases as [(Hr & Hlen & Hall)|(before & last & Hat & Hall & Hend)].
    + split; [left; split; [exact Hr | split; assumption]|].
      split; [|left; exact Hr]. split.
      * intros Hm. rewrite Hr in Hm. discriminate Hm.
      * intros (e & _ & Hin). exfalso. exact (Hclean _ _ Hall Hin).
    + split; [right; exists before, last; split; [exact Hat|];
              split; [exact Hall|]; destruct last; exact Hend|].
      destruct last as [|e|rr t]; cbn [settled] in Hend; [contradiction| |].
      * destruct Hend as (Hne & Hr & _).
        split; [|right; exact Hr]. split; [|intros _; exact Hr].
        intros _. exists e. split; [exact Hne|]. subst attempts.
        apply elem_of_app. right. apply list_elem_of_here.
      * destruct Hend as (_ & Hr). split; [|left; exact Hr]. split.
        -- intros Hm. rewrite Hr in Hm. discriminate Hm.
        -- intros (e & _ & Hin). exfalso. subst attempts.
           apply elem_of_app in Hin. destruct Hin as [Hin|Hin].
           ++ exact (Hclean _ _ Hall Hin).
           ++ apply list_elem_of_singleton in Hin. discriminate Hin.
  - destruct (Nat.lt_ge_cases (length (set_answers k)) 10) as [Hs|Hs];
      [left; exact Hs|].
    destruct (Nat.lt_ge_cases (length (get_answers k)) 10) as [Hg|Hg];
      [right; left; exact Hg|].
    right. right. apply set_tty_loop_returns; assumption.
Qed.

(** All the calls of the loop of [emacs_set_tty], however it ends. *)
Lemma set_tty_loop_calls (n : nat) (fd : Z) (settings : emacs_tty)
    (flushp : bool) :
  forall (k : tty_script) (w : world),
  exists new,
    strace (snd (final (set_tty_loop n fd settings flushp k w)))
    = new ++ strace w
    /\ Forall (tty_call fd (requested_action flushp) (main settings)) new.
Proof.
  induction n as [|n IH]; intros k w.
  - exists []. split; [reflexivity | constructor].
  - rewrite set_tty_loop_S.
    destruct (set_answers k) as [|a sets];
      [exists []; split; [reflexivity | constructor]|].
    cbv zeta.
    pose proof (after_set_strace fd (requested_action flushp)
                  (main settings) a w) as Hs1.
    destruct a as [v|e].
    + destruct (get_answers k) as [|g gets].
      { eexists [_]. cbn [final snd]. split; [exact Hs1|].
        repeat constructor. }
      pose proof (after_get_strace fd g
                    (after_set fd (requested_action flushp) (main settings)
                       (Done v) w)) as Hs2.
      rewrite Hs1 in Hs2.
      destruct (settings_match _ _).
      * eexists [_; _]. cbn [final snd]. split; [exact Hs2|].
        repeat constructor.
      * destruct (IH {| set_answers := sets; get_answers := gets |}
                    (after_get fd g
                       (after_set fd (requested_action flushp)
                          (main settings) (Done v) w)))
          as (new & Hnew & Hall).
        eexists (new ++ [_; _]). rewrite Hnew, Hs2, <- app_assoc.
        split; [reflexivity|]. apply Forall_app.
        split; [exact Hall | repeat constructor].
    + destruct (e =? EINTR).
      * destruct (IH {| set_answers := sets; get_answers := get_answers k |}
                    (after_set fd (requested_action flushp) (main settings)
                       (Fail e) w))
          as (new & Hnew & Hall).
        eexists (new ++ [_]). rewrite Hnew, Hs1, <- app_assoc.
        split; [reflexivity|]. apply Forall_app.
        split; [exact Hall | repeat constructor].
      * eexists [_]. cbn [final snd]. split; [exact Hs1|].
        repeat constructor.
Qed.

Lemma tty_call_drains (fd : Z) (t : termios) (c : syscall) :
  tty_call fd (requested_action false) t c -> drains c.
Proof.
  destruct c; cbn [tty_call drains]; try tauto.
  all: intros (_ & Hact & _); exact Hact.
Qed.

Lemma discard_loop_drains (ttys : list tty_display_info) :
  forall (k : tty_script) (w : world),
  exists new,
    strace (snd (final (discard_loop ttys k w))) = new ++ strace w
    /\ Forall drains new.
Proof.
  induction ttys as [|tty next IH]; intros k w.
  - exists []. split; [reflexivity | constructor].
  - cbn [discard_loop]. destruct (input tty) as [fd|]; [|apply IH].
    unfold emacs_get_tty.
    destruct (get_answers k) as [|g rest];
      [exists []; split; [reflexivity | constructor]|].
    pose proof (after_get_strace fd g w) as Hg. unfold after_get in Hg.
    destruct (sys_tcgetattr fd zeroed g w) as [[r t] w1]. cbn [snd] in Hg.
    destruct (set_tty_loop_calls 10 fd {| main := t |} false
                {| set_answers := set_answers k; get_answers := rest |} w1)
      as (new1 & Hnew1 & Hall1).
    unfold emacs_set_tty.
    destruct (set_tty_loop 10 fd {| main := t |} false _ w1)
      as [r' [k2 w2]|e s]; cbn [final snd] in Hnew1.
    + destruct (IH k2 w2) as (new2 & Hnew2 & Hall2).
      exists (new2 ++ new1 ++ [SysTcgetattr fd (get_result g) (readback g)]).
      rewrite Hnew2, Hnew1, Hg, <- !app_assoc. split; [reflexivity|].
      apply Forall_app. split; [exact Hall2|].
      apply Forall_app. split; [|repeat constructor].
      eapply Forall_impl; [exact Hall1|].
      intros c. apply tty_call_drains.
    + exists (new1 ++ [SysTcgetattr fd (get_result g) (readback g)]).
      cbn [final]. rewrite Hnew1, Hg, <- app_assoc. split; [reflexivity|].
      apply Forall_app. split; [|repeat constructor].
      eapply Forall_impl; [exact Hall1|].
      intros c. apply tty_call_drains.
Qed.

(** Claim C7, which the code breaks.  [discard_tty_input] gets the
    mode of each terminal that has an input stream and sets that same mode
    back, but with [flushp] 0: every [tcsetattr] it makes, on any list of
    terminals and whatever the driver answers, is made with TCSADRAIN, never
    with TCSAFLUSH, so no pending input is discarded.  On the terminal of
    descriptor 0 above: one [tcgetattr], one [tcsetattr] with TCSADRAIN of
    what was read, and the readback; nothing on the suspended terminal. *)
Theorem discard_tty_input_does_not_flush :
  (forall (k : tty_script) (w : world),
     exists new,
       strace (snd (final (discard_tty_input k w))) = new ++ strace w
       /\ Forall drains new)
  /\ requested_action true = TCSAFLUSH
  /\ match discard_tty_input
             {| set_answers := [Done 0];
                get_answers := [Attributes cooked; Attributes cooked] |}
             two_ttys with
     | Ret _ (_, w') =>
         strace w' = [SysTcgetattr 0 (Ok 0) cooked;
                      SysTcsetattr 0 TCSADRAIN cooked (Ok 0);
                      SysTcgetattr 0 (Ok 0) cooked]
     | Esc _ _ => False
     end.
Proof.
  split; [|split; [reflexivity | vm_compute; reflexivity]].
  intros k w. unfold discard_tty_input.
  destruct (noninteractive w);
    [exists []; split; [reflexivity | constructor]|].
  apply discard_loop_drains.
Qed.

(** ** Further properties of the code *)

(** *** Words of flag bits *)

(** Equations between words built with [Z.lor], [Z.land] and [Z.lnot] hold
    when they hold bit by bit; hypotheses of the same kind are brought
    down to the bit in question first. *)
Ltac to_bits n Hn :=
  repeat match goal with
         | H : @eq Z _ _ |- _ =>
             apply (f_equal (fun z => Z.testbit z n)) in H; revert H
         end;
  repeat first [ rewrite Z.lor_spec | rewrite Z.land_spec
               | rewrite (Z.lnot_spec _ _ Hn) | rewrite Z.bits_0 ].

Ltac bitwise :=
  unfold set_bits, clear_bits, has_bits, lacks_bits in *;
  intros; apply Z.bits_inj'; intros n Hn; to_bits n Hn;
  repeat match goal with
         | |- context [Z.testbit ?c n] => destruct (Z.testbit c n)
         end;
  cbn [andb orb negb]; congruence.

Lemma lacks_bits_clear (x m : Z) : lacks_bits (clear_bits x m) m.
Proof. bitwise. Qed.

Lemma lacks_bits_clear_other (x m m' : Z) :
  lacks_bits x m -> lacks_bits (clear_bits x m') m.
Proof. bitwise. Qed.

Lemma lacks_bits_set (x m m' : Z) :
  Z.land m' m = 0 -> lacks_bits x m -> lacks_bits (set_bits x m') m.
Proof. bitwise. Qed.

Lemma lacks_bits_lor (x a b : Z) :
  lacks_bits x a -> lacks_bits x b -> lacks_bits x (Z.lor a b).
Proof. bitwise. Qed.

Lemma lacks_bits_part (x m m' : Z) :
  Z.land m' m = m' -> lacks_bits x m -> lacks_bits x m'.
Proof. bitwise. Qed.

Lemma has_bits_set (x m : Z) : has_bits (set_bits x m) m.
Proof. bitwise. Qed.

Lemma has_bits_set_other (x m m' : Z) :
  has_bits x m -> has_bits (set_bits x m') m.
Proof. bitwise. Qed.

Lemma has_bits_clear (x m m' : Z) :
  Z.land m m' = 0 -> has_bits x m -> has_bits (clear_bits x m') m.
Proof. bitwise. Qed.

Lemma has_bits_lor (x a b : Z) :
  has_bits x a -> has_bits x b -> has_bits x (Z.lor a b).
Proof. bitwise. Qed.

Lemma clear_bits_idempotent (x m : Z) :
  clear_bits (clear_bits x m) m = clear_bits x m.
Proof. bitwise. Qed.

Lemma field_lor (x m : Z) : Z.land (Z.lor (Z.land x (Z.lnot m)) m) m = m.
Proof. bitwise. Qed.

Create HintDb bits.
#[local] Hint Resolve lacks_bits_clear lacks_bits_clear_other lacks_bits_set
  lacks_bits_lor has_bits_set has_bits_set_other has_bits_clear has_bits_lor
  : bits.
#[local] Hint Extern 1 (Z.land _ _ = 0) => reflexivity : bits.

Lemma child_tty_modes_flags (s : termios) : child_flags (child_tty_modes s).
Proof.
  unfold child_flags, child_tty_modes.
  cbn [c_iflag c_oflag c_cflag c_lflag].
  repeat split; [auto 8 with bits ..|].
  change CS8 with CSIZE. apply field_lor.
Qed.

Lemma termios_eq (t1 t2 : termios) :
  c_iflag t1 = c_iflag t2 -> c_oflag t1 = c_oflag t2 ->
  c_cflag t1 = c_cflag t2 -> c_lflag t1 = c_lflag t2 ->
  c_line t1 = c_line t2 -> c_cc t1 = c_cc t2 ->
  c_ispeed t1 = c_ispeed t2 -> c_ospeed t1 = c_ospeed t2 ->
  t1 = t2.
Proof.
  destruct t1 as [i1 o1 c1 l1 n1 cc1 is1 os1], t2 as [i2 o2 c2 l2 n2 cc2 is2 os2].
  cbn [c_iflag c_oflag c_cflag c_lflag c_line c_cc c_ispeed c_ospeed].
  intros. subst. reflexivity.
Qed.

(** The control characters that [child_setup_tty] asks for, slot by
    slot. *)
Lemma child_tty_modes_cc (s : termios) :
  c_cc (child_tty_modes s)
  = match c_cc s with
    | a :: b :: _ :: _ :: _ :: rest =>
        enabled 3 a :: enabled 28 b :: CDISABLE :: CDISABLE :: 4 :: rest
    | [a; b; _; _] => [enabled 3 a; enabled 28 b; CDISABLE; CDISABLE]
    | [a; b; _] => [enabled 3 a; enabled 28 b; CDISABLE]
    | [a; b] => [enabled 3 a; enabled 28 b]
    | [a] => [enabled 3 a]
    | [] => []
    end.
Proof.
  unfold child_tty_modes, enabled. cbn [c_cc].
  unfold cc_set, cc_get, VERASE, VKILL, VQUIT, VINTR, VEOF, CDISABLE.
  destruct (c_cc s) as [|a [|b [|c [|d [|e rest]]]]];
    cbn [list_insert insert lookup list_lookup default from_option id].
  1: reflexivity.
  1: change (0 =? 0) with true; cbv iota;
     cbn [list_insert insert lookup list_lookup default from_option id];
     destruct (a =? 0); reflexivity.
  all: destruct (b =? 0);
    cbn [list_insert insert lookup list_lookup default from_option id];
    destruct (a =? 0); reflexivity.
Qed.

Lemma enabled_idempotent (v c : Z) :
  v <> CDISABLE -> enabled v (enabled v c) = enabled v c.
Proof.
  unfold enabled. intros Hv.
  destruct (Z.eqb_spec c CDISABLE) as [->|Hc].
  - destruct (Z.eqb_spec v CDISABLE); [contradiction | reflexivity].
  - destruct (Z.eqb_spec c CDISABLE); [contradiction | reflexivity].
Qed.

Lemma enabled_not_disabled (v c : Z) : v <> CDISABLE -> enabled v c <> CDISABLE.
Proof.
  unfold enabled. intros Hv. destruct (Z.eqb_spec c CDISABLE); assumption.
Qed.

Lemma child_tty_modes_chars (s : termios) :
  (VEOF < length (c_cc s))%nat -> child_chars (c_cc (child_tty_modes s)).
Proof.
  rewrite child_tty_modes_cc. unfold child_chars, VEOF.
  destruct (c_cc s) as [|a [|b [|c [|d [|e rest]]]]]; cbn [length]; try lia.
  intros _. unfold cc_get, VERASE, VKILL, VQUIT, VINTR.
  cbn [lookup list_lookup default from_option id].
  repeat split; apply enabled_not_disabled; discriminate.
Qed.

Lemma child_tty_modes_idempotent (s : termios) :
  child_tty_modes (child_tty_modes s) = child_tty_modes s.
Proof.
  apply termios_eq; try reflexivity.
  - unfold child_tty_modes. cbn [c_iflag]. bitwise.
  - unfold child_tty_modes. cbn [c_oflag].
    generalize (Z.lor (Z.lor (Z.lor (Z.lor (Z.lor NLDLY CRDLY) TABDLY) BSDLY)
                         VTDLY) FFDLY).
    bitwise.
  - unfold child_tty_modes. cbn [c_cflag]. bitwise.
  - unfold child_tty_modes. cbn [c_lflag]. bitwise.
  - rewrite (child_tty_modes_cc (child_tty_modes s)), (child_tty_modes_cc s).
    destruct (c_cc s) as [|a [|b [|c [|d [|e rest]]]]];
      rewrite ?(enabled_idempotent 3), ?(enabled_idempotent 28)
        by discriminate; reflexivity.
Qed.

Lemma child_tty_modes_length (s : termios) :
  length (c_cc (child_tty_modes s)) = length (c_cc s).
Proof.
  rewrite child_tty_modes_cc.
  destruct (c_cc s) as [|a [|b [|c [|d [|e rest]]]]]; reflexivity.
Qed.

Lemma child_tty_modes_good (s : termios) : child_modes (child_tty_modes s).
Proof.
  split; [apply child_tty_modes_flags|].
  rewrite child_tty_modes_length. intros Hlen.
  apply child_tty_modes_chars. rewrite Hlen. unfold VEOF, NCCS. lia.
Qed.

Lemma tty_call_sets_modes (fd : Z) (good : termios -> Prop) (t : termios)
    (c : syscall) :
  good t -> tty_call fd (requested_action false) t c -> sets_modes fd good c.
Proof.
  intros Hgood. destruct c; cbn [tty_call sets_modes]; try tauto.
  intros (-> & -> & ->). repeat split. exact Hgood.
Qed.

(** Reading the modes, changing them by [f] and setting them. *)
Lemma get_change_set_calls (fd : Z) (f : termios -> termios)
    (good : termios -> termios -> Prop) (k : tty_script) (w : world) :
  (forall s, good s (f s)) ->
  resets_modes fd good k w
    (snd (final
            (match emacs_get_tty fd k w with
             | Esc e s => Esc e s
             | Ret (_, s) (k1, w1) =>
                 match emacs_set_tty fd {| main := f (main s) |} false
                         k1 w1 with
                 | Esc e s' => Esc e s'
                 | Ret _ s' => Ret tt s'
                 end
             end))).
Proof.
  intros Hgood. unfold resets_modes, emacs_get_tty.
  destruct (get_answers k) as [|g rest]; [reflexivity|].
  pose proof (after_get_strace fd g w) as Hg. unfold after_get in Hg.
  assert (Hread : snd (fst (sys_tcgetattr fd zeroed g w)) = readback g)
    by (destruct g; reflexivity).
  destruct (sys_tcgetattr fd zeroed g w) as [[r t] w1].
  cbn [fst snd] in Hg, Hread. subst t. cbn [main].
  destruct (set_tty_loop_calls 10 fd {| main := f (readback g) |} false
              {| set_answers := set_answers k; get_answers := rest |} w1)
    as (new & Hnew & Hall).
  unfold emacs_set_tty.
  destruct (set_tty_loop 10 fd _ false _ w1) as [r' s'|e s'];
    cbn [final snd] in Hnew |- *; exists new; rewrite Hnew, Hg;
    (split; [reflexivity|]);
    (eapply Forall_impl; [exact Hall|]);
    intros c; apply tty_call_sets_modes; apply Hgood.
Qed.

Lemma get_change_set_returns (fd : Z) (f : termios -> termios)
    (k : tty_script) (w : world) :
  (10 <= length (set_answers k))%nat ->
  (11 <= length (get_answers k))%nat ->
  exists s,
    match emacs_get_tty fd k w with
    | Esc e s => Esc e s
    | Ret (_, s) (k1, w1) =>
        match emacs_set_tty fd {| main := f (main s) |} false k1 w1 with
        | Esc e s' => Esc e s'
        | Ret _ s' => Ret tt s'
        end
    end = Ret tt s.
Proof.
  intros Hs Hg. unfold emacs_get_tty.
  destruct (get_answers k) as [|g rest]; [cbn [length] in Hg; lia|].
  cbn [length] in Hg.
  destruct (sys_tcgetattr fd zeroed g w) as [[r t] w1].
  destruct (set_tty_loop_returns 10 fd {| main := f t |} false
              {| set_answers := set_answers k; get_answers := rest |} w1)
    as (r' & s' & Heq); [exact Hs | cbn [get_answers]; lia |].
  unfold emacs_set_tty. cbn [main]. rewrite Heq. exists s'. reflexivity.
Qed.

(** Property X1.  [child_setup_tty] makes no call while the driver has not
    answered its [tcgetattr].  Otherwise it reads the modes of [out] once,
    and every call after that is on [out]; each [tcsetattr] among them is
    made with TCSADRAIN and asks for the modes of an inferior's terminal:
    ECHO off, ISIG and ICANON on, OPOST on, ONLCR, OLCUC and every output
    delay off, IUCLC and ISTRIP off, eight-bit characters and, in a [c_cc]
    of NCCS slots, erase and kill disabled, C-d for end of file, and quit
    and interrupt characters that are not disabled.  With ten answers to
    [tcsetattr] and eleven to [tcgetattr] at hand it returns. *)
Theorem child_setup_tty_modes (out : Z) (k : tty_script) (w : world) :
  resets_modes out (fun _ => child_modes) k w
    (snd (final (child_setup_tty out k w)))
  /\ ((length (set_answers k) < 10)%nat
      \/ (length (get_answers k) < 11)%nat
      \/ exists s, child_setup_tty out k w = Ret tt s).
Proof.
  split.
  - apply (get_change_set_calls out child_tty_modes (fun _ => child_modes)).
    intros s. apply child_tty_modes_good.
  - destruct (Nat.lt_ge_cases (length (set_answers k)) 10) as [Hs|Hs];
      [left; exact Hs|].
    destruct (Nat.lt_ge_cases (length (get_answers k)) 11) as [Hg|Hg];
      [right; left; exact Hg|].
    right. right. apply get_change_set_returns; assumption.
Qed.

(** Property X2.  On a terminal that already has the modes [child_setup_tty]
    sets, [child_setup_tty] asks for the modes it has read, unchanged. *)
Theorem child_setup_tty_twice (out : Z) (s : termios) (sets : list answer)
    (gets : list get_answer) (w : world) :
  resets_modes out (fun read asked => asked = read /\ child_modes asked)
    {| set_answers := sets;
       get_answers := Attributes (child_tty_modes s) :: gets |} w
    (snd (final
            (child_setup_tty out
               {| set_answers := sets;
                  get_answers := Attributes (child_tty_modes s) :: gets |}
               w))).
Proof.
  pose proof (get_change_set_calls out child_tty_modes
                (fun read asked => asked = child_tty_modes read
                                   /\ child_modes asked)
                {| set_answers := sets;
                   get_answers := Attributes (child_tty_modes s) :: gets |} w)
    as H.
  unfold resets_modes in *. cbn [get_answers readback] in *.
  destruct H as (new & Hnew & Hall).
  { intros s0. split; [reflexivity | apply child_tty_modes_good]. }
  exists new. split; [exact Hnew|].
  eapply Forall_impl; [exact Hall|].
  intros c. rewrite child_tty_modes_idempotent. tauto.
Qed.

Lemma no_echo_modes_flags (s : termios) : no_echo_flags s (no_echo_modes s).
Proof.
  unfold no_echo_flags, no_echo_modes.
  cbn [c_iflag c_oflag c_cflag c_lflag c_cc].
  repeat split; bitwise.
Qed.

Lemma no_echo_modes_idempotent (s : termios) :
  no_echo_modes (no_echo_modes s) = no_echo_modes s.
Proof.
  apply termios_eq; try reflexivity.
  unfold no_echo_modes. cbn [c_lflag]. bitwise.
Qed.

(** Property X3.  [suppress_echo_on_tty] reads the modes of [fd] once and
    then only asks, with TCSADRAIN, for modes that have ICANON and ECHO off
    and are what was read in every other bit of [c_lflag], in [c_iflag],
    [c_oflag], [c_cflag] and in the control characters; asked a second
    time it would leave [c_lflag] as it is.  With ten answers to
    [tcsetattr] and eleven to [tcgetattr] at hand it returns. *)
Theorem suppress_echo_on_tty_modes (fd : Z) (k : tty_script) (w : world) :
  resets_modes fd no_echo_flags k w
    (snd (final (suppress_echo_on_tty fd k w)))
  /\ (forall read asked again,
        no_echo_flags read asked -> no_echo_flags asked again ->
        c_lflag again = c_lflag asked)
  /\ ((length (set_answers k) < 10)%nat
      \/ (length (get_answers k) < 11)%nat
      \/ exists s, suppress_echo_on_tty fd k w = Ret tt s).
Proof.
  split; [|split].
  - apply (get_change_set_calls fd no_echo_modes no_echo_flags).
    apply no_echo_modes_flags.
  - unfold no_echo_flags. intros read asked again (H1 & _) (H2 & H3 & _).
    revert H1 H2 H3.
    generalize (c_lflag again), (c_lflag asked), (Z.lor ICANON ECHO).
    clear. intros x y m. bitwise.
  - destruct (Nat.lt_ge_cases (length (set_answers k)) 10) as [Hs|Hs];
      [left; exact Hs|].
    destruct (Nat.lt_ge_cases (length (get_answers k)) 11) as [Hg|Hg];
      [right; left; exact Hg|].
    right. right. apply get_change_set_returns; assumption.
Qed.

Lemma child_tty_modes_no_tab_delay (s : termios) :
  lacks_bits (c_oflag (child_tty_modes s)) TABDLY.
Proof.
  unfold child_tty_modes. cbn [c_oflag]. change TABDLY with TAB3.
  apply lacks_bits_clear.
Qed.

(** Property X4.  [tabs_safe_p] says no exactly when [tcgetattr] succeeded
    and showed both bits of TAB3 set in [c_oflag]: a failing [tcgetattr]
    (a descriptor that is no terminal) makes it say yes, as do modes with
    no tab delay bit, those that [child_setup_tty] sets among them. *)
Theorem tabs_safe_p_answers (fd : Z) (g : get_answer) (gets : list get_answer)
    (sets : list answer) (w : world) :
  let k := {| set_answers := sets; get_answers := g :: gets |} in
  (observe (tabs_safe_p fd k w) = Returns false
   <-> exists t, g = Attributes t /\ has_bits (c_oflag t) TAB3)
  /\ (forall t, g = Attributes t -> lacks_bits (c_oflag t) TABDLY ->
        observe (tabs_safe_p fd k w) = Returns true)
  /\ (forall s, g = Attributes (child_tty_modes s) ->
        observe (tabs_safe_p fd k w) = Returns true).
Proof.
  cbv zeta. unfold tabs_safe_p, emacs_get_tty. cbn [get_answers].
  assert (Hsafe : forall t, lacks_bits (c_oflag t) TABDLY ->
            negb (Z.land (c_oflag t) TABDLY =? TAB3) = true).
  { intros t Ht. unfold lacks_bits in Ht. rewrite Ht. reflexivity. }
  split; [|split].
  - destruct g as [t|e]; cbn [sys_tcgetattr returned retval fst snd observe
                               main].
    + split.
      * intros [= H]. exists t. split; [reflexivity|].
        unfold has_bits. change TAB3 with TABDLY at 1.
        destruct (Z.eqb_spec (Z.land (c_oflag t) TABDLY) TAB3) as [Heq|];
          [exact Heq | discriminate].
      * intros (t' & [= <-] & Ht). unfold has_bits in Ht.
        change TABDLY with TAB3. rewrite Ht. reflexivity.
    + split; [discriminate|]. intros (t' & Hg & _). discriminate.
  - intros t -> Ht. cbn [sys_tcgetattr returned retval fst snd observe main].
    rewrite (Hsafe t Ht). reflexivity.
  - intros s ->. cbn [sys_tcgetattr returned retval fst snd observe main].
    rewrite (Hsafe _ (child_tty_modes_no_tab_delay s)). reflexivity.
Qed.

Lemma tabs_safe_p_not_a_tty (fd e : Z) (gets : list get_answer)
    (sets : list answer) (w : world) :
  observe (tabs_safe_p fd {| set_answers := sets;
                             get_answers := GetFailed e :: gets |} w)
  = Returns true.
Proof. reflexivity. Qed.

(** Property X5.  The replacement [cfmakeraw] gives raw mode: the input,
    output and local flags that cfmakeraw (3) lists are off, parity is off
    and the character size is eight bits; applied twice it does what it
    does once, and it leaves the control characters and speeds alone. *)
Theorem cfmakeraw_raw (t : termios) :
  raw_flags (cfmakeraw t)
  /\ cfmakeraw (cfmakeraw t) = cfmakeraw t
  /\ c_cc (cfmakeraw t) = c_cc t
  /\ c_ispeed (cfmakeraw t) = c_ispeed t
  /\ c_ospeed (cfmakeraw t) = c_ospeed t.
Proof.
  split; [|split; [|repeat split]].
  - unfold raw_flags, cfmakeraw. cbn [c_iflag c_oflag c_cflag c_lflag].
    repeat split; [auto 8 with bits ..| |].
    + apply lacks_bits_set; [reflexivity|].
      apply (lacks_bits_part _ (Z.lor CSIZE PARENB)); [reflexivity|].
      apply lacks_bits_clear.
    + unfold set_bits, clear_bits. change CS8 with CSIZE.
      generalize (c_cflag t), CSIZE, PARENB. clear. intros x a b. bitwise.
  - apply termios_eq; try reflexivity;
      unfold cfmakeraw; cbn [c_iflag c_oflag c_cflag c_lflag].
    + apply clear_bits_idempotent.
    + apply clear_bits_idempotent.
    + generalize (Z.lor CSIZE PARENB). intros m. bitwise.
    + apply clear_bits_idempotent.
Qed.

(** *** Line speeds *)

Lemma convert_speed_from_cases (table : list speed_struct) (speed : Z) :
  convert_speed_from table speed = speed
  \/ exists entry,
       entry ∈ table /\ speed = value entry
       /\ convert_speed_from table speed = internal entry.
Proof.
  induction table as [|entry table IH]; [left; reflexivity|].
  cbn [convert_speed_from].
  destruct (Z.eqb_spec speed (internal entry)); [left; reflexivity|].
  destruct (Z.eqb_spec speed (value entry)) as [Hv|Hv].
  - right. exists entry. split; [constructor|]. split; [exact Hv | reflexivity].
  - destruct IH as [IH|(e' & Hin & Hval & Hres)]; [left; exact IH|].
    right. exists e'. split; [constructor; exact Hin|]. split; assumption.
Qed.

(** Every rate of the table is turned into its constant, and every
    constant is left as it is. *)
Lemma convert_speed_entries :
  Forall (fun entry => convert_speed (value entry) = internal entry
                       /\ convert_speed (internal entry) = internal entry)
    speeds.
Proof.
  unfold speeds.
  repeat (constructor; [split; vm_compute; reflexivity|]). constructor.
Qed.

(** The constants and the rates of the table are values of [speed_t]. *)
Lemma speeds_in_range :
  Forall (fun entry => speed_t_of (internal entry) = internal entry) speeds.
Proof.
  unfold speeds. repeat (constructor; [reflexivity|]). constructor.
Qed.

Lemma speed_t_of_range (n : Z) : 0 <= speed_t_of n < 2 ^ 32.
Proof. unfold speed_t_of. apply Z.mod_pos_bound. lia. Qed.

Lemma speed_t_of_idempotent (n : Z) : speed_t_of (speed_t_of n) = speed_t_of n.
Proof. unfold speed_t_of. apply Z.mod_mod. lia. Qed.

(** Numbers that are the same as values of [speed_t] are told apart from
    the rates they would be as integers. *)
Example convert_speed_wraps :
  convert_speed (2 ^ 32 + 9600) = 13 /\ convert_speed (-1) = 2 ^ 32 - 1.
Proof. split; reflexivity. Qed.

(** Property X6.  [convert_speed] works on its argument as converted to
    [speed_t], that is modulo 2^32, and returns a value of that type.  It
    turns every rate of the table [speeds] into its Bnnn constant and
    leaves every Bnnn constant as it is; a number that, so converted, is
    no rate of the table is returned as converted; converting twice is
    converting once. *)
Theorem convert_speed_table (speed : Z) :
  Forall (fun entry => convert_speed (value entry) = internal entry
                       /\ convert_speed (internal entry) = internal entry)
    speeds
  /\ convert_speed speed = convert_speed (speed_t_of speed)
  /\ 0 <= convert_speed speed < 2 ^ 32
  /\ (Forall (fun entry => speed_t_of speed <> value entry) speeds ->
      convert_speed speed = speed_t_of speed)
  /\ convert_speed (convert_speed speed) = convert_speed speed.
Proof.
  pose proof convert_speed_entries as Hentries.
  pose proof speeds_in_range as Hrange.
  rewrite Forall_forall in Hentries, Hrange.
  split; [apply Forall_forall; exact Hentries|].
  split; [unfold convert_speed; rewrite speed_t_of_idempotent; reflexivity|].
  assert (Hdef : convert_speed speed
                 = convert_speed_from speeds (speed_t_of speed))
    by reflexivity.
  destruct (convert_speed_from_cases speeds (speed_t_of speed))
    as [Hsame|(entry & Hin & Hval & Hres)].
  - rewrite <- Hdef in Hsame. rewrite Hsame.
    split; [apply speed_t_of_range|]. split; [intros _; reflexivity|].
    unfold convert_speed. rewrite speed_t_of_idempotent.
    rewrite <- Hdef. exact Hsame.
  - rewrite <- Hdef in Hres. rewrite Hres.
    destruct (Hentries entry Hin) as [_ Hfix].
    split; [rewrite <- (Hrange entry Hin); apply speed_t_of_range|].
    split; [|exact Hfix].
    intros Hnone. rewrite Forall_forall in Hnone.
    exfalso. exact (Hnone entry Hin Hval).
Qed.

Lemma int_of_range (n : Z) : - 2 ^ 31 <= int_of n < 2 ^ 31.
Proof. unfold int_of. pose proof (Z.mod_pos_bound (n + 2 ^ 31) (2 ^ 32)). lia. Qed.

Lemma small_index (x : Z) :
  - 2 ^ 31 <= x < 2 ^ 31 -> size_t_of x < baud_convert_elts -> 0 <= x < 16.
Proof.
  unfold size_t_of, baud_convert_elts. cbn [baud_convert length].
  intros Hx Hlt. destruct (Z.lt_ge_cases x 0) as [Hneg|Hpos].
  - exfalso.
    assert (x mod 2 ^ 64 = x + 2 ^ 64) as Heq.
    { symmetry. apply (Z.mod_unique_pos _ _ (-1)); lia. }
    lia.
  - rewrite Z.mod_small in Hlt by lia. lia.
Qed.

Lemma baud_rates_spelled :
  baud_rates = [50; 75; 110; 135; 150; 200; 300; 600; 1200; 1800; 2400; 4800;
                9600; 19200; 38400].
Proof. vm_compute. reflexivity. Qed.

Lemma baud_rate_of_index (x : Z) :
  0 <= x < 16 ->
  let baud_rate := default 0 (baud_convert !! Z.to_nat x) in
  (if baud_rate =? 0 then 1200 else baud_rate) ∈ baud_rates.
Proof.
  intros Hx.
  assert (x = 0 \/ x = 1 \/ x = 2 \/ x = 3 \/ x = 4 \/ x = 5 \/ x = 6 \/ x = 7
          \/ x = 8 \/ x = 9 \/ x = 10 \/ x = 11 \/ x = 12 \/ x = 13 \/ x = 14
          \/ x = 15) as Hcases by lia.
  rewrite baud_rates_spelled.
  repeat (destruct Hcases as [->|Hcases]); try subst x;
    vm_compute; repeat first [apply list_elem_of_here | apply list_elem_of_further].
Qed.

(** Property X7.  Whatever [cfgetospeed] returns, a negative number or one
    past the end of [baud_convert] included, [init_baud_rate] leaves in
    [baud_rate] one of the nonzero rates of [baud_convert], so a positive
    number; in batch mode it makes no call and the rate is 1200.  It does
    not return only while the driver has not answered [tcgetattr]. *)
Theorem init_baud_rate_positive (cfgetospeed : termios -> Z) (fd : Z)
    (sg : termios) (k : tty_script) (w : world) :
  match init_baud_rate cfgetospeed fd sg k w with
  | Ret baud_rate (k', w') =>
      baud_rate ∈ baud_rates /\ 0 < baud_rate
      /\ (noninteractive w = true ->
          baud_rate = 1200 /\ k' = k /\ w' = w)
  | Esc e _ => e = Blocked /\ noninteractive w = false /\ get_answers k = []
  end.
Proof.
  assert (Hpos : forall b, b ∈ baud_rates -> 0 < b).
  { intros b Hb. rewrite baud_rates_spelled in Hb.
    repeat (apply elem_of_cons in Hb; destruct Hb as [->|Hb]; [lia|]).
    apply elem_of_nil in Hb. destruct Hb. }
  unfold init_baud_rate.
  destruct (noninteractive w) eqn:Hni.
  - cbn [bind]. change (size_t_of 0 <? baud_convert_elts) with true.
    cbv iota. split; [|split; [reflexivity|]].
    + rewrite baud_rates_spelled. vm_compute.
      repeat first [apply list_elem_of_here | apply list_elem_of_further].
    + intros _. repeat split.
  - destruct (get_answers k) as [|a rest] eqn:Hgets.
    { cbn [bind]. repeat split. }
    destruct (sys_tcgetattr fd _ a w) as [[r sg'] w1]. cbn [bind].
    set (emacs_ospeed := int_of (cfgetospeed sg')).
    assert (Hin : (if (if size_t_of emacs_ospeed <? baud_convert_elts
                       then default 0 (baud_convert !! Z.to_nat emacs_ospeed)
                       else 9600) =? 0
                   then 1200
                   else if size_t_of emacs_ospeed <? baud_convert_elts
                        then default 0 (baud_convert !! Z.to_nat emacs_ospeed)
                        else 9600) ∈ baud_rates).
    { destruct (Z.ltb_spec (size_t_of emacs_ospeed) baud_convert_elts) as [Hlt|Hge].
      - apply baud_rate_of_index. apply small_index; [|exact Hlt].
        apply int_of_range.
      - rewrite baud_rates_spelled. vm_compute.
        repeat first [apply list_elem_of_here | apply list_elem_of_further]. }
    split; [exact Hin|]. split; [exact (Hpos _ Hin)|].
    intros Hcontra. discriminate.
Qed.

(** *** Random numbers *)

Lemma testbit_high (a n m : Z) :
  0 <= a < 2 ^ n -> 0 <= n <= m -> Z.testbit a m = false.
Proof.
  intros Ha Hm. rewrite <- (Z.mod_small a (2 ^ n)) by exact Ha.
  apply Z.mod_pow2_bits_high. exact Hm.
Qed.

Lemma below_pow2 (a n : Z) :
  0 <= n -> 0 <= a -> (forall m, n <= m -> Z.testbit a m = false) ->
  a < 2 ^ n.
Proof.
  intros Hn Ha Hbits.
  assert (a mod 2 ^ n = a) as <-.
  { apply Z.bits_inj'. intros m Hm.
    destruct (Z.lt_ge_cases m n) as [Hlt|Hge].
    - apply Z.mod_pow2_bits_low. lia.
    - rewrite Z.mod_pow2_bits_high by lia. symmetry. apply Hbits. exact Hge. }
  apply Z.mod_pos_bound. apply Z.pow_pos_nonneg; lia.
Qed.

Lemma lxor_bound (a b n : Z) :
  0 <= n -> 0 <= a < 2 ^ n -> 0 <= b < 2 ^ n -> 0 <= Z.lxor a b < 2 ^ n.
Proof.
  intros Hn Ha Hb.
  assert (0 <= Z.lxor a b) as Hnonneg by (apply Z.lxor_nonneg; lia).
  split; [exact Hnonneg|].
  apply below_pow2; [exact Hn | exact Hnonneg|].
  intros m Hm. rewrite Z.lxor_spec.
  rewrite (testbit_high a n m), (testbit_high b n m) by lia. reflexivity.
Qed.

Lemma shiftr_bound (a n k : Z) :
  0 <= k -> 0 <= a < 2 ^ n -> 0 <= Z.shiftr a k < 2 ^ n.
Proof.
  intros Hk Ha. rewrite Z.shiftr_div_pow2 by exact Hk.
  assert (0 < 2 ^ k) by (apply Z.pow_pos_nonneg; lia).
  split; [apply Z.div_pos; lia|].
  apply Z.le_lt_trans with a; [|lia].
  apply Z.div_le_upper_bound; [lia|]. nia.
Qed.

(** Two values that share no bit are joined by [Z.lxor] as by [+]. *)
Lemma lxor_disjoint_add (lo hi n : Z) :
  0 <= n -> 0 <= lo < 2 ^ n -> Z.lxor lo (hi * 2 ^ n) = lo + hi * 2 ^ n.
Proof.
  intros Hn Hlo. symmetry. apply Z.add_nocarry_lxor.
  apply Z.bits_inj'. intros m Hm. rewrite Z.land_spec, Z.bits_0.
  destruct (Z.lt_ge_cases m n) as [Hlt|Hge].
  - rewrite <- Z.shiftl_mul_pow2 by exact Hn.
    rewrite Z.shiftl_spec_low by exact Hlt. apply andb_false_r.
  - rewrite (testbit_high lo n m) by lia. reflexivity.
Qed.

(** x ^ (x >> k) determines x. *)
Lemma lxor_shiftr_injective (k n x y : Z) :
  0 < k -> 0 <= n -> 0 <= x < 2 ^ n -> 0 <= y < 2 ^ n ->
  Z.lxor x (Z.shiftr x k) = Z.lxor y (Z.shiftr y k) -> x = y.
Proof.
  intros Hk Hn Hx Hy Heq.
  assert (Hbits : forall (fuel : nat) (m : Z),
             0 <= m -> n <= m + Z.of_nat fuel ->
             Z.testbit x m = Z.testbit y m).
  { induction fuel as [|fuel IH]; intros m Hm Hle.
    - rewrite (testbit_high x n m), (testbit_high y n m) by lia. reflexivity.
    - destruct (Z.le_gt_cases n m) as [Hhigh|Hlow].
      + rewrite (testbit_high x n m), (testbit_high y n m) by lia.
        reflexivity.
      + pose proof (f_equal (fun z => Z.testbit z m) Heq) as Hm'.
        cbv beta in Hm'.
        rewrite !Z.lxor_spec, !Z.shiftr_spec in Hm' by exact Hm.
        rewrite (IH (m + k)) in Hm' by lia.
        destruct (Z.testbit x m), (Z.testbit y m), (Z.testbit y (m + k));
          cbn in Hm'; congruence. }
  apply Z.bits_inj'. intros m Hm.
  apply (Hbits (Z.to_nat n) m Hm). lia.
Qed.

Lemma shl64_small (x n : Z) :
  0 <= n -> 0 <= x -> x * 2 ^ n < 2 ^ 64 -> shl64 x n = x * 2 ^ n.
Proof.
  intros Hn Hx Hlt. unfold shl64. rewrite Z.shiftl_mul_pow2 by exact Hn.
  apply Z.mod_small. split; [|exact Hlt].
  apply Z.mul_nonneg_nonneg; [exact Hx|]. apply Z.pow_nonneg. lia.
Qed.

Lemma shl64_bound (x n : Z) : 0 <= shl64 x n < 2 ^ 64.
Proof. unfold shl64. apply Z.mod_pos_bound. reflexivity. Qed.

(** The value before the last two lines of [get_random]: the second draw
    in the low 31 bits, the first one above them. *)
Lemma get_random_loop_two (draws : nat -> Z) :
  random_values draws ->
  get_random_loop 2 draws 0 = draws 1%nat + draws 0%nat * 2 ^ 31.
Proof.
  intros Hr. pose proof (Hr 0%nat) as H0. pose proof (Hr 1%nat) as H1.
  unfold RAND_BITS in H0, H1.
  cbn [get_random_loop]. unfold EMACS_INT_WIDTH, RAND_BITS.
  change (shl64 0 31) with 0. change (Z.shiftr 0 (64 - 31)) with 0.
  rewrite !Z.lxor_0_r.
  rewrite shl64_small by lia.
  assert (Z.shiftr (draws 0%nat) (64 - 31) = 0) as ->.
  { apply Z.shiftr_eq_0; [lia|].
    destruct (Z.eq_dec (draws 0%nat) 0) as [->|Hne]; [reflexivity|].
    apply Z.log2_lt_pow2; lia. }
  rewrite Z.lxor_0_r. apply lxor_disjoint_add; lia.
Qed.

(** Property X9.  When [random] returns 31-bit values, [get_random] returns
    a number from 0 to INTMASK, and two runs that return the same number
    have drawn the same two values from [random]: no bit of the 62 drawn
    is lost in the mixing. *)
Theorem get_random_lossless (draws draws' : nat -> Z) :
  random_values draws -> random_values draws' ->
  0 <= get_random draws <= INTMASK
  /\ (get_random draws = get_random draws' ->
      draws 0%nat = draws' 0%nat /\ draws 1%nat = draws' 1%nat).
Proof.
  intros Hr Hr'.
  pose proof (Hr 0%nat) as H0. pose proof (Hr 1%nat) as H1.
  pose proof (Hr' 0%nat) as H0'. pose proof (Hr' 1%nat) as H1'.
  unfold RAND_BITS in H0, H1, H0', H1'.
  unfold get_random.
  change (Z.to_nat ((FIXNUM_BITS + RAND_BITS - 1) / RAND_BITS)) with 2%nat.
  rewrite !get_random_loop_two by assumption.
  unfold EMACS_INT_WIDTH, FIXNUM_BITS, INTMASK.
  change (2 ^ 62 - 1) with (Z.ones 62). change (64 - 62) with 2.
  rewrite !Z.land_ones by lia.
  set (val := draws 1%nat + draws 0%nat * 2 ^ 31).
  set (val' := draws' 1%nat + draws' 0%nat * 2 ^ 31).
  assert (0 <= val < 2 ^ 62) as Hval by (unfold val; lia).
  assert (0 <= val' < 2 ^ 62) as Hval' by (unfold val'; lia).
  assert (Hmix : forall v, 0 <= v < 2 ^ 62 ->
            0 <= Z.lxor v (Z.shiftr v 2) < 2 ^ 62).
  { intros v Hv. apply lxor_bound; [lia | exact Hv|].
    apply shiftr_bound; [lia | exact Hv]. }
  rewrite !Z.mod_small by (apply Hmix; assumption).
  split.
  - pose proof (Hmix val Hval). change (Z.ones 62) with (2 ^ 62 - 1). lia.
  - intros Heq.
    apply (lxor_shiftr_injective 2 62) in Heq; [|lia..].
    unfold val, val' in Heq. lia.
Qed.

Lemma get_random_ulong_loop_bound (n : nat) :
  forall (draws : nat -> Z) (r : Z),
    random_values draws -> 0 <= r < 2 ^ 64 ->
    0 <= get_random_ulong_loop n draws r < 2 ^ 64.
Proof.
  induction n as [|n IH]; intros draws r Hr Hb; [exact Hb|].
  cbn [get_random_ulong_loop]. apply IH.
  - intros i. apply Hr.
  - pose proof (Hr 0%nat) as H0. unfold RAND_BITS in H0.
    apply lxor_bound; [lia| |].
    + apply lxor_bound; [lia | lia | apply shl64_bound].
    + apply shiftr_bound; [unfold ULONG_WIDTH, RAND_BITS; lia | exact Hb].
Qed.

Lemma get_random_ulong_loop_two (draws : nat -> Z) :
  random_values draws ->
  get_random_ulong_loop 2 draws 0 = draws 1%nat + draws 0%nat * 2 ^ 31.
Proof. exact (get_random_loop_two draws). Qed.

Lemma draws_of_random (r0 r1 r2 : Z) :
  0 <= r0 < 2 ^ 31 -> 0 <= r1 < 2 ^ 31 -> 0 <= r2 < 2 ^ 31 ->
  random_values (draws_of r0 r1 r2).
Proof.
  intros H0 H1 H2 i. unfold RAND_BITS.
  destruct i as [|[|[|i]]]; cbn [draws_of]; lia.
Qed.

(** Property X10.  When [random] returns 31-bit values, [get_random_ulong]
    returns a number below 2^ULONG_WIDTH, and every such number is
    returned for some values of [random]. *)
Theorem get_random_ulong_range (draws : nat -> Z) (v : Z) :
  random_values draws -> 0 <= v < 2 ^ ULONG_WIDTH ->
  0 <= get_random_ulong draws < 2 ^ ULONG_WIDTH
  /\ exists draws', random_values draws' /\ get_random_ulong draws' = v.
Proof.
  unfold ULONG_WIDTH at 1 2. intros Hr Hv. split.
  - apply get_random_ulong_loop_bound; [exact Hr | lia].
  - assert (0 < 2 ^ 31) as Hp by lia.
    pose proof (Z.div_mod v (2 ^ 31) ltac:(lia)) as Hd1.
    pose proof (Z.mod_pos_bound v (2 ^ 31) Hp) as Hm1.
    pose proof (Z.div_mod (v / 2 ^ 31) (2 ^ 31) ltac:(lia)) as Hd2.
    pose proof (Z.mod_pos_bound (v / 2 ^ 31) (2 ^ 31) Hp) as Hm2.
    set (r2 := v mod 2 ^ 31) in *. set (q := v / 2 ^ 31) in *.
    set (r1 := q mod 2 ^ 31) in *. set (r0 := q / 2 ^ 31) in *.
    assert (0 <= r0 < 4) as H0 by lia.
    exists (draws_of r0 r1 r2).
    assert (random_values (draws_of r0 r1 r2)) as Hdraws
      by (apply draws_of_random; lia).
    split; [exact Hdraws|].
    unfold get_random_ulong.
    change (Z.to_nat ((ULONG_WIDTH + RAND_BITS - 1) / RAND_BITS)) with 3%nat.
    change 3%nat with (2 + 1)%nat.
    assert (Hsplit : forall d, get_random_ulong_loop (2 + 1) d 0
              = get_random_ulong_loop 1 (fun i => d (S (S i)))
                  (get_random_ulong_loop 2 d 0)) by reflexivity.
    rewrite Hsplit, get_random_ulong_loop_two by exact Hdraws.
    cbn [get_random_ulong_loop draws_of]. unfold ULONG_WIDTH, RAND_BITS.
    rewrite shl64_small by lia.
    assert (Z.shiftr (r1 + r0 * 2 ^ 31) (64 - 31) = 0) as ->.
    { apply Z.shiftr_eq_0; [lia|].
      destruct (Z.eq_dec (r1 + r0 * 2 ^ 31) 0) as [->|Hne]; [reflexivity|].
      apply Z.log2_lt_pow2; lia. }
    rewrite Z.lxor_0_r, lxor_disjoint_add by lia. lia.
Qed.

(** *** The seed of the generator *)

Lemma seed_random_loop_length (seedp : list Z) :
  forall (i : nat) (arg : list Z),
    length (seed_random_loop i seedp arg) = length arg.
Proof.
  induction seedp as [|byte seedp IH]; intros i arg; [reflexivity|].
  cbn [seed_random_loop]. rewrite IH. apply length_insert.
Qed.

Lemma seed_random_loop_app (s1 s2 : list Z) :
  forall (i : nat) (arg : list Z),
    seed_random_loop i (s1 ++ s2) arg
    = seed_random_loop (i + length s1) s2 (seed_random_loop i s1 arg).
Proof.
  induction s1 as [|byte s1 IH]; intros i arg.
  - cbn [app length seed_random_loop]. rewrite Nat.add_0_r. reflexivity.
  - cbn [app length seed_random_loop]. rewrite IH.
    replace (S i + length s1)%nat with (i + S (length s1))%nat by lia.
    reflexivity.
Qed.

Lemma seed_random_loop_shift (seedp : list Z) :
  forall (i i' : nat) (arg : list Z),
    (i mod sizeof_random_seed = i' mod sizeof_random_seed)%nat ->
    seed_random_loop i seedp arg = seed_random_loop i' seedp arg.
Proof.
  induction seedp as [|byte seedp IH]; intros i i' arg Hmod; [reflexivity|].
  cbn [seed_random_loop]. rewrite Hmod. apply IH.
  unfold sizeof_random_seed in *.
  replace (S i) with (1 + i)%nat by reflexivity.
  replace (S i') with (1 + i')%nat by reflexivity.
  rewrite (Nat.Div0.add_mod 1 i), (Nat.Div0.add_mod 1 i'), Hmod. reflexivity.
Qed.

Lemma lxor_swap (a b c : Z) : Z.lxor (Z.lxor a b) c = Z.lxor (Z.lxor a c) b.
Proof.
  rewrite !Z.lxor_assoc. f_equal. apply Z.lxor_comm.
Qed.

(** The loop only ever xors into [arg]: what was there before can as well
    be xored in afterwards. *)
Lemma seed_random_loop_xor (seedp : list Z) :
  forall (i : nat) (a b : list Z),
    length a = sizeof_random_seed -> length b = sizeof_random_seed ->
    seed_random_loop i seedp (zip_with Z.lxor a b)
    = zip_with Z.lxor (seed_random_loop i seedp a) b.
Proof.
  induction seedp as [|byte seedp IH]; intros i a b Ha Hb; [reflexivity|].
  cbn [seed_random_loop].
  rewrite <- IH; [|rewrite length_insert; exact Ha | exact Hb].
  f_equal.
  pose proof (Nat.mod_upper_bound i sizeof_random_seed ltac:(discriminate))
    as Hj.
  unfold sizeof_random_seed in *.
  destruct a as [|a0 [|a1 [|a2 [|a3 [|]]]]]; try discriminate Ha.
  destruct b as [|b0 [|b1 [|b2 [|b3 [|]]]]]; try discriminate Hb.
  destruct (i mod 4)%nat as [|[|[|[|j]]]]; [..|lia];
    cbn [zip_with list_insert insert lookup list_lookup default from_option
           id];
    rewrite (lxor_swap _ _ byte); reflexivity.
Qed.

Lemma zip_with_lxor_comm (a : list Z) :
  forall b, zip_with Z.lxor a b = zip_with Z.lxor b a.
Proof.
  induction a as [|x a IH]; intros [|y b]; try reflexivity.
  cbn [zip_with]. rewrite IH, Z.lxor_comm. reflexivity.
Qed.

Lemma seed_random_short (short : list Z) :
  (length short <= sizeof_random_seed)%nat ->
  seed_random short
  = short ++ replicate (sizeof_random_seed - length short) 0.
Proof.
  unfold seed_random, sizeof_random_seed.
  destruct short as [|b0 [|b1 [|b2 [|b3 [|b4 short]]]]]; cbn [length];
    try lia; intros _;
    cbn [seed_random_loop replicate Nat.modulo Nat.divmod fst snd Nat.sub
           list_insert insert lookup list_lookup default from_option id app];
    rewrite ?Z.lxor_0_l; reflexivity.
Qed.

(** Property X11.  [seed_random] folds the seed into the four bytes of
    [random_seed] by exclusive or: a seed that begins with four bytes
    [word] gives the seed of the rest, each byte combined with the byte of
    [word] at its place; a seed of at most four bytes is used as it is,
    filled up with zero bytes. *)
Theorem seed_random_folds (word rest short : list Z) :
  length word = sizeof_random_seed ->
  (length short <= sizeof_random_seed)%nat ->
  seed_random (word ++ rest) = zip_with Z.lxor word (seed_random rest)
  /\ seed_random short
     = short ++ replicate (sizeof_random_seed - length short) 0.
Proof.
  intros Hword Hshort. split; [|apply seed_random_short; exact Hshort].
  assert (seed_random word = word) as Hw.
  { rewrite seed_random_short by lia.
    rewrite Hword, Nat.sub_diag. apply app_nil_r. }
  unfold seed_random at 1. rewrite seed_random_loop_app.
  fold (seed_random word). rewrite Hw, Hword.
  rewrite (seed_random_loop_shift rest _ 0) by reflexivity.
  assert (word = zip_with Z.lxor (replicate sizeof_random_seed 0) word) as Hz.
  { unfold sizeof_random_seed in *.
    destruct word as [|a0 [|a1 [|a2 [|a3 [|]]]]]; try discriminate Hword.
    reflexivity. }
  rewrite Hz at 1.
  rewrite seed_random_loop_xor;
    [|apply length_replicate | exact Hword].
  fold (seed_random rest). apply zip_with_lxor_comm.
Qed.

Lemma seed_random_folds_witness :
  seed_random ([1; 2; 3; 4] ++ [1; 2; 3; 4; 9])
  = zip_with Z.lxor [1; 2; 3; 4] (seed_random [1; 2; 3; 4; 9])
  /\ seed_random [7; 8] = [7; 8] ++ replicate (sizeof_random_seed - 2) 0.
Proof.
  apply (seed_random_folds [1; 2; 3; 4] [1; 2; 3; 4; 9] [7; 8]).
  - reflexivity.
  - unfold sizeof_random_seed. cbn [length]. lia.
Defined.

Lemma get_random_lossless_witness :
  0 <= get_random (draws_of 5 6 0) <= INTMASK
  /\ (get_random (draws_of 5 6 0) = get_random (draws_of 5 7 0) ->
      5 = 5 /\ 6 = 7).
Proof.
  apply (get_random_lossless (draws_of 5 6 0) (draws_of 5 7 0)).
  - apply draws_of_random; lia.
  - apply draws_of_random; lia.
Defined.

Lemma get_random_ulong_range_witness :
  0 <= get_random_ulong (draws_of 1 2 3) < 2 ^ ULONG_WIDTH
  /\ exists draws',
       random_values draws' /\ get_random_ulong draws' = 2 ^ 64 - 1.
Proof.
  apply (get_random_ulong_range (draws_of 1 2 3) (2 ^ 64 - 1)).
  - apply draws_of_random; lia.
  - unfold ULONG_WIDTH. lia.
Defined.

(** *** Device numbers *)

Lemma testbit_low_mask (k n : Z) :
  0 <= k -> 0 <= n -> Z.testbit (Z.ones k) n = (n <? k).
Proof. intros Hk Hn. apply Z.testbit_ones_nonneg; assumption. Qed.

Lemma testbit_minor_high_mask (n : Z) :
  0 <= n -> Z.testbit 4293918720 n = (20 <=? n) && (n <? 32).
Proof.
  intros Hn. change 4293918720 with (Z.shiftl (Z.ones 12) 20).
  rewrite Z.shiftl_spec by exact Hn.
  destruct (Z.leb_spec 20 n) as [Hge|Hlt].
  - rewrite testbit_low_mask by lia.
    destruct (Z.ltb_spec (n - 20) 12), (Z.ltb_spec n 32); try lia; reflexivity.
  - apply Z.testbit_neg_r. lia.
Qed.

Lemma testbit_MAJOR (d n : Z) :
  0 <= n ->
  Z.testbit (MAJOR d) n = Z.testbit (unsigned_of d) (n + 8) && (n <? 12).
Proof.
  intros Hn. unfold MAJOR. change 4095 with (Z.ones 12).
  rewrite Z.land_spec, Z.shiftr_spec, testbit_low_mask by lia. reflexivity.
Qed.

Lemma testbit_MINOR (d n : Z) :
  0 <= n ->
  Z.testbit (MINOR d) n
  = if n <? 8 then Z.testbit (unsigned_of d) n
    else Z.testbit (unsigned_of d) (n + 12) && (n <? 20).
Proof.
  intros Hn. unfold MINOR. change 255 with (Z.ones 8).
  rewrite Z.lor_spec, Z.land_spec, Z.shiftr_spec, Z.land_spec,
    testbit_low_mask, testbit_minor_high_mask by lia.
  destruct (Z.ltb_spec n 8), (Z.leb_spec 20 (n + 12)), (Z.ltb_spec (n + 12) 32),
    (Z.ltb_spec n 20); try lia;
    destruct (Z.testbit (unsigned_of d) n),
      (Z.testbit (unsigned_of d) (n + 12)); reflexivity.
Qed.

(** Property X8.  MAJOR is a number of 12 bits and MINOR one of 20 bits, and
    together they hold every bit of the device number taken as a 32-bit
    unsigned one: bits 8 to 19 are MAJOR, bits 0 to 7 the low byte of
    MINOR, bits 20 to 31 the rest of MINOR. *)
Theorem device_number_split (d : Z) :
  0 <= MAJOR d < 2 ^ 12
  /\ 0 <= MINOR d < 2 ^ 20
  /\ unsigned_of d
     = Z.lor (Z.land (MINOR d) 255)
         (Z.lor (Z.shiftl (MAJOR d) 8)
            (Z.shiftl (Z.shiftr (MINOR d) 8) 20)).
Proof.
  assert (Hd : 0 <= unsigned_of d < 2 ^ 32)
    by (unfold unsigned_of; apply Z.mod_pos_bound; lia).
  assert (Hmajor : 0 <= MAJOR d).
  { unfold MAJOR. apply Z.land_nonneg. right. lia. }
  assert (Hminor : 0 <= MINOR d).
  { unfold MINOR. apply Z.lor_nonneg. split.
    - apply Z.land_nonneg. right. lia.
    - apply Z.shiftr_nonneg. apply Z.land_nonneg. right. lia. }
  split; [|split].
  - split; [exact Hmajor|]. apply below_pow2; [lia | exact Hmajor|].
    intros m Hm. rewrite testbit_MAJOR by lia.
    destruct (Z.ltb_spec m 12); [lia|]. apply andb_false_r.
  - split; [exact Hminor|]. apply below_pow2; [lia | exact Hminor|].
    intros m Hm. rewrite testbit_MINOR by lia.
    destruct (Z.ltb_spec m 8); [lia|].
    destruct (Z.ltb_spec m 20); [lia|]. apply andb_false_r.
  - apply Z.bits_inj'. intros n Hn. change 255 with (Z.ones 8).
    rewrite !Z.lor_spec, Z.land_spec, testbit_low_mask, !Z.shiftl_spec by lia.
    destruct (Z.ltb_spec n 8) as [H8|H8].
    + rewrite testbit_MINOR, (Z.testbit_neg_r _ (n - 8)),
        (Z.testbit_neg_r _ (n - 20)) by lia.
      destruct (Z.ltb_spec n 8); [|lia].
      rewrite andb_true_r, !orb_false_r. reflexivity.
    + rewrite andb_false_r, orb_false_l, testbit_MAJOR by lia.
      replace (n - 8 + 8) with n by lia.
      destruct (Z.ltb_spec (n - 8) 12) as [H20|H20].
      * rewrite (Z.testbit_neg_r _ (n - 20)) by lia.
        rewrite andb_true_r, orb_false_r. reflexivity.
      * rewrite andb_false_r, orb_false_l, Z.shiftr_spec, testbit_MINOR by lia.
        replace (n - 20 + 8 + 12) with n by lia.
        destruct (Z.ltb_spec (n - 20 + 8) 8); [lia|].
        destruct (Z.ltb_spec (n - 20 + 8) 20).
        -- rewrite andb_true_r. reflexivity.
        -- rewrite andb_false_r. apply (testbit_high _ 32); lia.
Qed.

(** *** The variants of the retry wrappers *)

Lemma open_noquit_loop_cons (file oflags mode : Z) (ev : event) (k : script)
    (w : world) :
  let call := sys_openat AT_FDCWD file oflags mode ev w in
  open_noquit_loop file oflags mode (ev :: k) w
  = if is_eintr (ans ev)
    then open_noquit_loop file oflags mode k (snd call)
    else Ret (fst call) (k, snd call).
Proof.
  cbv zeta. cbn [open_noquit_loop].
  rewrite <- (sys_openat_retry AT_FDCWD file oflags mode ev w).
  destruct (sys_openat AT_FDCWD file oflags mode ev w) as [r w1]. reflexivity.
Qed.

Lemma sys_openat_strace (dirfd file oflags mode : Z) (ev : event) (w : world) :
  strace (snd (sys_openat dirfd file oflags mode ev w))
  = SysOpenat dirfd file oflags mode (opened (ans ev)) :: strace w.
Proof.
  unfold sys_openat, returned. destruct (opened (ans ev)); reflexivity.
Qed.

(** Property X12.  [emacs_open_noquit], interrupted any number of times and
    then answered, returns that answer, whether or not a quit was pending
    or was typed meanwhile: the quit stays requested.  It has made one
    [openat] per interruption and one more, all relative to the working
    directory, with the flags completed by O_CLOEXEC. *)
Theorem emacs_open_noquit_never_quits (file oflags mode : Z) (ints : script)
    (ev : event) (rest : script) (w : world) :
  all_eintr ints -> is_eintr (ans ev) = false ->
  exists w',
    emacs_open_noquit file oflags mode (ints ++ ev :: rest) w
    = Ret (retval (opened (ans ev))) (rest, w')
    /\ quit_requested w'
       = quit_requested w || existsb quit_arrives (ints ++ [ev])
    /\ strace w'
       = open_entry file (open_flags oflags) mode (ans ev)
         :: replicate (length ints)
              (open_entry file (open_flags oflags) mode (Fail EINTR))
         ++ strace w.
Proof.
  intros Hall Hev. unfold emacs_open_noquit. revert w.
  induction Hall as [|i ints Hi _ IH]; intros w.
  - cbn [app]. rewrite open_noquit_loop_cons, Hev.
    eexists. split; [reflexivity|].
    rewrite sys_openat_quit, sys_openat_strace.
    cbn [existsb app length replicate]. rewrite orb_false_r.
    split; reflexivity.
  - rewrite <- app_comm_cons, open_noquit_loop_cons, (is_eintr_EINTR i Hi).
    destruct (IH (snd (sys_openat AT_FDCWD file (open_flags oflags) mode i w)))
      as (w' & Hret & Hquit & Hst).
    exists w'. split; [exact Hret|].
    rewrite Hquit, Hst, sys_openat_quit, sys_openat_strace, Hi.
    cbn [existsb app length]. rewrite orb_assoc.
    split; [reflexivity|].
    change (SysOpenat AT_FDCWD file (open_flags oflags) mode
              (opened (Fail EINTR)))
      with (open_entry file (open_flags oflags) mode (Fail EINTR)).
    rewrite replicate_S_end, <- app_assoc. reflexivity.
Qed.

Lemma emacs_open_noquit_never_quits_witness :
  all_eintr [Event (Fail EINTR) true]
  /\ is_eintr (ans (Event (Done 3) false)) = false
  /\ exists w',
       emacs_open_noquit 7 O_CLOEXEC 0
         ([Event (Fail EINTR) true] ++ Event (Done 3) false :: []) idle
       = Ret (retval (opened (ans (Event (Done 3) false)))) ([], w')
       /\ quit_requested w'
          = quit_requested idle
            || existsb quit_arrives
                 ([Event (Fail EINTR) true] ++ [Event (Done 3) false])
       /\ strace w'
          = open_entry 7 (open_flags O_CLOEXEC) 0 (ans (Event (Done 3) false))
            :: replicate (length [Event (Fail EINTR) true])
                 (open_entry 7 (open_flags O_CLOEXEC) 0 (Fail EINTR))
            ++ strace idle.
Proof.
  assert (all_eintr [Event (Fail EINTR) true]) as Hints
    by (repeat constructor).
  split; [exact Hints|]. split; [reflexivity|].
  apply (emacs_open_noquit_never_quits 7 O_CLOEXEC 0
           [Event (Fail EINTR) true] (Event (Done 3) false) [] idle Hints).
  reflexivity.
Defined.

Lemma intr_read_loop_quit_cons (fd buf nbyte : Z) (ev : event) (k : script)
    (w : world) :
  intr_read_loop fd buf nbyte true (ev :: k) w
  = if quit_requested w then Esc ByQuit (ev :: k, w)
    else if is_eintr (ans ev)
         then intr_read_loop fd buf nbyte true k
                (snd (sys_read fd buf nbyte ev w))
         else Ret (fst (sys_read fd buf nbyte ev w))
                (k, snd (sys_read fd buf nbyte ev w)).
Proof.
  cbn [intr_read_loop]. unfold maybe_quit.
  destruct (quit_requested w); [reflexivity|].
  rewrite <- (sys_read_retry fd buf nbyte ev w).
  destruct (sys_read fd buf nbyte ev w) as [r w1]. reflexivity.
Qed.

Lemma sys_read_quit (fd buf nbyte : Z) (ev : event) (w : world) :
  quit_requested (snd (sys_read fd buf nbyte ev w))
  = quit_requested w || quit_arrives ev.
Proof.
  unfold sys_read, returned.
  destruct (transfer (ans ev) (size_t_of nbyte)); reflexivity.
Qed.

Lemma intr_read_loop_quit_pending (fd buf nbyte : Z) (k : script) (w : world) :
  quit_requested w = true ->
  intr_read_loop fd buf nbyte true k w = Esc ByQuit (k, w).
Proof.
  intros Hq. destruct k as [|ev k]; cbn [intr_read_loop]; unfold maybe_quit;
    rewrite Hq; reflexivity.
Qed.

(** Property X13.  [emacs_read_quit], given a size that passes its
    assertion, interrupted any number of times and then answered, quits
    exactly when a quit was pending at entry or arrived during one of the
    interrupted reads, and otherwise returns what the answered read
    returned; a quit pending at entry is honoured before any [read] is
    made. *)
Theorem emacs_read_quit_checks_first (M fd buf nbyte : Z) (ints : script)
    (ev : event) (rest : script) (w : world) :
  read_size_accepted M nbyte w ->
  all_eintr ints -> is_eintr (ans ev) = false ->
  observe (emacs_read_quit M fd buf nbyte (ints ++ ev :: rest) w)
  = (if quit_requested w || existsb quit_arrives ints
     then Escapes ByQuit
     else Returns (retval (transfer (ans ev) (size_t_of nbyte))))
  /\ (quit_requested w = true ->
      emacs_read_quit M fd buf nbyte (ints ++ ev :: rest) w
      = Esc ByQuit (ints ++ ev :: rest, w)).
Proof.
  intros Hsize Hall Hev. unfold emacs_read_quit, emacs_intr_read, eassert.
  assert (checking w && negb (nbyte <=? M) = false) as ->.
  { destruct Hsize as [->|Hle]; [reflexivity|].
    apply Z.leb_le in Hle. rewrite Hle. apply andb_false_r. }
  split; [|apply intr_read_loop_quit_pending].
  revert w Hsize. induction Hall as [|i ints Hi _ IH]; intros w Hsize.
  - cbn [app existsb]. rewrite orb_false_r, intr_read_loop_quit_cons, Hev.
    destruct (quit_requested w); reflexivity.
  - rewrite <- app_comm_cons, intr_read_loop_quit_cons, (is_eintr_EINTR i Hi).
    cbn [existsb]. destruct (quit_requested w) eqn:Hq; [reflexivity|].
    rewrite IH.
    + rewrite sys_read_quit, Hq. reflexivity.
    + destruct Hsize as [Hc|Hle]; [left|right; exact Hle].
      unfold sys_read, returned.
      destruct (transfer (ans i) (size_t_of nbyte)); exact Hc.
Qed.

Lemma emacs_read_quit_checks_first_witness :
  read_size_accepted max_rw_count 10 idle
  /\ all_eintr [Event (Fail EINTR) false; Event (Fail EINTR) true]
  /\ is_eintr (ans (Event (Done 4) false)) = false
  /\ observe (emacs_read_quit max_rw_count 0 0 10
                ([Event (Fail EINTR) false; Event (Fail EINTR) true]
                 ++ Event (Done 4) false :: []) idle)
     = Escapes ByQuit.
Proof.
  assert (read_size_accepted max_rw_count 10 idle) as Hsize
    by (left; reflexivity).
  assert (all_eintr [Event (Fail EINTR) false; Event (Fail EINTR) true])
    as Hints by (repeat constructor).
  split; [exact Hsize|]. split; [exact Hints|]. split; [reflexivity|].
  exact (proj1 (emacs_read_quit_checks_first max_rw_count 0 0 10
                  [Event (Fail EINTR) false; Event (Fail EINTR) true]
                  (Event (Done 4) false) [] idle Hsize Hints eq_refl)).
Defined.

Lemma pending_apart_refl (w : world) : pending_apart w w.
Proof. reflexivity. Qed.

Lemma pending_apart_errno (w1 w2 : world) :
  pending_apart w1 w2 -> errno w1 = errno w2.
Proof. intros H. exact (f_equal errno H). Qed.

Lemma pending_apart_quit (w1 w2 : world) :
  pending_apart w1 w2 -> quit_requested w1 = quit_requested w2.
Proof. intros H. exact (f_equal quit_requested H). Qed.

Lemma pending_apart_processed (w1 w2 : world) :
  pending_apart w1 w2 ->
  pending_apart (if pending_signals w1 then process_pending_signals w1 else w1)
    w2.
Proof.
  intros H. destruct (pending_signals w1); [|exact H].
  unfold pending_apart, process_pending_signals in *. rewrite <- H.
  reflexivity.
Qed.

Lemma sys_write_pending_apart (fd buf nbyte : Z) (ev : event) (w1 w2 : world) :
  pending_apart w1 w2 ->
  pending_apart (snd (sys_write fd buf nbyte ev w1))
    (snd (sys_write fd buf nbyte ev w2)).
Proof.
  unfold pending_apart, sys_write, returned, set_pending_signals.
  intros [= He Hq Hc Hn Ho Hi Ht Hs].
  destruct (transfer (ans ev) (size_t_of nbyte));
    cbn [snd log set_errno raise_quit errno quit_requested checking
           noninteractive open_fds input_available_clear_time tty_list
           strace];
    rewrite ?He, Hq, Hc, Hn, Ho, Hi, Ht, Hs; reflexivity.
Qed.

Lemma sys_write_quit (fd buf nbyte : Z) (ev : event) (w : world) :
  quit_requested (snd (sys_write fd buf nbyte ev w))
  = quit_requested w || quit_arrives ev.
Proof.
  unfold sys_write, returned.
  destruct (transfer (ans ev) (size_t_of nbyte)); reflexivity.
Qed.

Lemma same_returned {A : Type} (r : A) (k : script) (w1 w2 : world) :
  pending_apart w1 w2 ->
  same_but_pending_signals (Ret r (k, w1)) (Ret r (k, w2)).
Proof. intros H. repeat split. exact H. Qed.


Lemma write_interrupted_quit (w : world) :
  write_interrupted 1 w
  = if quit_requested w then Esc ByQuit w
    else Ret tt (if pending_signals w then process_pending_signals w else w).
Proof.
  unfold write_interrupted, maybe_quit. change (1 =? 0) with false.
  change (0 <? 1) with true. cbv iota.
  destruct (quit_requested w); reflexivity.
Qed.






(** [emacs_write_quit] and [emacs_write], run side by side while no quit
    is there to honour. *)
Lemma full_write_loop_quit (M fd : Z) (k : script) :
  forall (buf nbyte bw : Z) (w1 w2 : world),
    pending_apart w1 w2 ->
    no_quit w1 k \/ uninterrupted k ->
    same_but_pending_signals
      (full_write_loop M fd buf nbyte bw 1 k w1)
      (full_write_loop M fd buf nbyte bw 0 k w2).
Proof.
  induction k as [|ev k IH]; intros buf nbyte bw w1 w2 Hw Hquiet.
  - cbn [full_write_loop]. destruct (0 <? nbyte); repeat split; exact Hw.
  - destruct (Z.ltb_spec 0 nbyte) as [Hpos|Hle].
    + rewrite !full_write_loop_step by exact Hpos.
      pose proof (sys_write_pending_apart fd buf (Z.min nbyte M) ev w1 w2 Hw)
        as Hcall.
      pose proof (sys_write_retry fd buf (Z.min nbyte M) ev w2) as Hretry.
      pose proof (sys_write_quit fd buf (Z.min nbyte M) ev w1) as Hq.
      rewrite (sys_write_value fd buf (Z.min nbyte M) ev w1 w2).
      rewrite (pending_apart_errno _ _ Hcall).
      assert (Hnext : no_quit (snd (sys_write fd buf (Z.min nbyte M) ev w1)) k
                      \/ uninterrupted k).
      { destruct Hquiet as [[Hq0 Hall]|Hall].
        - left. inversion Hall as [|? ? Hev Hk]; subst.
          split; [|exact Hk]. rewrite Hq, Hq0, Hev. reflexivity.
        - right. inversion Hall; assumption. }
      destruct (fst (sys_write fd buf (Z.min nbyte M) ev w2) <? 0).
      * cbn [andb] in Hretry. rewrite Hretry.
        destruct (is_eintr (ans ev)) eqn:Hev; cbn [negb];
          [|apply same_returned; exact Hcall].
        rewrite write_interrupted_quit.
        destruct Hnext as [[Hq1 Hk]|Hk].
        -- rewrite Hq1. apply IH.
           ++ apply pending_apart_processed. exact Hcall.
           ++ left. split; [|exact Hk].
              destruct (pending_signals _); exact Hq1.
        -- destruct Hquiet as [[Hq0 Hall]|Hall].
           ++ inversion Hall as [|? ? Hev' Hk']; subst.
              rewrite Hq, Hq0, Hev'. cbn [orb]. apply IH.
              ** apply pending_apart_processed. exact Hcall.
              ** right. exact Hk.
           ++ inversion Hall as [|? ? Hev' Hk']; subst. congruence.
      * apply IH; [exact Hcall | exact Hnext].
    + rewrite !full_write_loop_done by exact Hle.
      apply same_returned. exact Hw.
Qed.

(** Property X15.  While there is no quit to honour (none pending and none
    arriving, or no write interrupted) [emacs_write_quit] returns what
    [emacs_write] returns on the same answers, and leaves the same state
    and log of calls, but for the pending signals. *)
Theorem emacs_write_quit_as_emacs_write (M fd buf nbyte : Z) (k : script)
    (w : world) :
  no_quit w k \/ uninterrupted k ->
  same_but_pending_signals (emacs_write_quit M fd buf nbyte k w)
    (emacs_write M fd buf nbyte k w).
Proof. apply full_write_loop_quit. apply pending_apart_refl. Qed.

Lemma emacs_write_quit_as_emacs_write_witness :
  (no_quit idle [Event (Fail EINTR) false; Event (Done 5) false]
   \/ uninterrupted [Event (Fail EINTR) false; Event (Done 5) false])
  /\ same_but_pending_signals
       (emacs_write_quit max_rw_count 1 0 5
          [Event (Fail EINTR) false; Event (Done 5) false] idle)
       (emacs_write max_rw_count 1 0 5
          [Event (Fail EINTR) false; Event (Done 5) false] idle).
Proof.
  assert (no_quit idle [Event (Fail EINTR) false; Event (Done 5) false]
          \/ uninterrupted [Event (Fail EINTR) false; Event (Done 5) false])
    as Hquiet by (left; split; [reflexivity | repeat constructor]).
  split; [exact Hquiet|].
  exact (emacs_write_quit_as_emacs_write max_rw_count 1 0 5
           [Event (Fail EINTR) false; Event (Done 5) false] idle Hquiet).
Defined.

(** *** Opening a stream *)

Lemma fopen_mode_rest_plus (m : string) :
  forall omode : Z,
    fopen_mode_rest m omode 0 = (if has_plus m then O_RDWR else omode, 0).
Proof.
  induction m as [|c m IH]; intros omode; [reflexivity|].
  cbn [fopen_mode_rest has_plus].
  destruct (Ascii.eqb c zero); [reflexivity|].
  destruct (Ascii.eqb c "+"); cbn [orb].
  - rewrite IH. destruct (has_plus m); reflexivity.
  - destruct (Ascii.eqb c "t"); apply IH.
Qed.

Lemma open_flags_cloexec (oflags : Z) :
  open_flags (Z.lor oflags 0) = Z.lor oflags O_CLOEXEC.
Proof.
  unfold open_flags, O_TEXT, O_BINARY.
  rewrite Z.land_0_r, !Z.lor_0_r. reflexivity.
Qed.

Lemma openat_loop_calls (dirfd file oflags mode : Z) (k : script) :
  forall w : world,
  exists new,
    strace (snd (final (openat_loop dirfd file oflags mode k w)))
    = new ++ strace w
    /\ Forall (fun c => exists r, c = SysOpenat dirfd file oflags mode r) new.
Proof.
  induction k as [|ev k IH]; intros w.
  - exists []. split; [reflexivity | constructor].
  - rewrite openat_loop_cons. cbv zeta.
    pose proof (sys_openat_strace dirfd file oflags mode ev w) as Hst.
    assert (Hone : Forall (fun c => exists r, c = SysOpenat dirfd file oflags mode r)
                     [SysOpenat dirfd file oflags mode (opened (ans ev))])
      by (repeat constructor; eexists; reflexivity).
    destruct (is_eintr (ans ev)).
    + destruct (quit_requested w || quit_arrives ev).
      * eexists [_]. cbn [final snd]. rewrite Hst. split; [reflexivity|].
        exact Hone.
      * destruct (IH (snd (sys_openat dirfd file oflags mode ev w)))
          as (new & Hnew & Hall).
        eexists (new ++ [_]). rewrite Hnew, Hst, <- app_assoc.
        split; [reflexivity|]. apply Forall_app. split; [exact Hall|].
        exact Hone.
    + eexists [_]. cbn [final snd]. rewrite Hst. split; [reflexivity|].
      exact Hone.
Qed.

Lemma openat_loop_opened (dirfd file oflags mode : Z) (k : script) :
  forall (w : world) (r : Z) (s : state),
    openat_loop dirfd file oflags mode k w = Ret r s -> 0 <= r ->
    exists tl, strace (snd s) = SysOpenat dirfd file oflags mode (Ok r) :: tl.
Proof.
  induction k as [|ev k IH]; intros w r s Hret Hr; [discriminate|].
  rewrite openat_loop_cons in Hret. cbv zeta in Hret.
  destruct (is_eintr (ans ev)).
  - destruct (quit_requested w || quit_arrives ev); [discriminate|].
    eapply IH; eassumption.
  - injection Hret as Hfd Hs. subst r s. exists (strace w).
    destruct (ans ev) as [v|e]; cbn [opened retval snd strace log] in *;
      [reflexivity | lia].
Qed.

Lemma openat_loop_escapes (dirfd file oflags mode : Z) (k : script) :
  forall (w : world) (e : escape) (s : state),
    openat_loop dirfd file oflags mode k w = Esc e s ->
    e = Blocked \/ e = ByQuit.
Proof.
  induction k as [|ev k IH]; intros w e s Hesc.
  - injection Hesc as <- _. left. reflexivity.
  - rewrite openat_loop_cons in Hesc. cbv zeta in Hesc.
    destruct (is_eintr (ans ev)); [|discriminate].
    destruct (quit_requested w || quit_arrives ev).
    + injection Hesc as <- _. right. reflexivity.
    + eapply IH. exact Hesc.
Qed.

(** [emacs_fopen] on a mode that begins with 'r', 'w' or 'a'. *)
Lemma emacs_fopen_valid (file : Z) (c : ascii) (m : string) (omode oflags : Z)
    (a : stream_answer) (k : script) (w : world) :
  fopen_mode_first c = Some (omode, oflags) ->
  emacs_fopen file (String c m) a k w
  = bind (openat_loop AT_FDCWD file
            (Z.lor (Z.lor (if has_plus m then O_RDWR else omode) oflags)
               O_CLOEXEC) 438 k w)
      (fun fd s =>
         if fd <? 0 then Ret 0 s
         else
           let '(fp, w') := emacs_fdopen fd (String c m) a (snd s) in
           Ret fp (fst s, w')).
Proof.
  intros Hfirst. unfold emacs_fopen. rewrite Hfirst, fopen_mode_rest_plus.
  unfold emacs_open, emacs_openat. rewrite open_flags_cloexec. reflexivity.
Qed.

(** Property X16.  For a mode that begins with 'r', 'w' or 'a',
    [emacs_fopen] makes only [openat] calls on [file], relative to the
    working directory and with mode 0666; their flags are those of the
    first character of the mode (O_RDONLY; O_WRONLY, O_CREAT and O_TRUNC;
    O_WRONLY, O_CREAT and O_APPEND), the access mode replaced by O_RDWR if
    a '+' follows before the end of the string, and O_CLOEXEC. *)
Theorem emacs_fopen_flags (file : Z) (c : ascii) (m : string)
    (omode oflags : Z) (a : stream_answer) (k : script) (w : world) :
  fopen_mode_first c = Some (omode, oflags) ->
  exists new,
    strace (snd (final (emacs_fopen file (String c m) a k w)))
    = new ++ strace w
    /\ Forall (opens file
                 (Z.lor (Z.lor (if has_plus m then O_RDWR else omode) oflags)
                    O_CLOEXEC)) new.
Proof.
  intros Hfirst. rewrite (emacs_fopen_valid _ _ _ _ _ _ _ _ Hfirst).
  destruct (openat_loop_calls AT_FDCWD file
              (Z.lor (Z.lor (if has_plus m then O_RDWR else omode) oflags)
                 O_CLOEXEC) 438 k w) as (new & Hnew & Hall).
  exists new. split; [|exact Hall].
  destruct (openat_loop _ _ _ _ k w) as [fd [k' w']|e s]; cbn [bind];
    [|exact Hnew].
  cbn [final snd] in Hnew. destruct (fd <? 0); [exact Hnew|].
  cbn [snd fst]. destruct a as [fp|e]; cbn [emacs_fdopen final snd];
    exact Hnew.
Qed.

Lemma emacs_fopen_flags_witness :
  fopen_mode_first "a" = Some (O_WRONLY, Z.lor O_CREAT O_APPEND)
  /\ exists new,
       strace (snd (final (emacs_fopen 7 "a+" (Stream 1)
                             [Event (Fail EINTR) false; Event (Done 3) false]
                             idle)))
       = new ++ strace idle
       /\ Forall (opens 7
                    (Z.lor (Z.lor (if has_plus "+" then O_RDWR else O_WRONLY)
                              (Z.lor O_CREAT O_APPEND)) O_CLOEXEC)) new.
Proof.
  split; [reflexivity|].
  apply (emacs_fopen_flags 7 "a" "+" O_WRONLY (Z.lor O_CREAT O_APPEND)
           (Stream 1) [Event (Fail EINTR) false; Event (Done 3) false] idle).
  reflexivity.
Defined.

Lemma quit_honoured_cons_false (w : world) (i : event) (ints : script) :
  quit_honoured w (i :: ints) = false ->
  quit_requested w = false /\ quit_arrives i = false
  /\ forall w1, quit_requested w1 = false -> quit_honoured w1 ints = false.
Proof.
  cbn [quit_honoured existsb]. intros H.
  apply orb_false_iff in H. destruct H as [Hq H].
  apply orb_false_iff in H. destruct H as [Hi Hrest].
  split; [exact Hq|]. split; [exact Hi|].
  intros w1 Hq1. destruct ints as [|j ints]; [reflexivity|].
  cbn [quit_honoured]. rewrite Hq1. exact Hrest.
Qed.

(** An open that is interrupted, with no quit to honour, and then answered:
    the answer is returned, after one [openat] per interruption and one
    more. *)
Lemma openat_loop_answered (dirfd file oflags mode : Z) (ints : script)
    (ev : event) (rest : script) :
  all_eintr ints -> is_eintr (ans ev) = false ->
  forall w : world,
    quit_honoured w ints = false ->
    exists w',
      openat_loop dirfd file oflags mode (ints ++ ev :: rest) w
      = Ret (retval (opened (ans ev))) (rest, w')
      /\ strace w'
         = SysOpenat dirfd file oflags mode (opened (ans ev))
           :: replicate (length ints)
                (SysOpenat dirfd file oflags mode (Error EINTR))
           ++ strace w
      /\ match opened (ans ev) with
         | Error e => errno w' = e /\ e <> EINTR
         | Ok _ => True
         end.
Proof.
  intros Hall Hev. induction Hall as [|i ints Hi _ IH]; intros w Hq.
  - cbn [app]. rewrite openat_loop_cons, Hev. cbv zeta.
    eexists. split; [reflexivity|]. rewrite sys_openat_strace.
    split; [reflexivity|].
    unfold sys_openat, returned.
    destruct (ans ev) as [v|e] eqn:Ha; cbn [opened]; [exact I|].
    split; [reflexivity|]. intros ->. discriminate Hev.
  - apply quit_honoured_cons_false in Hq. destruct Hq as (Hq & Hqi & Hnext).
    rewrite <- app_comm_cons, openat_loop_cons, (is_eintr_EINTR i Hi).
    cbv zeta. rewrite Hq, Hqi. cbn [orb].
    destruct (IH (snd (sys_openat dirfd file oflags mode i w)))
      as (w' & Hret & Hst & Herr).
    { apply Hnext. rewrite sys_openat_quit, Hq, Hqi. reflexivity. }
    exists w'. split; [exact Hret|]. split; [|exact Herr].
    rewrite Hst, sys_openat_strace, Hi. cbn [opened length].
    rewrite replicate_S_end, <- app_assoc. reflexivity.
Qed.

(** Property X17.  On a mode that does not begin with 'r', 'w' or 'a'
    [emacs_fopen] aborts, before any call; on any other mode it never
    does.  On such a mode, with its open interrupted any number of times
    and then answered: it leaves by the quit exactly when a quit is pending
    or arrives at one of the interruptions; otherwise it returns, having
    made one [openat] per interruption and one more and no other call.  It
    then returns a null pointer if that open failed, with the [errno] of
    the open, which is not EINTR, and if [fdopen] failed, with the [errno]
    of [fdopen], the descriptor just opened being left open; else it
    returns the stream of [fdopen]. *)
Theorem emacs_fopen_failures (file : Z) (mode : string) (a : stream_answer)
    (ints : script) (ev : event) (rest k : script) (w : world) :
  all_eintr ints -> is_eintr (ans ev) = false ->
  match fopen_mode_first (first_char mode) with
  | None =>
      emacs_fopen file mode a k w
      = Esc (ByTermination Signals.SIGABRT) (k, w)
  | Some _ =>
      observe (emacs_fopen file mode a k w)
      <> Escapes (ByTermination Signals.SIGABRT)
      /\ if quit_honoured w ints
         then observe (emacs_fopen file mode a (ints ++ ev :: rest) w)
              = Escapes ByQuit
         else
           exists w',
             emacs_fopen file mode a (ints ++ ev :: rest) w
             = Ret (fopen_value a ev) (rest, w')
             /\ (exists oflags,
                   strace w'
                   = SysOpenat AT_FDCWD file oflags 438 (opened (ans ev))
                     :: replicate (length ints)
                          (SysOpenat AT_FDCWD file oflags 438 (Error EINTR))
                     ++ strace w)
             /\ match opened (ans ev), a with
                | Error e, _ => errno w' = e /\ e <> EINTR
                | Ok _, NoStream e => errno w' = e
                | Ok _, Stream _ => True
                end
  end.
Proof.
  intros Hall Hev.
  destruct (fopen_mode_first (first_char mode)) as [[omode oflags]|] eqn:Hfirst.
  2:{ unfold emacs_fopen. fold (first_char mode). rewrite Hfirst. reflexivity. }
  destruct mode as [|c m]; [discriminate Hfirst|].
  cbn [first_char] in Hfirst.
  rewrite !(emacs_fopen_valid _ _ _ _ _ _ _ _ Hfirst).
  set (flags := Z.lor (Z.lor (if has_plus m then O_RDWR else omode) oflags)
                  O_CLOEXEC).
  split.
  - destruct (openat_loop AT_FDCWD file flags 438 k w)
      as [fd [k' w']|e [k' w']] eqn:Hl; cbn [bind].
    + destruct (fd <? 0); [discriminate|]. cbn [snd fst].
      destruct a; cbn [emacs_fdopen observe]; discriminate.
    + apply openat_loop_escapes in Hl. cbn [observe].
      destruct Hl as [-> | ->]; discriminate.
  - destruct (quit_honoured w ints) eqn:Hq.
    + pose proof (openat_loop_interrupted AT_FDCWD file flags 438 ints
                    (ev :: rest) w Hall) as Hobs.
      rewrite Hq in Hobs.
      destruct (openat_loop AT_FDCWD file flags 438 (ints ++ ev :: rest) w)
        as [fd s|e s]; [discriminate Hobs|].
      cbn [bind observe] in *. exact Hobs.
    + destruct (openat_loop_answered AT_FDCWD file flags 438 ints ev rest
                  Hall Hev w Hq) as (w' & Hret & Hst & Herr).
      rewrite Hret. cbn [bind]. unfold fopen_value.
      destruct (ans ev) as [v|e]; cbn [opened retval] in *.
      * replace (Z.of_N v <? 0) with false by (symmetry; apply Z.ltb_ge; lia).
        cbn [snd fst].
        destruct a as [fp|e]; cbn [emacs_fdopen].
        -- exists w'. split; [reflexivity|].
           split; [exists flags; exact Hst | exact I].
        -- exists (set_errno e w'). split; [reflexivity|].
           split; [exists flags; exact Hst | reflexivity].
      * change (-1 <? 0) with true. cbv iota.
        exists w'. split; [destruct a; reflexivity|].
        split; [exists flags; exact Hst | exact Herr].
Qed.

Lemma emacs_fopen_failures_witness :
  all_eintr [Event (Fail EINTR) false]
  /\ is_eintr (ans (Event (Done 3) false)) = false
  /\ exists w',
       emacs_fopen 7 "r" (NoStream 12)
         ([Event (Fail EINTR) false] ++ Event (Done 3) false :: []) idle
       = Ret 0 ([], w')
       /\ errno w' = 12.
Proof.
  assert (all_eintr [Event (Fail EINTR) false]) as Hints
    by (repeat constructor).
  split; [exact Hints|]. split; [reflexivity|].
  destruct (emacs_fopen_failures 7 "r" (NoStream 12)
              [Event (Fail EINTR) false] (Event (Done 3) false) [] [] idle
              Hints eq_refl) as (_ & w' & Hret & _ & Herr).
  exists w'. split; [exact Hret | exact Herr].
Defined.

(** *** Signal masks and saved handlers *)

Lemma sigmask_libc (w : Signals.world) :
  Signals.sigmask (Signals.libc w) = Signals.sigmask w.
Proof. unfold Signals.libc. destruct (Signals.noise w); reflexivity. Qed.

Lemma sigmask_pthread_sigmask (h : Signals.how) (set : gset Z)
    (w : Signals.world) :
  Signals.sigmask (Signals.pthread_sigmask h set w)
  = match h with
    | Signals.SIG_BLOCK => Signals.sigmask w ∪ set
    | Signals.SIG_SETMASK => set
    end.
Proof. unfold Signals.pthread_sigmask. rewrite sigmask_libc. reflexivity. Qed.

(** Property X18.  [block_child_signal] adds SIGCHLD and SIGINT to the
    signal mask; [block_interrupt_signal] inside it changes nothing, and
    its [restore_signal_mask] leaves the two signals blocked;
    [unblock_child_signal] then gives back the mask there was at first. *)
Theorem signal_mask_brackets_nest (w : Signals.world) :
  let '(outer, w1) := SignalMask.block_child_signal w in
  let '(inner, w2) := SignalMask.block_interrupt_signal w1 in
  let w3 := SignalMask.restore_signal_mask inner w2 in
  let w4 := SignalMask.unblock_child_signal outer w3 in
  Signals.sigmask w1
  = Signals.sigmask w ∪ {[Signals.SIGCHLD; Signals.SIGINT]}
  /\ Signals.sigmask w2 = Signals.sigmask w1
  /\ Signals.sigmask w3 = Signals.sigmask w1
  /\ Signals.sigmask w4 = Signals.sigmask w.
Proof.
  unfold SignalMask.block_child_signal, SignalMask.block_interrupt_signal,
    SignalMask.restore_signal_mask, SignalMask.unblock_child_signal,
    SignalMask.pthread_sigmask_old.
  cbv zeta. rewrite !sigmask_pthread_sigmask.
  rewrite !(left_id_L (∅ : gset Z) (∪)).
  split; [reflexivity|]. split; [|split; reflexivity].
  rewrite <- (assoc_L (∪)). f_equal.
Qed.

Lemma listed_codes_cons (s : SavedHandlers.save_signal)
    (rest : list SavedHandlers.save_signal) :
  SavedHandlers.code s <> 0 ->
  listed_codes (s :: rest) = SavedHandlers.code s :: listed_codes rest.
Proof.
  intros Hne. unfold listed_codes. cbn [listed].
  destruct (Z.eqb_spec (SavedHandlers.code s) 0); [contradiction|].
  reflexivity.
Qed.

Lemma listed_codes_end (s : SavedHandlers.save_signal)
    (rest : list SavedHandlers.save_signal) :
  SavedHandlers.code s = 0 -> listed_codes (s :: rest) = [].
Proof.
  intros He. unfold listed_codes. cbn [listed]. rewrite He. reflexivity.
Qed.

(** Saving the handlers of distinct signals and restoring them, whatever
    was done to the dispositions in between. *)
Lemma save_restore (saved : list SavedHandlers.save_signal) :
  forall w : Signals.world,
    NoDup (listed_codes saved) ->
    (forall sig,
       sig ∈ listed_codes saved ->
       Signals.sa_handler
         (Signals.disposition
            (snd (SavedHandlers.save_signal_handlers saved w)) sig)
       = Signals.SIG_IGN)
    /\ (forall sig,
          sig ∉ listed_codes saved ->
          Signals.disposition
            (snd (SavedHandlers.save_signal_handlers saved w)) sig
          = Signals.disposition w sig)
    /\ (forall (w' : Signals.world) (sig : Z),
          Signals.disposition
            (SavedHandlers.restore_signal_handlers
               (fst (SavedHandlers.save_signal_handlers saved w)) w') sig
          = if bool_decide (sig ∈ listed_codes saved)
            then Signals.disposition w sig
            else Signals.disposition w' sig).
Proof.
  induction saved as [|s rest IH]; intros w Hnodup.
  - cbn [SavedHandlers.save_signal_handlers
           SavedHandlers.restore_signal_handlers fst snd].
    unfold listed_codes. cbn [listed fmap list_fmap].
    split; [intros sig Hin; apply elem_of_nil in Hin; destruct Hin|].
    split; [reflexivity|]. intros w' sig.
    rewrite bool_decide_eq_false_2 by apply not_elem_of_nil. reflexivity.
  - cbn [SavedHandlers.save_signal_handlers].
    destruct (Z.eqb_spec (SavedHandlers.code s) 0) as [He|Hne].
    + rewrite (listed_codes_end s rest He).
      cbn [fst snd SavedHandlers.restore_signal_handlers].
      rewrite He. change (0 =? 0) with true. cbv iota.
      split; [intros sig Hin; apply elem_of_nil in Hin; destruct Hin|].
      split; [reflexivity|]. intros w' sig.
      rewrite bool_decide_eq_false_2 by apply not_elem_of_nil. reflexivity.
    + rewrite (listed_codes_cons s rest Hne) in *.
      apply NoDup_cons in Hnodup. destruct Hnodup as [Hfresh Hnodup].
      unfold SavedHandlers.sigaction_old.
      set (w0 := Signals.sigaction (SavedHandlers.code s)
                   (SavedHandlers.emacs_sigaction_init Signals.SIG_IGN w) w).
      destruct (IH w0 Hnodup) as (Hign & Hother & Hback).
      destruct (SavedHandlers.save_signal_handlers rest w0) as [rest' w2].
      cbn [fst snd] in *.
      split; [|split].
      * intros sig Hin. apply elem_of_cons in Hin.
        destruct (decide (sig ∈ listed_codes rest)) as [Hrest|Hrest];
          [apply Hign; exact Hrest|].
        destruct Hin as [->|Hin]; [|contradiction].
        rewrite (Hother _ Hrest). unfold w0.
        rewrite disposition_sigaction_same. reflexivity.
      * intros sig Hout. apply not_elem_of_cons in Hout.
        destruct Hout as [Hne' Hout]. rewrite (Hother _ Hout). unfold w0.
        apply disposition_sigaction_other. congruence.
      * intros w' sig.
        cbn [SavedHandlers.restore_signal_handlers SavedHandlers.code
               SavedHandlers.action].
        destruct (Z.eqb_spec (SavedHandlers.code s) 0); [contradiction|].
        rewrite Hback.
        destruct (decide (sig = SavedHandlers.code s)) as [->|Hsig].
        -- rewrite bool_decide_eq_false_2 by exact Hfresh.
           rewrite bool_decide_eq_true_2 by (apply elem_of_cons; left; reflexivity).
           apply disposition_sigaction_same.
        -- destruct (decide (sig ∈ listed_codes rest)) as [Hrest|Hrest].
           ++ rewrite !bool_decide_eq_true_2;
                [|apply elem_of_cons; right; exact Hrest | exact Hrest].
              unfold w0. apply disposition_sigaction_other. congruence.
           ++ rewrite !bool_decide_eq_false_2;
                [|rewrite elem_of_cons; tauto | exact Hrest].
              apply disposition_sigaction_other. congruence.
Qed.

(** Property X19.  For an array that lists no signal twice before its
    closing entry of code 0: [save_signal_handlers] leaves every listed
    signal ignored and the action of every other signal as it was;
    [restore_signal_handlers] on the saved array puts back the actions of
    the listed signals, as they were when they were saved, and touches no
    other; run after the save it gives back all the actions there were. *)
Theorem saved_handlers_round_trip (saved : list SavedHandlers.save_signal)
    (w w' : Signals.world) (sig : Z) :
  NoDup (listed_codes saved) ->
  let '(saved', w1) := SavedHandlers.save_signal_handlers saved w in
  (sig ∈ listed_codes saved ->
   Signals.sa_handler (Signals.disposition w1 sig) = Signals.SIG_IGN)
  /\ (sig ∉ listed_codes saved ->
      Signals.disposition w1 sig = Signals.disposition w sig)
  /\ Signals.disposition (SavedHandlers.restore_signal_handlers saved' w') sig
     = (if bool_decide (sig ∈ listed_codes saved)
        then Signals.disposition w sig
        else Signals.disposition w' sig)
  /\ Signals.disposition (SavedHandlers.restore_signal_handlers saved' w1) sig
     = Signals.disposition w sig.
Proof.
  intros Hnodup. destruct (save_restore saved w Hnodup) as (Hign & Hother & Hback).
  destruct (SavedHandlers.save_signal_handlers saved w) as [saved' w1].
  cbn [fst snd] in *.
  split; [apply Hign|]. split; [apply Hother|]. split; [apply Hback|].
  rewrite Hback. destruct (bool_decide (sig ∈ listed_codes saved)) eqn:Hd;
    [reflexivity|].
  apply Hother. apply bool_decide_eq_false in Hd. exact Hd.
Qed.

(** Without the precondition: a signal listed twice is left ignored. *)
Example saved_handlers_listed_twice :
  let saved :=
    [ SavedHandlers.SaveSignal Signals.SIGINT Signals.default_action;
      SavedHandlers.SaveSignal Signals.SIGINT Signals.default_action;
      SavedHandlers.SaveSignal 0 Signals.default_action ] in
  let '(saved', w1) := SavedHandlers.save_signal_handlers saved batch_world in
  Signals.sa_handler
    (Signals.disposition
       (SavedHandlers.restore_signal_handlers saved' w1) Signals.SIGINT)
  = Signals.SIG_IGN
  /\ Signals.sa_handler (Signals.disposition batch_world Signals.SIGINT)
     = Signals.SIG_DFL.
Proof. vm_compute. split; reflexivity. Qed.

Lemma saved_handlers_round_trip_witness :
  NoDup (listed_codes (subshell_handlers Signals.default_action))
  /\ let '(saved', w1) :=
       SavedHandlers.save_signal_handlers
         (subshell_handlers Signals.default_action) batch_world in
     (Signals.SIGINT ∈ listed_codes (subshell_handlers Signals.default_action)
      -> Signals.sa_handler (Signals.disposition w1 Signals.SIGINT)
         = Signals.SIG_IGN)
     /\ (Signals.SIGINT ∉ listed_codes (subshell_handlers Signals.default_action)
         -> Signals.disposition w1 Signals.SIGINT
            = Signals.disposition batch_world Signals.SIGINT)
     /\ Signals.disposition
          (SavedHandlers.restore_signal_handlers saved' batch_world)
          Signals.SIGINT
        = (if bool_decide
                (Signals.SIGINT
                   ∈ listed_codes (subshell_handlers Signals.default_action))
           then Signals.disposition batch_world Signals.SIGINT
           else Signals.disposition batch_world Signals.SIGINT)
     /\ Signals.disposition
          (SavedHandlers.restore_signal_handlers saved' w1) Signals.SIGINT
        = Signals.disposition batch_world Signals.SIGINT.
Proof.
  assert (NoDup (listed_codes (subshell_handlers Signals.default_action)))
    as Hnodup.
  { apply (bool_decide_unpack _). vm_compute. exact I. }
  split; [exact Hnodup|].
  exact (saved_handlers_round_trip
           (subshell_handlers Signals.default_action) batch_world batch_world
           Signals.SIGINT Hnodup).
Defined.

(** *** Handing the terminal over and back *)

Lemma tcsetpgrp_without_stopping_balanced (fd pgid : Z)
    (w : ForegroundGroup.world) :
  let w' := ForegroundGroup.tcsetpgrp_without_stopping fd pgid w in
  ForegroundGroup.sigmask w' = ForegroundGroup.sigmask w
  /\ ForegroundGroup.interrupt_input_blocked w'
     = ForegroundGroup.interrupt_input_blocked w
  /\ ForegroundGroup.pgrp w' = ForegroundGroup.pgrp w
  /\ ForegroundGroup.pid w' = ForegroundGroup.pid w
  /\ ForegroundGroup.inherited_pgroup w' = ForegroundGroup.inherited_pgroup w
  /\ ForegroundGroup.session_leader w' = ForegroundGroup.session_leader w
  /\ ForegroundGroup.foreground w'
     = (if bool_decide (is_Some (ForegroundGroup.foreground w !! fd))
        then <[fd := pgid]> (ForegroundGroup.foreground w)
        else ForegroundGroup.foreground w).
Proof.
  cbv zeta.
  unfold ForegroundGroup.tcsetpgrp_without_stopping,
    ForegroundGroup.block_input, ForegroundGroup.unblock_input,
    ForegroundGroup.block_tty_out_signal,
    ForegroundGroup.unblock_tty_out_signal, ForegroundGroup.tcsetpgrp.
  cbn [ForegroundGroup.with_input_blocked ForegroundGroup.with_sigmask
         ForegroundGroup.foreground ForegroundGroup.sigmask
         ForegroundGroup.interrupt_input_blocked].
  destruct (ForegroundGroup.foreground w !! fd) as [g|] eqn:Hfd.
  - rewrite bool_decide_eq_true_2 by (eexists; reflexivity).
    cbn. repeat split. lia.
  - rewrite bool_decide_eq_false_2 by (intros [g Hg]; discriminate).
    cbn. repeat split. lia.
Qed.

Lemma tcsetpgrp_without_stopping_peers (fd pgid : Z)
    (w : ForegroundGroup.world) :
  ForegroundGroup.peer_groups
    (ForegroundGroup.tcsetpgrp_without_stopping fd pgid w)
  = ForegroundGroup.peer_groups w.
Proof.
  unfold ForegroundGroup.tcsetpgrp_without_stopping,
    ForegroundGroup.block_input, ForegroundGroup.unblock_input,
    ForegroundGroup.block_tty_out_signal,
    ForegroundGroup.unblock_tty_out_signal, ForegroundGroup.tcsetpgrp.
  cbn [ForegroundGroup.with_input_blocked ForegroundGroup.with_sigmask
         ForegroundGroup.foreground].
  destruct (ForegroundGroup.foreground w !! fd); reflexivity.
Qed.

(** Narrowing always succeeds for a process that is no session leader:
    the group of its own pid is at hand. *)
Lemma narrow_foreground_group_member (fd : Z) (w : ForegroundGroup.world) :
  ForegroundGroup.inherited_pgroup w <> 0 ->
  ForegroundGroup.session_leader w = false ->
  ForegroundGroup.narrow_foreground_group fd w
  = ForegroundGroup.tcsetpgrp_without_stopping fd (ForegroundGroup.pid w)
      (ForegroundGroup.with_kernel (ForegroundGroup.errno w)
         (ForegroundGroup.pid w) (ForegroundGroup.foreground w)
         (ForegroundGroup.Setpgid 0 0 (Ok 0)) w).
Proof.
  intros Hin Hsl.
  unfold ForegroundGroup.narrow_foreground_group, ForegroundGroup.setpgid,
    ForegroundGroup.group_at_hand.
  apply Z.eqb_neq in Hin. rewrite Hin, Hsl.
  change (0 <? 0) with false. change (0 =? 0) with true. cbv iota zeta.
  rewrite Z.eqb_refl. reflexivity.
Qed.

(** Widening succeeds if the inherited group is still at hand. *)
Lemma widen_foreground_group_member (fd : Z) (w : ForegroundGroup.world) :
  0 < ForegroundGroup.inherited_pgroup w ->
  ForegroundGroup.session_leader w = false ->
  ForegroundGroup.group_at_hand (ForegroundGroup.inherited_pgroup w) w = true ->
  ForegroundGroup.widen_foreground_group fd w
  = ForegroundGroup.tcsetpgrp_without_stopping fd
      (ForegroundGroup.inherited_pgroup w)
      (ForegroundGroup.with_kernel (ForegroundGroup.errno w)
         (ForegroundGroup.inherited_pgroup w) (ForegroundGroup.foreground w)
         (ForegroundGroup.Setpgid 0 (ForegroundGroup.inherited_pgroup w)
            (Ok 0)) w).
Proof.
  intros Hin Hsl Hat.
  unfold ForegroundGroup.widen_foreground_group, ForegroundGroup.setpgid.
  replace (ForegroundGroup.inherited_pgroup w =? 0) with false
    by (symmetry; apply Z.eqb_neq; lia).
  replace (ForegroundGroup.inherited_pgroup w <? 0) with false
    by (symmetry; apply Z.ltb_ge; lia).
  cbv iota zeta. rewrite Hsl, Hat. reflexivity.
Qed.

(** It fails, and does nothing else, if that group is gone. *)
Lemma widen_foreground_group_gone (fd : Z) (w : ForegroundGroup.world) :
  0 < ForegroundGroup.inherited_pgroup w ->
  ForegroundGroup.group_at_hand (ForegroundGroup.inherited_pgroup w) w = false ->
  ForegroundGroup.widen_foreground_group fd w
  = ForegroundGroup.with_kernel EPERM (ForegroundGroup.pgrp w)
      (ForegroundGroup.foreground w)
      (ForegroundGroup.Setpgid 0 (ForegroundGroup.inherited_pgroup w)
         (Error EPERM)) w.
Proof.
  intros Hin Hat.
  unfold ForegroundGroup.widen_foreground_group, ForegroundGroup.setpgid.
  replace (ForegroundGroup.inherited_pgroup w =? 0) with false
    by (symmetry; apply Z.eqb_neq; lia).
  replace (ForegroundGroup.inherited_pgroup w <? 0) with false
    by (symmetry; apply Z.ltb_ge; lia).
  cbv iota zeta. rewrite Hat, orb_true_r. reflexivity.
Qed.

(** Property X20.  For a process whose ids are what the kernel gives out
    (a session leader leads its group, no group is negative): after
    [init_foreground_group], narrowing and then widening the foreground
    group leaves the signal mask and the nesting of blocked input as they
    were.  A process that leads its group, or whose group is 0, is left
    alone by both.  Any other process is moved into a group of its own by
    the narrowing, and a terminal [fd] is given to that group.  The
    widening brings it, and the terminal, back to the group inherited if
    another process of the session is still in that group; if there is
    none the group is gone, [setpgid] fails with EPERM, and process and
    terminal stay in the group that the narrowing made. *)
Theorem narrow_then_widen (fd : Z) (w : ForegroundGroup.world) :
  session_leader_leads w -> 0 <= ForegroundGroup.pgrp w ->
  let w0 := ForegroundGroup.init_foreground_group w in
  let w1 := ForegroundGroup.narrow_foreground_group fd w0 in
  let w2 := ForegroundGroup.widen_foreground_group fd w1 in
  ForegroundGroup.sigmask w2 = ForegroundGroup.sigmask w
  /\ ForegroundGroup.interrupt_input_blocked w2
     = ForegroundGroup.interrupt_input_blocked w
  /\ (ForegroundGroup.pid w = ForegroundGroup.pgrp w
      \/ ForegroundGroup.pgrp w = 0 ->
      w1 = w0 /\ w2 = w0)
  /\ (ForegroundGroup.pid w <> ForegroundGroup.pgrp w ->
      ForegroundGroup.pgrp w <> 0 ->
      ForegroundGroup.pgrp w1 = ForegroundGroup.pid w
      /\ (is_Some (ForegroundGroup.foreground w !! fd) ->
          ForegroundGroup.foreground w1 !! fd = Some (ForegroundGroup.pid w))
      /\ if bool_decide (ForegroundGroup.pgrp w
                           ∈ ForegroundGroup.peer_groups w)
         then
           ForegroundGroup.pgrp w2 = ForegroundGroup.pgrp w
           /\ (is_Some (ForegroundGroup.foreground w !! fd) ->
               ForegroundGroup.foreground w2 !! fd
               = Some (ForegroundGroup.pgrp w))
         else
           ForegroundGroup.pgrp w2 = ForegroundGroup.pid w
           /\ ForegroundGroup.errno w2 = EPERM
           /\ ForegroundGroup.foreground w2 = ForegroundGroup.foreground w1
           /\ ForegroundGroup.calls w2
              = ForegroundGroup.Setpgid 0 (ForegroundGroup.pgrp w)
                  (Error EPERM)
                :: ForegroundGroup.calls w1).
Proof.
  intros Hleads Hnonneg. cbv zeta.
  destruct (Z.eq_dec (ForegroundGroup.pid w) (ForegroundGroup.pgrp w))
    as [Hlead|Hmember].
  { (* a group leader: nothing is done *)
    pose proof (init_foreground_group_leader w Hlead) as H0.
    rewrite (narrow_noop fd _ H0), (widen_noop fd _ H0).
    repeat split; try reflexivity; contradiction. }
  destruct (Z.eq_dec (ForegroundGroup.pgrp w) 0) as [Hzero|Hgroup].
  { assert (ForegroundGroup.inherited_pgroup
              (ForegroundGroup.init_foreground_group w) = 0) as H0.
    { unfold ForegroundGroup.init_foreground_group. cbn.
      destruct (ForegroundGroup.pid w =? ForegroundGroup.pgrp w);
        [reflexivity | exact Hzero]. }
    rewrite (narrow_noop fd _ H0), (widen_noop fd _ H0).
    repeat split; try reflexivity; contradiction. }
  assert (ForegroundGroup.session_leader w = false) as Hsl.
  { destruct (ForegroundGroup.session_leader w) eqn:Hs; [|reflexivity].
    exfalso. apply Hmember. apply Hleads. exact Hs. }
  set (w0 := ForegroundGroup.init_foreground_group w).
  assert (ForegroundGroup.inherited_pgroup w0 = ForegroundGroup.pgrp w) as Hin0.
  { subst w0. unfold ForegroundGroup.init_foreground_group. cbn.
    apply Z.eqb_neq in Hmember. rewrite Hmember. reflexivity. }
  rewrite (narrow_foreground_group_member fd w0)
    by (rewrite ?Hin0; assumption).
  set (wa := ForegroundGroup.with_kernel _ _ _ _ w0).
  pose proof (tcsetpgrp_without_stopping_balanced fd (ForegroundGroup.pid w0) wa)
    as (Hm1 & Hb1 & Hg1 & Hp1 & Hi1 & Hs1 & Hf1).
  set (w1 := ForegroundGroup.tcsetpgrp_without_stopping fd _ wa) in *.
  assert (ForegroundGroup.inherited_pgroup w1 = ForegroundGroup.pgrp w) as Hin1
    by (rewrite Hi1; exact Hin0).
  assert (ForegroundGroup.peer_groups w1 = ForegroundGroup.peer_groups w)
    as Hpeers
    by (unfold w1; rewrite tcsetpgrp_without_stopping_peers; reflexivity).
  assert (ForegroundGroup.pgrp w1 = ForegroundGroup.pid w) as Hown
    by exact Hg1.
  assert (ForegroundGroup.foreground w1 !! fd = Some (ForegroundGroup.pid w)
          \/ ~ is_Some (ForegroundGroup.foreground w !! fd)) as Hfg1.
  { destruct (decide (is_Some (ForegroundGroup.foreground w !! fd)))
      as [Htty|Hno]; [left | right; exact Hno].
    rewrite Hf1, bool_decide_eq_true_2 by exact Htty.
    apply lookup_insert_eq. }
  assert (ForegroundGroup.group_at_hand (ForegroundGroup.inherited_pgroup w1) w1
          = bool_decide (ForegroundGroup.pgrp w
                           ∈ ForegroundGroup.peer_groups w)) as Hat.
  { unfold ForegroundGroup.group_at_hand. rewrite Hin1, Hown, Hp1, Hpeers.
    change (ForegroundGroup.pid wa) with (ForegroundGroup.pid w).
    replace (ForegroundGroup.pgrp w =? ForegroundGroup.pid w) with false
      by (symmetry; apply Z.eqb_neq; congruence).
    reflexivity. }
  destruct (bool_decide (ForegroundGroup.pgrp w
                           ∈ ForegroundGroup.peer_groups w)) eqn:Hthere.
  - (* the inherited group still has a member *)
    assert (Hpos1 : 0 < ForegroundGroup.inherited_pgroup w1)
      by (rewrite Hin1; lia).
    assert (Hsl1 : ForegroundGroup.session_leader w1 = false)
      by (rewrite Hs1; exact Hsl).
    rewrite (widen_foreground_group_member fd w1 Hpos1 Hsl1 Hat).
    rewrite Hin1.
    set (wb := ForegroundGroup.with_kernel _ _ _ _ w1).
    pose proof (tcsetpgrp_without_stopping_balanced fd
                  (ForegroundGroup.pgrp w) wb)
      as (Hm2 & Hb2 & Hg2 & Hp2 & Hi2 & Hs2 & Hf2).
    set (w2 := ForegroundGroup.tcsetpgrp_without_stopping fd _ wb) in *.
    split; [rewrite Hm2; exact Hm1|]. split; [rewrite Hb2; exact Hb1|].
    split; [intros [Hl|Hz]; contradiction|].
    intros _ _. split; [exact Hown|].
    split; [intros Htty; destruct Hfg1 as [Hfg1|Hno]; [exact Hfg1 | tauto]|].
    split; [exact Hg2|]. intros Htty.
    destruct Hfg1 as [Hfg1|Hno]; [|tauto].
    rewrite Hf2, bool_decide_eq_true_2
      by (exists (ForegroundGroup.pid w); exact Hfg1).
    apply lookup_insert_eq.
  - (* the inherited group is gone *)
    assert (Hpos1 : 0 < ForegroundGroup.inherited_pgroup w1)
      by (rewrite Hin1; lia).
    rewrite (widen_foreground_group_gone fd w1 Hpos1 Hat).
    rewrite Hin1.
    split; [exact Hm1|]. split; [exact Hb1|].
    split; [intros [Hl|Hz]; contradiction|].
    intros _ _. split; [exact Hown|].
    split; [intros Htty; destruct Hfg1 as [Hfg1|Hno]; [exact Hfg1 | tauto]|].
    split; [exact Hown|]. repeat split.
Qed.

Lemma narrow_then_widen_witness :
  session_leader_leads member_world
  /\ 0 <= ForegroundGroup.pgrp member_world
  /\ ForegroundGroup.sigmask
       (ForegroundGroup.widen_foreground_group 0
          (ForegroundGroup.narrow_foreground_group 0
             (ForegroundGroup.init_foreground_group member_world)))
     = ForegroundGroup.sigmask member_world.
Proof.
  assert (session_leader_leads member_world) as H by (intros H; discriminate H).
  assert (0 <= ForegroundGroup.pgrp member_world) as Hp
    by (cbn [ForegroundGroup.pgrp member_world]; lia).
  split; [exact H|]. split; [exact Hp|].
  exact (proj1 (narrow_then_widen 0 member_world H Hp)).
Defined.

(** The two ways the round trip ends for a process started in the group
    4000 of its caller: with the caller still there, and with the caller
    gone. *)
Example narrow_then_widen_back :
  let w2 :=
    ForegroundGroup.widen_foreground_group 0
      (ForegroundGroup.narrow_foreground_group 0
         (ForegroundGroup.init_foreground_group member_world)) in
  ForegroundGroup.pgrp w2 = 4000
  /\ ForegroundGroup.foreground w2 !! 0 = Some 4000.
Proof. vm_compute. split; reflexivity. Qed.

Example narrow_then_widen_stranded :
  let alone :=
    {| ForegroundGroup.errno := 0;
       ForegroundGroup.pid := 4242;
       ForegroundGroup.pgrp := 4000;
       ForegroundGroup.session_leader := false;
       ForegroundGroup.peer_groups := ∅;
       ForegroundGroup.inherited_pgroup := 0;
       ForegroundGroup.foreground := {[ 0 := 4000 ]};
       ForegroundGroup.sigmask := ∅;
       ForegroundGroup.interrupt_input_blocked := 0;
       ForegroundGroup.calls := [] |} in
  let w2 :=
    ForegroundGroup.widen_foreground_group 0
      (ForegroundGroup.narrow_foreground_group 0
         (ForegroundGroup.init_foreground_group alone)) in
  ForegroundGroup.pgrp w2 = 4242
  /\ ForegroundGroup.errno w2 = EPERM
  /\ ForegroundGroup.foreground w2 !! 0 = Some 4242.
Proof. vm_compute. repeat split; reflexivity. Qed.

(** *** Diagnostics *)

Lemma only_wrote_refl (fd : Z) (w : world) : only_wrote fd w w.
Proof.
  repeat split; [tauto|]. exists []. split; [reflexivity | constructor].
Qed.

Lemma only_wrote_trans (fd : Z) (w1 w2 w3 : world) :
  only_wrote fd w1 w2 -> only_wrote fd w2 w3 -> only_wrote fd w1 w3.
Proof.
  intros (Hp1 & Hq1 & Ho1 & new1 & Hs1 & Hall1)
         (Hp2 & Hq2 & Ho2 & new2 & Hs2 & Hall2).
  split; [congruence|]. split; [tauto|]. split; [congruence|].
  exists (new2 ++ new1). split.
  - rewrite Hs2, Hs1, app_assoc. reflexivity.
  - apply Forall_app. split; assumption.
Qed.

Lemma only_wrote_set_errno (fd e : Z) (w : world) :
  only_wrote fd w (set_errno e w).
Proof.
  repeat split; [tauto|]. exists []. split; [reflexivity | constructor].
Qed.

Lemma sys_write_only_wrote (fd buf nbyte : Z) (ev : event) (w : world) :
  only_wrote fd w (snd (sys_write fd buf nbyte ev w)).
Proof.
  unfold sys_write, returned.
  destruct (transfer (ans ev) (size_t_of nbyte)) as [v|e];
    unfold only_wrote, log, set_errno, raise_quit; cbn;
    (split; [reflexivity|]);
    (split; [intros Hq; rewrite Hq; reflexivity|]);
    (split; [reflexivity|]);
    eexists [_]; (split; [reflexivity|]); repeat constructor.
Qed.

(** With [interruptible] 0, [emacs_full_write] only writes. *)
Lemma full_write_loop_only_wrote (M fd : Z) (k : script) :
  forall (buf nbyte bw : Z) (w : world),
    match full_write_loop M fd buf nbyte bw 0 k w with
    | Ret _ (_, w') => only_wrote fd w w'
    | Esc e (k', w') => e = Blocked /\ k' = [] /\ only_wrote fd w w'
    end.
Proof.
  induction k as [|ev k IH]; intros buf nbyte bw w.
  - cbn [full_write_loop]. destruct (0 <? nbyte).
    + split; [reflexivity|]. split; [reflexivity | apply only_wrote_refl].
    + apply only_wrote_refl.
  - destruct (Z.ltb_spec 0 nbyte) as [Hpos|Hle].
    + rewrite full_write_loop_step by exact Hpos. cbv zeta.
      pose proof (sys_write_only_wrote fd buf (Z.min nbyte M) ev w) as Hcall.
      assert (Hnext : forall buf' nbyte' bw',
                match full_write_loop M fd buf' nbyte' bw' 0 k
                        (snd (sys_write fd buf (Z.min nbyte M) ev w)) with
                | Ret _ (_, w') => only_wrote fd w w'
                | Esc e (k', w') => e = Blocked /\ k' = [] /\ only_wrote fd w w'
                end).
      { intros buf' nbyte' bw'.
        specialize (IH buf' nbyte' bw'
                      (snd (sys_write fd buf (Z.min nbyte M) ev w))).
        destruct (full_write_loop M fd buf' nbyte' bw' 0 k _)
          as [r [k' w']|e [k' w']].
        - eapply only_wrote_trans; eassumption.
        - destruct IH as (He & Hk & Hw). split; [exact He|].
          split; [exact Hk|]. eapply only_wrote_trans; eassumption. }
      destruct (fst (sys_write fd buf (Z.min nbyte M) ev w) <? 0).
      * destruct (negb _); [exact Hcall|].
        change (write_interrupted 0 ?x) with (@Ret world unit tt x).
        cbv iota. apply Hnext.
      * apply Hnext.
    + rewrite full_write_loop_done by exact Hle. apply only_wrote_refl.
Qed.

Lemma emacs_write_only_wrote (M fd buf nbyte : Z) (st : state) :
  match emacs_write M fd buf nbyte (fst st) (snd st) with
  | Ret _ (_, w') => only_wrote fd (snd st) w'
  | Esc e (k', w') => e = Blocked /\ k' = [] /\ only_wrote fd (snd st) w'
  end.
Proof. apply full_write_loop_only_wrote. Qed.

(** A sequence of steps that only write, only writes. *)
Lemma bind_only_wrote {A B : Type} (fd : Z) (w : world)
    (o : outcome state A) (f : A -> state -> outcome state B) :
  match o with
  | Ret _ (_, w') => only_wrote fd w w'
  | Esc e (k', w') => e = Blocked /\ k' = [] /\ only_wrote fd w w'
  end ->
  (forall a st,
     match f a st with
     | Ret _ (_, w') => only_wrote fd (snd st) w'
     | Esc e (k', w') => e = Blocked /\ k' = [] /\ only_wrote fd (snd st) w'
     end) ->
  match bind o f with
  | Ret _ (_, w') => only_wrote fd w w'
  | Esc e (k', w') => e = Blocked /\ k' = [] /\ only_wrote fd w w'
  end.
Proof.
  intros Ho Hf. destruct o as [a [k1 w1]|e [k1 w1]]; cbn [bind]; [|exact Ho].
  specialize (Hf a (k1, w1)). cbn [snd] in Hf.
  destruct (f a (k1, w1)) as [b [k2 w2]|e [k2 w2]].
  - eapply only_wrote_trans; eassumption.
  - destruct Hf as (He & Hk & Hw). split; [exact He|]. split; [exact Hk|].
    eapply only_wrote_trans; eassumption.
Qed.

Lemma emacs_perror_effect (M MAX_ALLOCA : Z)
    (emacs_strerror : Z -> c_string) (initial_argv0 : option c_string)
    (literal : string -> Z) (buf : Z) (message : c_string) (k : script)
    (w : world) :
  match emacs_perror M MAX_ALLOCA emacs_strerror initial_argv0 literal buf
          message k w with
  | Ret _ (_, w') => errno w' = errno w /\ only_wrote STDERR_FILENO w w'
  | Esc e (k', w') => e = Blocked /\ k' = [] /\ only_wrote STDERR_FILENO w w'
  end.
Proof.
  unfold emacs_perror.
  set (command := match initial_argv0 with Some _ => _ | None => _ end).
  destruct (snprintf_diagnostic command message (emacs_strerror (errno w)) w)
    as [nbytes w0] eqn:Hsn.
  assert (Hw0 : only_wrote STDERR_FILENO w w0).
  { unfold snprintf_diagnostic in Hsn. destruct (_ <=? INT_MAX).
    - injection Hsn as _ <-. apply only_wrote_refl.
    - injection Hsn as _ <-. apply only_wrote_set_errno. }
  set (body := if (0 <=? nbytes) && (nbytes <? Z.min PIPE_BUF MAX_ALLOCA)
               then _ else _).
  assert (Hbody : match body with
                  | Ret _ (_, w') => only_wrote STDERR_FILENO w0 w'
                  | Esc e (k', w') =>
                      e = Blocked /\ k' = [] /\ only_wrote STDERR_FILENO w0 w'
                  end).
  { subst body. destruct ((0 <=? nbytes) && _).
    - apply (emacs_write_only_wrote M STDERR_FILENO buf nbytes (k, w0)).
    - apply bind_only_wrote;
        [apply (emacs_write_only_wrote M STDERR_FILENO _ _ (k, w0))|].
      intros _ st1. apply bind_only_wrote; [apply emacs_write_only_wrote|].
      intros _ st2. apply bind_only_wrote; [apply emacs_write_only_wrote|].
      intros _ st3. apply bind_only_wrote; [apply emacs_write_only_wrote|].
      intros _ st4. apply bind_only_wrote; [apply emacs_write_only_wrote|].
      intros _ st5. apply emacs_write_only_wrote. }
  destruct body as [r [k1 w1]|e [k1 w1]]; cbn [bind fst snd].
  - split; [reflexivity|].
    eapply only_wrote_trans; [exact Hw0|].
    eapply only_wrote_trans; [exact Hbody | apply only_wrote_set_errno].
  - destruct Hbody as (He & Hk & Hw). split; [exact He|]. split; [exact Hk|].
    eapply only_wrote_trans; eassumption.
Qed.

(** Property X21.  [emacs_perror] leaves [errno] as it found it.  All it does
    is write on standard error: it opens and closes nothing, takes up no
    pending signal and honours no quit, a quit that is pending staying
    so.  It does not return only while a [write] is not answered. *)
Theorem emacs_perror_preserves_errno (M MAX_ALLOCA : Z)
    (emacs_strerror : Z -> c_string) (initial_argv0 : option c_string)
    (literal : string -> Z) (buf : Z) (message : c_string) (k : script)
    (w : world) :
  match emacs_perror M MAX_ALLOCA emacs_strerror initial_argv0 literal buf
          message k w with
  | Ret _ (_, w') => errno w' = errno w /\ only_wrote STDERR_FILENO w w'
  | Esc e (k', w') => e = Blocked /\ k' = [] /\ only_wrote STDERR_FILENO w w'
  end.
Proof. apply emacs_perror_effect. Qed.

(** *** The standard descriptors *)

Lemma lowest_from_range (fds : gset Z) (fuel : nat) :
  forall n : Z,
    n <= lowest_from fuel n fds <= n + Z.of_nat fuel
    /\ (forall i, n <= i < lowest_from fuel n fds -> i ∈ fds)
    /\ (lowest_from fuel n fds < n + Z.of_nat fuel ->
        lowest_from fuel n fds ∉ fds).
Proof.
  induction fuel as [|fuel IH]; intros n; cbn [lowest_from].
  - split; [lia|]. split; intros; lia.
  - destruct (bool_decide (n ∈ fds)) eqn:Hn.
    + apply bool_decide_eq_true in Hn.
      destruct (IH (n + 1)) as (Hr & Hbelow & Hfree).
      split; [lia|]. split.
      * intros i Hi. destruct (Z.eq_dec i n) as [->|Hne]; [exact Hn|].
        apply Hbelow. lia.
      * intros Hlt. apply Hfree. lia.
    + apply bool_decide_eq_false in Hn.
      split; [lia|]. split; [intros; lia|]. intros _. exact Hn.
Qed.

(** The descriptor that [open] returns is not negative and was not in
    use. *)
Lemma lowest_unused_fresh (fds : gset Z) :
  0 <= lowest_unused fds /\ lowest_unused fds ∉ fds.
Proof.
  unfold lowest_unused.
  destruct (lowest_from_range fds (size fds) 0) as (Hr & Hbelow & Hfree).
  split; [lia|].
  destruct (Z.eq_dec (lowest_from (size fds) 0 fds) (Z.of_nat (size fds)))
    as [Heq|Hne]; [|apply Hfree; lia].
  (* all of 0 .. size fds - 1 are in use: they are all there is *)
  rewrite Heq in *. intros Hin.
  assert (Hsub : (list_to_set (seqZ 0 (Z.of_nat (size fds) + 1)) : gset Z)
                 ⊆ fds).
  { intros i Hi. apply elem_of_list_to_set, elem_of_seqZ in Hi.
    destruct (Z.eq_dec i (Z.of_nat (size fds))) as [->|Hlt]; [exact Hin|].
    apply Hbelow. lia. }
  apply subseteq_size in Hsub.
  rewrite size_list_to_set in Hsub by apply NoDup_seqZ.
  rewrite length_seqZ in Hsub. lia.
Qed.

Lemma lowest_unused_first (fds : gset Z) (n : Z) :
  0 <= n -> n ∉ fds -> (forall i, 0 <= i < n -> i ∈ fds) ->
  lowest_unused fds = n.
Proof.
  intros Hn Hfree Hbelow.
  destruct (lowest_unused_fresh fds) as [Hpos Hnew].
  unfold lowest_unused in *.
  destruct (lowest_from_range fds (size fds) 0) as (_ & Hall & _).
  destruct (Z.lt_trichotomy (lowest_from (size fds) 0 fds) n)
    as [Hlt|[Heq|Hgt]]; [|exact Heq|].
  - exfalso. apply Hnew. apply Hbelow. lia.
  - exfalso. apply Hfree. apply Hall. lia.
Qed.

Lemma sys_dup2_same (fd : Z) (fails : option Z) (w : world) :
  sys_dup2 fd fd fails w
  = if bool_decide (fd ∈ open_fds w) && (0 <=? fd) then (fd, w)
    else (-1, set_errno EBADF w).
Proof. unfold sys_dup2. rewrite Z.eqb_refl. reflexivity. Qed.

Lemma without_subseteq (fds : gset Z) (fd : Z) : fds ∖ {[fd]} ⊆ fds.
Proof. intros i Hi. apply elem_of_difference in Hi. tauto. Qed.

Lemma without_twice (fds fds1 fds2 : gset Z) (fd : Z) :
  fds ∖ {[fd]} ⊆ fds1 -> fds1 ∖ {[fd]} ⊆ fds2 -> fds ∖ {[fd]} ⊆ fds2.
Proof.
  intros H1 H2 i Hi. apply H2. apply elem_of_difference.
  split; [apply H1; exact Hi|]. apply elem_of_difference in Hi. tauto.
Qed.

(** [emacs_close] takes away no descriptor but its own, and adds none. *)
Lemma emacs_close_fds (fd : Z) (k : close_script) :
  forall w : world,
    let o := emacs_close fd k w in
    open_fds (snd (final o)) ⊆ open_fds w
    /\ open_fds w ∖ {[fd]} ⊆ open_fds (snd (final o))
    /\ match o with
       | Ret _ _ => True
       | Esc e _ => e = Blocked \/ e = ByAbort
       end.
Proof.
  induction k as [|a k IH]; intros w; cbv zeta.
  - cbn [emacs_close final snd]. split; [reflexivity|].
    split; [apply without_subseteq|]. left. reflexivity.
  - cbn [emacs_close]. unfold posix_close, eassert.
    change (POSIX_CLOSE_RESTART =? POSIX_CLOSE_RESTART) with true.
    rewrite andb_false_r. cbn [bind].
    assert (Hcall : open_fds (snd (sys_close fd a w)) ⊆ open_fds w
                    /\ open_fds w ∖ {[fd]} ⊆ open_fds (snd (sys_close fd a w))).
    { unfold sys_close, returned.
      destruct (bool_decide (fd ∈ open_fds w)), a as [|e released];
        cbn [releases]; try destruct released;
        cbn [snd log set_errno set_open_fds open_fds];
        split; first [reflexivity | apply without_subseteq]. }
    destruct (sys_close fd a w) as [r w1]. cbn [snd] in Hcall.
    destruct ((r =? 0) || (errno w1 =? EINTR)).
    + change (0 =? 0) with true. cbv iota. cbn [final snd].
      split; [tauto|]. split; [tauto | exact I].
    + change (-1 =? 0) with false. cbv iota.
      change (POSIX_CLOSE_RESTART =? 0) with false. cbn [orb].
      destruct (negb (errno w1 =? EINTR)).
      * destruct (checking w1 && _); cbn [final snd];
          (split; [tauto|]); (split; [tauto|]); [right; reflexivity | exact I].
      * specialize (IH w1). cbv zeta in IH.
        destruct IH as (Hsub & Hkeep & Hesc). destruct Hcall as [Hc1 Hc2].
        split; [etrans; eassumption|].
        split; [eapply without_twice; eassumption | exact Hesc].
Qed.

Section StandardDescriptors.

Variable MAX_RW_COUNT MAX_ALLOCA : Z.
Variable emacs_strerror : Z -> c_string.
Variable initial_argv0 : option c_string.
Variable literal : string -> Z.

Local Abbreviation perror :=
  (emacs_perror MAX_RW_COUNT MAX_ALLOCA emacs_strerror initial_argv0 literal).
Local Abbreviation force :=
  (force_open MAX_RW_COUNT MAX_ALLOCA emacs_strerror initial_argv0 literal).
Local Abbreviation init :=
  (init_standard_fds MAX_RW_COUNT MAX_ALLOCA emacs_strerror initial_argv0
     literal).

(** What [force_open] does once something has failed. *)
Lemma perror_and_exit (buf : Z) (a : force_answers) (w : world) :
  match
    match perror buf (NULL_DEVICE literal) (writes a) w with
    | Ret _ (_, w') => Ret (Exits (A := unit) EXIT_FAILURE) w'
    | Esc e (_, w') => Esc e w'
    end
  with
  | Ret (Continues _) _ => False
  | Ret (Exits status) w' =>
      status = EXIT_FAILURE /\ open_fds w' = open_fds w
      /\ errno w' = errno w
  | Esc e w' => e = Blocked /\ open_fds w' = open_fds w
  end.
Proof.
  pose proof (emacs_perror_effect MAX_RW_COUNT MAX_ALLOCA emacs_strerror
                initial_argv0 literal buf (NULL_DEVICE literal) (writes a) w)
    as H.
  destruct (perror buf (NULL_DEVICE literal) (writes a) w)
    as [r [k' w']|e [k' w']].
  - destruct H as (Herr & _ & _ & Hfds & _). repeat split; assumption.
  - destruct H as (He & _ & _ & _ & Hfds & _). split; assumption.
Qed.

(** A descriptor that is valid is left alone. *)
Lemma force_open_valid (buf fd flags : Z) (a : force_answers) (w : world) :
  fd ∈ open_fds w -> 0 <= fd ->
  force buf fd flags a w = Ret (Continues tt) w.
Proof.
  intros Hin Hpos. unfold force_open. rewrite sys_dup2_same.
  rewrite bool_decide_eq_true_2 by exact Hin.
  replace (0 <=? fd) with true by (symmetry; apply Z.leb_le; exact Hpos).
  cbn [andb]. replace (fd <? 0) with false
    by (symmetry; apply Z.ltb_ge; exact Hpos).
  reflexivity.
Qed.

(** One that is not, is looked for. *)
Lemma force_open_invalid (buf fd flags : Z) (a : force_answers) (w : world) :
  fd ∉ open_fds w \/ fd < 0 ->
  force buf fd flags a w
  = let '(n, w) :=
      sys_open (address (NULL_DEVICE literal)) flags (open_fails a)
        (set_errno EBADF w) in
    bind
      (if n <? 0 then Ret true w
       else if negb (fd =? n) then
         let '(r, w) := sys_dup2 n fd (dup2_fails a) w in
         if r <? 0 then Ret true w
         else
           match emacs_close n (closes a) w with
           | Ret r (_, w) => Ret (negb (r =? 0)) w
           | Esc e (_, w) => Esc e w
           end
       else Ret false w)
      (fun failed w =>
         if failed : bool then
           match perror buf (NULL_DEVICE literal) (writes a) w with
           | Ret _ (_, w) => Ret (Exits EXIT_FAILURE) w
           | Esc e (_, w) => Esc e w
           end
         else Ret (Continues tt) w).
Proof.
  intros Hout. unfold force_open. rewrite sys_dup2_same.
  replace (bool_decide (fd ∈ open_fds w) && (0 <=? fd)) with false.
  - reflexivity.
  - symmetry. apply andb_false_iff. destruct Hout as [Hnot|Hneg].
    + left. apply bool_decide_eq_false_2. exact Hnot.
    + right. apply Z.leb_gt. exact Hneg.
Qed.

(** What [open] does to the descriptors. *)
Lemma sys_open_fds (file flags : Z) (fails : option Z) (w : world) :
  let '(n, w') := sys_open file flags fails w in
  match fails with
  | Some e => n = -1 /\ open_fds w' = open_fds w /\ errno w' = e
  | None =>
      n = lowest_unused (open_fds w) /\ 0 <= n /\ (n ∉ open_fds w)
      /\ open_fds w' = open_fds w ∪ {[n]}
  end.
Proof.
  unfold sys_open, returned. destruct fails as [e|]; cbn [retval].
  - repeat split.
  - destruct (lowest_unused_fresh (open_fds w)) as [Hpos Hnew].
    repeat split; assumption.
Qed.

(** [force_open] after a failure: the diagnostic, and [exit]. *)
Lemma force_open_failed (buf fd : Z) (a : force_answers) (w w0 : world)
    (hi : gset Z) :
  fd ∉ open_fds w \/ fd < 0 -> open_fds w ⊆ open_fds w0 ->
  match
    match perror buf (NULL_DEVICE literal) (writes a) w0 with
    | Ret _ (_, w') => Ret (Exits (A := unit) EXIT_FAILURE) w'
    | Esc e (_, w') => Esc e w'
    end
  with
  | Ret (Continues _) w' =>
      fd ∈ open_fds w' /\ (open_fds w ⊆ open_fds w')
      /\ (open_fds w' ⊆ hi)
  | Ret (Exits status) w' =>
      status = EXIT_FAILURE /\ (fd ∉ open_fds w \/ fd < 0)
      /\ (open_fds w ⊆ open_fds w')
  | Esc e w' =>
      (e = Blocked \/ e = ByAbort) /\ (fd ∉ open_fds w \/ fd < 0)
      /\ (open_fds w ⊆ open_fds w')
  end.
Proof.
  intros Hout Hsub. pose proof (perror_and_exit buf a w0) as H.
  destruct (match perror buf (NULL_DEVICE literal) (writes a) w0 with
            | Ret _ (_, w') => Ret (Exits (A := unit) EXIT_FAILURE) w'
            | Esc e (_, w') => Esc e w'
            end) as [[[]|status] w'|e w'].
  - destruct H.
  - destruct H as (Hs & Hfds & _). rewrite Hfds. tauto.
  - destruct H as (He & Hfds). rewrite Hfds. tauto.
Qed.

(** Property X22.  When [force_open] returns, [fd] is valid, every descriptor
    that was valid still is, and none has been added but [fd] and, at
    most, the one that [open] returned.  It calls [exit], with
    EXIT_FAILURE, or fails to return only for an [fd] that was not valid
    or is negative, and then too every descriptor that was valid still
    is. *)
Theorem force_open_opens (buf fd flags : Z) (a : force_answers) (w : world) :
  match force buf fd flags a w with
  | Ret (Continues _) w' =>
      fd ∈ open_fds w' /\ (open_fds w ⊆ open_fds w')
      /\ (open_fds w' ⊆ open_fds w ∪ {[fd; lowest_unused (open_fds w)]})
  | Ret (Exits status) w' =>
      status = EXIT_FAILURE /\ (fd ∉ open_fds w \/ fd < 0)
      /\ (open_fds w ⊆ open_fds w')
  | Esc e w' =>
      (e = Blocked \/ e = ByAbort) /\ (fd ∉ open_fds w \/ fd < 0)
      /\ (open_fds w ⊆ open_fds w')
  end.
Proof.
  assert (Hcases : (fd ∈ open_fds w /\ 0 <= fd) \/ (fd ∉ open_fds w \/ fd < 0)).
  { destruct (decide (fd ∈ open_fds w)); [|tauto].
    destruct (Z.le_gt_cases 0 fd); tauto. }
  destruct Hcases as [[Hin Hpos]|Hout].
  { rewrite force_open_valid by assumption.
    split; [exact Hin|]. split; [reflexivity|].
    apply union_subseteq_l. }
  rewrite force_open_invalid by exact Hout.
  pose proof (sys_open_fds (address (NULL_DEVICE literal)) flags
                (open_fails a) (set_errno EBADF w)) as Hopen.
  destruct (sys_open _ flags (open_fails a) (set_errno EBADF w)) as [n w1].
  change (open_fds (set_errno EBADF w)) with (open_fds w) in Hopen.
  destruct (open_fails a) as [e|].
  { (* open failed *)
    destruct Hopen as (-> & Hfds & _). change (-1 <? 0) with true.
    cbn [bind]. apply force_open_failed; [exact Hout|].
    rewrite Hfds. reflexivity. }
  destruct Hopen as (Hn & Hpos & Hnew & Hfds). rewrite <- Hn.
  replace (n <? 0) with false by (symmetry; apply Z.ltb_ge; exact Hpos).
  assert (Hsub1 : open_fds w ⊆ open_fds w1)
    by (rewrite Hfds; apply union_subseteq_l).
  destruct (Z.eqb_spec fd n) as [->|Hne]; cbn [negb bind].
  { (* open returned the descriptor itself *)
    rewrite Hfds. split; [apply elem_of_union_r, elem_of_singleton; reflexivity|].
    split; [apply union_subseteq_l|].
    apply union_mono_l. intros i Hi. apply elem_of_singleton in Hi. subst i.
    apply elem_of_union_l, elem_of_singleton. reflexivity. }
  unfold sys_dup2.
  rewrite bool_decide_eq_true_2
    by (rewrite Hfds; apply elem_of_union_r, elem_of_singleton; reflexivity).
  cbn [andb]. destruct (Z.leb_spec 0 fd) as [Hfd|Hfd].
  2:{ change (-1 <? 0) with true. cbn [bind].
      apply force_open_failed; [exact Hout | exact Hsub1]. }
  replace (n =? fd) with false by (symmetry; apply Z.eqb_neq; congruence).
  destruct (dup2_fails a) as [e|].
  { change (-1 <? 0) with true. cbn [bind].
    apply force_open_failed; [exact Hout | exact Hsub1]. }
  replace (fd <? 0) with false by (symmetry; apply Z.ltb_ge; exact Hfd).
  set (w2 := set_open_fds (open_fds w1 ∪ {[fd]}) w1).
  destruct (emacs_close_fds n (closes a) w2) as (Hdown & Hkeep & Hesc).
  change (open_fds w2) with (open_fds w1 ∪ {[fd]}) in Hdown, Hkeep.
  assert (Hsub3 : open_fds w
                  ⊆ open_fds (snd (final (emacs_close n (closes a) w2)))).
  { intros i Hi. apply Hkeep. apply elem_of_difference. split.
    - apply elem_of_union_l. apply Hsub1. exact Hi.
    - intros Hin. apply elem_of_singleton in Hin. subst i. contradiction. }
  destruct (emacs_close n (closes a) w2) as [r [k3 w3]|e [k3 w3]];
    cbn [final snd bind] in *.
  - destruct (r =? 0); cbn [negb].
    + split.
      * apply Hkeep. apply elem_of_difference. split.
        -- apply elem_of_union_r, elem_of_singleton. reflexivity.
        -- intros Hin. apply elem_of_singleton in Hin. contradiction.
      * split; [exact Hsub3|]. etrans; [exact Hdown|]. rewrite Hfds.
        intros i Hi. rewrite !elem_of_union, !elem_of_singleton in *. tauto.
    + apply force_open_failed; [exact Hout | exact Hsub3].
  - split; [exact Hesc|]. split; [exact Hout | exact Hsub3].
Qed.

Lemma only_opened_refl (file : Z) (w : world) : only_opened file w w.
Proof. exists []. split; [reflexivity | constructor]. Qed.

Lemma only_opened_trans (file : Z) (w1 w2 w3 : world) :
  only_opened file w1 w2 -> only_opened file w2 w3 -> only_opened file w1 w3.
Proof.
  intros (new1 & Hs1 & Hall1) (new2 & Hs2 & Hall2).
  exists (new2 ++ new1). split.
  - rewrite Hs2, Hs1, app_assoc. reflexivity.
  - apply Forall_app. split; assumption.
Qed.

(** With every lower descriptor in use, [open] returns the descriptor that
    is wanted: there is nothing to duplicate and nothing to close. *)
Lemma force_open_next (buf fd flags : Z) (a : force_answers) (w : world) :
  0 <= fd -> (forall i, 0 <= i < fd -> i ∈ open_fds w) ->
  match force buf fd flags a w with
  | Ret (Continues _) w' =>
      open_fds w' = open_fds w ∪ {[fd]}
      /\ only_opened (address (NULL_DEVICE literal)) w w'
      /\ (fd ∈ open_fds w -> w' = w)
  | Ret (Exits status) w' =>
      status = EXIT_FAILURE /\ (fd ∉ open_fds w) /\ open_fails a <> None
      /\ open_fds w' = open_fds w
  | Esc e w' =>
      e = Blocked /\ (fd ∉ open_fds w) /\ open_fails a <> None
      /\ open_fds w' = open_fds w
  end.
Proof.
  intros Hpos Hbelow.
  destruct (decide (fd ∈ open_fds w)) as [Hin|Hnot].
  { rewrite force_open_valid by assumption.
    split; [|split; [apply only_opened_refl | reflexivity]].
    apply leibniz_equiv. intros i. rewrite elem_of_union, elem_of_singleton.
    split; [tauto|]. intros [Hi| ->]; assumption. }
  rewrite force_open_invalid by (left; exact Hnot).
  unfold sys_open. destruct (open_fails a) as [e|].
  - cbn [returned retval]. change (-1 <? 0) with true. cbn [bind].
    pose proof (perror_and_exit buf a
                  (log (SysOpenat AT_FDCWD (address (NULL_DEVICE literal))
                          flags 0 (Error e))
                     (set_errno e (set_errno EBADF w)))) as H.
    destruct (match perror buf (NULL_DEVICE literal) (writes a) _ with
              | Ret _ (_, w') => Ret (Exits (A := unit) EXIT_FAILURE) w'
              | Esc e (_, w') => Esc e w'
              end) as [[[]|status] w'|e' w'].
    + destruct H.
    + destruct H as (Hs & Hfds & _). repeat split; try assumption.
      discriminate.
    + destruct H as (He & Hfds). repeat split; try assumption. discriminate.
  - change (open_fds (set_errno EBADF w)) with (open_fds w).
    rewrite (lowest_unused_first (open_fds w) fd Hpos Hnot Hbelow).
    cbn [returned retval].
    replace (fd <? 0) with false by (symmetry; apply Z.ltb_ge; exact Hpos).
    rewrite Z.eqb_refl. cbn [negb bind].
    split; [reflexivity|]. split; [|contradiction].
    eexists [_]. split; [reflexivity|]. repeat constructor.
    eexists _, _. reflexivity.
Qed.

(** Property X23.  When [init_standard_fds] returns, descriptors 0, 1 and 2
    are valid and the valid descriptors are otherwise those there were:
    as [open] returns the lowest descriptor not in use, each missing one
    is filled in by an open of the null device, and the log shows nothing
    else, no [close] and no [write].  [buferr] is the stream of [fdopen],
    line buffered, or null if [fdopen] failed.  It calls [exit], with
    EXIT_FAILURE, or is held up in the diagnostic only if one of the three
    descriptors was not valid, and then has added none but these. *)
Theorem init_standard_fds_opens (buf : Z) (a0 a1 a2 : force_answers)
    (fdopen_as : stream_answer) (w : world) :
  let std : gset Z := {[STDIN_FILENO; STDOUT_FILENO; STDERR_FILENO]} in
  match init buf a0 a1 a2 fdopen_as w with
  | Ret (Continues s) w' =>
      open_fds w' = open_fds w ∪ std
      /\ only_opened (address (NULL_DEVICE literal)) w w'
      /\ match fdopen_as with
         | Stream fp => buferr s = Z.pos fp /\ line_buffered s = true
         | NoStream e =>
             buferr s = 0 /\ line_buffered s = false /\ errno w' = e
         end
  | Ret (Exits status) w' =>
      status = EXIT_FAILURE /\ ~ (std ⊆ open_fds w)
      /\ (open_fds w ⊆ open_fds w') /\ (open_fds w' ⊆ open_fds w ∪ std)
  | Esc e w' =>
      e = Blocked /\ ~ (std ⊆ open_fds w)
      /\ (open_fds w ⊆ open_fds w') /\ (open_fds w' ⊆ open_fds w ∪ std)
  end.
Proof.
  cbv zeta. unfold init_standard_fds, and_then.
  unfold STDIN_FILENO, STDOUT_FILENO, STDERR_FILENO.
  assert (Hmiss : forall fd (fds : gset Z),
            fd ∈ ({[0; 1; 2]} : gset Z) -> open_fds w ⊆ fds -> fd ∉ fds ->
            ~ ({[0; 1; 2]} ⊆ open_fds w)).
  { intros fd fds Hfd Hsub Hnot Hall. apply Hnot, Hsub, Hall, Hfd. }
  assert (H0 : (0 : Z) ∈ ({[0; 1; 2]} : gset Z))
    by (rewrite !elem_of_union, !elem_of_singleton; tauto).
  assert (H1 : (1 : Z) ∈ ({[0; 1; 2]} : gset Z))
    by (rewrite !elem_of_union, !elem_of_singleton; tauto).
  assert (H2 : (2 : Z) ∈ ({[0; 1; 2]} : gset Z))
    by (rewrite !elem_of_union, !elem_of_singleton; tauto).
  (* standard input *)
  pose proof (force_open_next buf 0 O_WRONLY a0 w ltac:(lia)
                ltac:(intros; lia)) as Hin.
  destruct (force buf 0 O_WRONLY a0 w) as [[[]|status] w1|e w1]; cbn [bind].
  2:{ destruct Hin as (Hs & Hnot & _ & Hfds). rewrite Hfds.
      split; [exact Hs|]. split; [exact (Hmiss 0 _ H0 (reflexivity _) Hnot)|].
      split; [reflexivity | apply union_subseteq_l]. }
  2:{ destruct Hin as (He & Hnot & _ & Hfds). rewrite Hfds.
      split; [exact He|]. split; [exact (Hmiss 0 _ H0 (reflexivity _) Hnot)|].
      split; [reflexivity | apply union_subseteq_l]. }
  destruct Hin as (Hfds1 & Hlog1 & _).
  (* standard output *)
  assert (Hsub1 : open_fds w ⊆ open_fds w1)
    by (rewrite Hfds1; apply union_subseteq_l).
  assert (Hup1 : open_fds w1 ⊆ open_fds w ∪ {[0; 1; 2]}).
  { rewrite Hfds1. intros i.
    rewrite !elem_of_union, !elem_of_singleton. tauto. }
  pose proof (force_open_next buf 1 O_RDONLY a1 w1 ltac:(lia)) as Hout.
  destruct (force buf 1 O_RDONLY a1 w1) as [[[]|status] w2|e w2]; cbn [bind].
  2:{ destruct Hout as (Hs & Hnot & _ & Hfds).
      { intros i Hi. assert (i = 0) as -> by lia. rewrite Hfds1.
        apply elem_of_union_r, elem_of_singleton. reflexivity. }
      rewrite Hfds. split; [exact Hs|].
      split; [exact (Hmiss 1 _ H1 Hsub1 Hnot)|]. split; assumption. }
  2:{ destruct Hout as (He & Hnot & _ & Hfds).
      { intros i Hi. assert (i = 0) as -> by lia. rewrite Hfds1.
        apply elem_of_union_r, elem_of_singleton. reflexivity. }
      rewrite Hfds. split; [exact He|].
      split; [exact (Hmiss 1 _ H1 Hsub1 Hnot)|]. split; assumption. }
  destruct Hout as (Hfds2 & Hlog2 & _).
  { intros i Hi. assert (i = 0) as -> by lia. rewrite Hfds1.
    apply elem_of_union_r, elem_of_singleton. reflexivity. }
  (* standard error *)
  assert (Hsub2 : open_fds w ⊆ open_fds w2).
  { rewrite Hfds2. etrans; [exact Hsub1 | apply union_subseteq_l]. }
  assert (Hup2 : open_fds w2 ⊆ open_fds w ∪ {[0; 1; 2]}).
  { rewrite Hfds2, Hfds1. intros i.
    rewrite !elem_of_union, !elem_of_singleton. tauto. }
  assert (Hbelow2 : forall i, 0 <= i < 2 -> i ∈ open_fds w2).
  { intros i Hi. rewrite Hfds2, Hfds1.
    rewrite !elem_of_union, !elem_of_singleton. lia. }
  pose proof (force_open_next buf 2 O_RDONLY a2 w2 ltac:(lia) Hbelow2) as Herr.
  destruct (force buf 2 O_RDONLY a2 w2) as [[[]|status] w3|e w3]; cbn [bind].
  2:{ destruct Herr as (Hs & Hnot & _ & Hfds). rewrite Hfds.
      split; [exact Hs|]. split; [exact (Hmiss 2 _ H2 Hsub2 Hnot)|].
      split; assumption. }
  2:{ destruct Herr as (He & Hnot & _ & Hfds). rewrite Hfds.
      split; [exact He|]. split; [exact (Hmiss 2 _ H2 Hsub2 Hnot)|].
      split; assumption. }
  destruct Herr as (Hfds3 & Hlog3 & _).
  assert (Hlog : only_opened (address (NULL_DEVICE literal)) w w3).
  { eapply only_opened_trans; [exact Hlog1|].
    eapply only_opened_trans; [exact Hlog2 | exact Hlog3]. }
  assert (Hfds : open_fds w3 = open_fds w ∪ {[0; 1; 2]}).
  { rewrite Hfds3, Hfds2, Hfds1, <- !(assoc_L (∪)). reflexivity. }
  destruct fdopen_as as [fp|e]; cbn [emacs_fdopen buferr line_buffered].
  - split; [exact Hfds|]. split; [exact Hlog|]. split; reflexivity.
  - split; [exact Hfds|]. split; [exact Hlog|]. repeat split.
Qed.

End StandardDescriptors.
